(** * Chalk dictionaries (apps/ck/lib/dict.c)

    A shallow embedding of the open-addressing hash table of the Chalk
    runtime, and the properties of it that the specification states.

    Conventions of the embedding:
    - C integers are [Z]; every operation that can leave the range of its
      C type is followed by the cast that wraps it ([ULONG_cast],
      [UINTN_cast]).
    - The entry array is a [list CK_DICT_ENTRY]; a pointer to an entry is
      the index of the slot ([PCK_DICT_ENTRY]).
    - Undefined behaviour of the C code (a division by zero, a read or a
      write outside the array) is the result [None]. *)

From Stdlib Require Import ZArith Lia Bool.
From stdpp Require Import base option list.

Local Open Scope Z_scope.

(** ** Machine integers *)

(** ULONG is the 32-bit unsigned type of the hash. *)
Definition ULONG_BITS : Z := 32.

(** UINTN is the pointer-sized unsigned type of Count, Capacity and the
    indices; the model fixes a 64-bit target. *)
Definition UINTN_BITS : Z := 64.

(** [(ULONG)x]: the low 32 bits. *)
Definition ULONG_cast (x : Z) : Z := x mod 2 ^ ULONG_BITS.

(** Arithmetic in UINTN wraps modulo 2^64. *)
Definition UINTN_cast (x : Z) : Z := x mod 2 ^ UINTN_BITS.

(** ** Values *)

(** Modelled from the spec: the string object of chalkp.h, which is not
    among the source files. Only the header (its address stands for it) and
    the cached [Hash] matter to the dictionary. *)
Record CK_STRING_OBJECT : Type := {
  StringAddress : Z;
  Hash : Z
}.

(** Modelled from the spec: the heap objects of chalkp.h (spec 4.6: String,
    Class, Range, "any other object type"). An object carries its storage
    address; a class points to its name string, a range holds its two
    integer bounds. *)
Inductive CK_OBJECT : Type :=
  | CkObjectClass (Address : Z) (Name : CK_STRING_OBJECT)
  | CkObjectString (String : CK_STRING_OBJECT)
  | CkObjectRange (Address : Z) (From To : Z)
  | CkObjectOther (Address : Z).

(** [(UINTN)Object]: the address the pointer holds. *)
Definition ObjectAddress (Object : CK_OBJECT) : Z :=
  match Object with
  | CkObjectClass Address _ => Address
  | CkObjectString String => StringAddress String
  | CkObjectRange Address _ _ => Address
  | CkObjectOther Address => Address
  end.

(** Modelled from the spec: the tagged union CK_VALUE of chalkp.h (spec 6:
    variants Null, Boolean, Integer, Object-reference, and the reserved
    Undefined sentinel). *)
Inductive CK_VALUE : Type :=
  | CkValueUndefined
  | CkValueNull
  | CkValueBoolean (Boolean : bool)
  | CkValueInteger (Integer : Z)
  | CkValueObject (Object : CK_OBJECT).

Definition CK_UNDEFINED_VALUE : CK_VALUE := CkValueUndefined.
Definition CK_NULL_VALUE : CK_VALUE := CkValueNull.
Definition CK_TRUE_VALUE : CK_VALUE := CkValueBoolean true.

Definition CK_IS_UNDEFINED (Value : CK_VALUE) : bool :=
  match Value with
  | CkValueUndefined => true
  | _ => false
  end.

Definition CK_IS_OBJECT (Value : CK_VALUE) : bool :=
  match Value with
  | CkValueObject _ => true
  | _ => false
  end.

(** The Value Equality collaborator (CkpAreValuesEqual is not among the
    source files): the dictionary code is generic in it. *)
Class ValueEquality : Type :=
  CkpAreValuesEqual : CK_VALUE -> CK_VALUE -> bool.

(** ** Hashing *)

(** [CkpHashObject]: a class falls through to the string case with the
    header of its name; a range mixes the low halves of its bounds; every
    other object is hashed by address. *)
Definition CkpHashObject (Object : CK_OBJECT) : Z :=
  match Object with
  | CkObjectClass _ Name => ULONG_cast (Hash Name)
  | CkObjectString String => ULONG_cast (Hash String)
  | CkObjectRange _ From To => Z.lxor (ULONG_cast From) (ULONG_cast To)
  | CkObjectOther _ => ULONG_cast (Z.shiftr (UINTN_cast (ObjectAddress Object)) 4)
  end.

(** [CkpHashValue]: the switch on [Value.Type]; the default case and the
    code after the switch both return 0. *)
Definition CkpHashValue (Value : CK_VALUE) : Z :=
  match Value with
  | CkValueNull => 0
  | CkValueInteger Integer => ULONG_cast Integer
  | CkValueObject Object => CkpHashObject Object
  | _ => 0
  end.

(** ** The dictionary *)

(** The maximum fill of the table, in 1024ths. *)
Definition DICT_LOAD_FACTOR : Z := 768.

(** How much bigger a dictionary gets when it grows. *)
Definition DICT_GROW_FACTOR : Z := 2.

(** The factor by which the table has to shrink before resizing. *)
Definition DICT_SHRINK_FACTOR : Z := 3.

(** The minimum capacity of a dictionary. *)
Definition DICT_MIN_CAPACITY : Z := 16.

Record CK_DICT_ENTRY : Type := {
  Key : CK_VALUE;
  Value : CK_VALUE
}.

Record CK_DICT : Type := {
  Count : Z;
  Capacity : Z;
  Entries : list CK_DICT_ENTRY
}.

(** A pointer into the entry array of a dictionary, or NULL. *)
Inductive PCK_DICT_ENTRY : Type :=
  | NULL
  | EntryAt (Index : Z).

(** What CkZero leaves in a slot: both tags are the zero tag, Undefined. *)
Definition ZeroEntry : CK_DICT_ENTRY :=
  {| Key := CK_UNDEFINED_VALUE; Value := CK_UNDEFINED_VALUE |}.

(** What CkpDictRemove leaves in a slot. *)
Definition DeletedEntry : CK_DICT_ENTRY :=
  {| Key := CK_UNDEFINED_VALUE; Value := CK_TRUE_VALUE |}.

(** [Entries[Index]] as an rvalue; outside the array it is undefined. *)
Definition ReadEntry (Entries : list CK_DICT_ENTRY) (Index : Z)
  : option CK_DICT_ENTRY :=
  if Index <? 0 then None else Entries !! Z.to_nat Index.

(** [Entries[Index] = Entry]; outside the array it is undefined. *)
Definition WriteEntry (Entries : list CK_DICT_ENTRY) (Index : Z)
  (Entry : CK_DICT_ENTRY) : option (list CK_DICT_ENTRY) :=
  _ ← ReadEntry Entries Index;
  Some (<[Z.to_nat Index := Entry]> Entries).

(** [Index += 1; if (Index == Capacity) Index = 0;] *)
Definition NextIndex (Index Capacity : Z) : Z :=
  let Index := UINTN_cast (Index + 1) in
  if Index =? Capacity then 0 else Index.

(** ** The virtual machine, as far as the dictionary uses it *)

(** Modelled from the spec: the Allocator and GC collaborators and the
    CK_ASSERT macro of chalkp.h, none of which is among the source files.
    [Allocations] lists the outcomes of the coming CkAllocate calls (past
    its end every call succeeds); [Roots] is the LIFO stack of rooted
    objects; [FailedAssertions] counts the CK_ASSERTs whose condition was
    false. The spec (4.5) calls the precondition of Resize "not re-validated
    at runtime beyond an assertion": the model goes on past a false
    assertion, as a build without assertions does, and records it; a build
    with assertions stops where the counter leaves 0. *)
Record CK_VM : Type := {
  Allocations : list bool;
  Roots : list CK_OBJECT;
  FailedAssertions : nat
}.

Definition CkAllocate (Vm : CK_VM) : CK_VM * bool :=
  match Allocations Vm with
  | [] => (Vm, true)
  | Success :: Rest =>
      ({| Allocations := Rest; Roots := Roots Vm;
          FailedAssertions := FailedAssertions Vm |}, Success)
  end.

Definition CK_ASSERT (Vm : CK_VM) (Condition : bool) : CK_VM :=
  if Condition then Vm
  else {| Allocations := Allocations Vm; Roots := Roots Vm;
          FailedAssertions := S (FailedAssertions Vm) |}.

Definition CkpPushRoot (Vm : CK_VM) (Object : CK_OBJECT) : CK_VM :=
  {| Allocations := Allocations Vm; Roots := Object :: Roots Vm;
     FailedAssertions := FailedAssertions Vm |}.

Definition CkpPopRoot (Vm : CK_VM) : CK_VM :=
  {| Allocations := Allocations Vm; Roots := tail (Roots Vm);
     FailedAssertions := FailedAssertions Vm |}.

(** No CkAllocate call of the VM is going to fail. *)
Definition NoAllocationFailure (Vm : CK_VM) : Prop :=
  Forall (fun Success => Success = true) (Allocations Vm).

(** ** The operations *)

Section Operations.
Context {Equality : ValueEquality}.

(** The body of the loop of [CkpDictAddEntry], [Loop] iterations to go. *)
Fixpoint CkpDictAddEntry_loop (Loop : nat) (Entries : list CK_DICT_ENTRY)
  (Capacity : Z) (key value : CK_VALUE) (Index : Z)
  : option (list CK_DICT_ENTRY * bool) :=
  match Loop with
  | O => Some (Entries, false)
  | S Loop =>
      Entry ← ReadEntry Entries Index;
      if CK_IS_UNDEFINED (Key Entry) then
        Entries ← WriteEntry Entries Index {| Key := key; Value := value |};
        Some (Entries, true)
      else if CkpAreValuesEqual (Key Entry) key then
        Entries ← WriteEntry Entries Index
                    {| Key := Key Entry; Value := value |};
        Some (Entries, false)
      else
        CkpDictAddEntry_loop Loop Entries Capacity key value
          (NextIndex Index Capacity)
  end.

(** [CkpDictAddEntry]: the array after the call and the BOOL it returns.
    [CkpHashValue(Key) % Capacity] divides by zero when Capacity is 0. *)
Definition CkpDictAddEntry (Entries : list CK_DICT_ENTRY) (Capacity : Z)
  (key value : CK_VALUE) : option (list CK_DICT_ENTRY * bool) :=
  if Capacity =? 0 then None
  else CkpDictAddEntry_loop (Z.to_nat Capacity) Entries Capacity key value
         (CkpHashValue key mod Capacity).

(** The body of the loop of [CkpDictFindEntry]. *)
Fixpoint CkpDictFindEntry_loop (Loop : nat) (Dict : CK_DICT)
  (key : CK_VALUE) (Index : Z) : option PCK_DICT_ENTRY :=
  match Loop with
  | O => Some NULL
  | S Loop =>
      Entry ← ReadEntry (Entries Dict) Index;
      if CK_IS_UNDEFINED (Key Entry) then
        if CK_IS_UNDEFINED (Value Entry) then Some NULL
        else CkpDictFindEntry_loop Loop Dict key
               (NextIndex Index (Capacity Dict))
      else if CkpAreValuesEqual (Key Entry) key then Some (EntryAt Index)
      else CkpDictFindEntry_loop Loop Dict key
             (NextIndex Index (Capacity Dict))
  end.

Definition CkpDictFindEntry (Dict : CK_DICT) (key : CK_VALUE)
  : option PCK_DICT_ENTRY :=
  if Count Dict =? 0 then Some NULL
  else if Capacity Dict =? 0 then None
  else CkpDictFindEntry_loop (Z.to_nat (Capacity Dict)) Dict key
         (CkpHashValue key mod Capacity Dict).

Definition CkpDictGet (Dict : CK_DICT) (key : CK_VALUE) : option CK_VALUE :=
  Entry ← CkpDictFindEntry Dict key;
  match Entry with
  | EntryAt Index =>
      Entry ← ReadEntry (Entries Dict) Index; Some (Value Entry)
  | NULL => Some CK_UNDEFINED_VALUE
  end.

(** The re-insertion loop of [CkpDictResize], over the old array. *)
Fixpoint CkpDictResize_loop (Loop : nat) (Dict : CK_DICT) (Index : Z)
  (NewEntries : list CK_DICT_ENTRY) (NewCapacity : Z)
  : option (list CK_DICT_ENTRY) :=
  match Loop with
  | O => Some NewEntries
  | S Loop =>
      OldEntry ← ReadEntry (Entries Dict) Index;
      NewEntries ←
        (if negb (CK_IS_UNDEFINED (Key OldEntry)) then
           fst <$> CkpDictAddEntry NewEntries NewCapacity
                     (Key OldEntry) (Value OldEntry)
         else Some NewEntries);
      CkpDictResize_loop Loop Dict (Index + 1) NewEntries NewCapacity
  end.

(** [CkpDictResize]. The allocation is of NewCapacity entries (the byte
    count is taken not to wrap); CkFree has no effect on the model. *)
Definition CkpDictResize (Vm : CK_VM) (Dict : CK_DICT) (NewCapacity : Z)
  : option (CK_VM * CK_DICT) :=
  let Vm := CK_ASSERT Vm (Count Dict <? NewCapacity) in
  let '(Vm, Allocated) := CkAllocate Vm in
  if negb Allocated then Some (Vm, Dict)
  else
    let NewEntries := replicate (Z.to_nat NewCapacity) ZeroEntry in
    NewEntries ← CkpDictResize_loop (Z.to_nat (Capacity Dict)) Dict 0
                   NewEntries NewCapacity;
    Some (Vm, {| Count := Count Dict; Capacity := NewCapacity;
                 Entries := NewEntries |}).

Definition CkpDictSet (Vm : CK_VM) (Dict : CK_DICT) (key value : CK_VALUE)
  : option (CK_VM * CK_DICT) :=
  match
    (if UINTN_cast (Capacity Dict * DICT_LOAD_FACTOR) / 1024
          <? UINTN_cast (Count Dict + 1) then
       let NewCapacity := UINTN_cast (Capacity Dict * DICT_GROW_FACTOR) in
       let NewCapacity :=
         if NewCapacity <? DICT_MIN_CAPACITY then DICT_MIN_CAPACITY
         else NewCapacity in
       CkpDictResize Vm Dict NewCapacity
     else Some (Vm, Dict))
  with
  | None => None
  | Some (Vm, Dict) =>
      match CkpDictAddEntry (Entries Dict) (Capacity Dict) key value with
      | None => None
      | Some (NewEntries, New) =>
          Some (Vm, {| Count := if New then UINTN_cast (Count Dict + 1)
                                else Count Dict;
                       Capacity := Capacity Dict;
                       Entries := NewEntries |})
      end
  end.

(** The condition of the [if] that guards the shrink path of
    [CkpDictRemove], on the dictionary after the decrement of Count:
    [Capacity > DICT_MIN_CAPACITY && Count / (Capacity / 3 * 768 / 1024)],
    true when the quotient is not 0. The division is only evaluated when
    the first operand holds, and is undefined for a zero divisor. *)
Definition ShrinkCondition (Dict : CK_DICT) : option bool :=
  if DICT_MIN_CAPACITY <? Capacity Dict then
    let Divisor :=
      UINTN_cast (Capacity Dict / DICT_SHRINK_FACTOR * DICT_LOAD_FACTOR)
      / 1024 in
    if Divisor =? 0 then None
    else Some (negb (Count Dict / Divisor =? 0))
  else Some false.

(** The capacity the shrink path asks for. *)
Definition ShrunkCapacity (Dict : CK_DICT) : Z :=
  let Capacity := Capacity Dict / DICT_GROW_FACTOR in
  if Capacity <? DICT_MIN_CAPACITY then DICT_MIN_CAPACITY else Capacity.

(** [CkpDictRemove]: the VM and the dictionary after the call, and the
    value returned. *)
Definition CkpDictRemove (Vm : CK_VM) (Dict : CK_DICT) (key : CK_VALUE)
  : option (CK_VM * CK_DICT * CK_VALUE) :=
  Entry ← CkpDictFindEntry Dict key;
  match Entry with
  | NULL => Some (Vm, Dict, CK_NULL_VALUE)
  | EntryAt Index =>
      Found ← ReadEntry (Entries Dict) Index;
      let value := Value Found in
      Entries ← WriteEntry (Entries Dict) Index DeletedEntry;
      let Dict := {| Count := UINTN_cast (Count Dict - 1);
                     Capacity := Capacity Dict;
                     Entries := Entries |} in
      match ShrinkCondition Dict with
      | None => None
      | Some false => Some (Vm, Dict, value)
      | Some true =>
          let Vm := match value with
                    | CkValueObject Object => CkpPushRoot Vm Object
                    | _ => Vm
                    end in
          match
            (if negb (ShrunkCapacity Dict =? Capacity Dict) then
               CkpDictResize Vm Dict (ShrunkCapacity Dict)
             else Some (Vm, Dict))
          with
          | None => None
          | Some (Vm, Dict) =>
              let Vm := if CK_IS_OBJECT value then CkpPopRoot Vm else Vm in
              Some (Vm, Dict, value)
          end
      end
  end.

(** [CkpDictCreate]: NULL when the dictionary object cannot be allocated. *)
Definition CkpDictCreate (Vm : CK_VM) : CK_VM * option CK_DICT :=
  let '(Vm, Allocated) := CkAllocate Vm in
  if Allocated then
    (Vm, Some {| Count := 0; Capacity := 0; Entries := [] |})
  else (Vm, None).

End Operations.

(** ** Vocabulary of the statements *)

(** The three states of a slot. *)
Definition IsEmpty (Entry : CK_DICT_ENTRY) : bool :=
  CK_IS_UNDEFINED (Key Entry) && CK_IS_UNDEFINED (Value Entry).

Definition IsTombstone (Entry : CK_DICT_ENTRY) : bool :=
  CK_IS_UNDEFINED (Key Entry) && negb (CK_IS_UNDEFINED (Value Entry)).

Definition IsLive (Entry : CK_DICT_ENTRY) : bool :=
  negb (CK_IS_UNDEFINED (Key Entry)).

(** The number of Live slots of an array. *)
Definition LiveCount (Entries : list CK_DICT_ENTRY) : Z :=
  Z.of_nat (length (filter (fun Entry => IsLive Entry = true) Entries)).

(** The slot a probe that started at [Start] looks at after [Steps] steps. *)
Definition ProbeIndex (Start Capacity : Z) (Steps : nat) : Z :=
  (Start + Z.of_nat Steps) mod Capacity.

(** The first slot of the probe path of a key. *)
Definition HomeIndex (key : CK_VALUE) (Capacity : Z) : Z :=
  CkpHashValue key mod Capacity.

(** A Live slot holding the key, as the loops test it. *)
Definition HoldsKey `{ValueEquality} (key : CK_VALUE) (Entry : CK_DICT_ENTRY)
  : bool :=
  IsLive Entry && CkpAreValuesEqual (Key Entry) key.

(** A Live slot holding another key: both loops step over it. *)
Definition HoldsOtherKey `{ValueEquality} (key : CK_VALUE)
  (Entry : CK_DICT_ENTRY) : bool :=
  IsLive Entry && negb (CkpAreValuesEqual (Key Entry) key).

(** What [CkpDictFindEntry] steps over: a Tombstone, or a Live slot with
    another key. *)
Definition FindSkips `{ValueEquality} (key : CK_VALUE) (Entry : CK_DICT_ENTRY) : bool :=
  IsTombstone Entry || HoldsOtherKey key Entry.

(** The first [Steps] slots of the probe from [Start] are all in the array
    and all satisfy [Skips]. *)
Definition SkipsUntil (Skips : CK_DICT_ENTRY -> bool)
  (Entries : list CK_DICT_ENTRY) (Start Capacity : Z) (Steps : nat) : Prop :=
  forall i : nat, (i < Steps)%nat ->
    exists Entry, ReadEntry Entries (ProbeIndex Start Capacity i) = Some Entry
                  /\ Skips Entry = true.

Section Outcomes.
Context {Equality : ValueEquality}.

(** The three ways a call of CkpDictAddEntry ends. *)
Inductive AddEntryOutcome (Entries : list CK_DICT_ENTRY) (Capacity : Z)
  (key value : CK_VALUE) : list CK_DICT_ENTRY * bool -> Prop :=
  | AddedNew (j : nat) (Old : CK_DICT_ENTRY) :
      Z.of_nat j < Capacity ->
      SkipsUntil (HoldsOtherKey key) Entries (HomeIndex key Capacity) Capacity j ->
      ReadEntry Entries (ProbeIndex (HomeIndex key Capacity) Capacity j) = Some Old ->
      IsLive Old = false ->
      AddEntryOutcome Entries Capacity key value
        (<[Z.to_nat (ProbeIndex (HomeIndex key Capacity) Capacity j)
             := {| Key := key; Value := value |}]> Entries, true)
  | Replaced (j : nat) (Old : CK_DICT_ENTRY) :
      Z.of_nat j < Capacity ->
      SkipsUntil (HoldsOtherKey key) Entries (HomeIndex key Capacity) Capacity j ->
      ReadEntry Entries (ProbeIndex (HomeIndex key Capacity) Capacity j) = Some Old ->
      HoldsKey key Old = true ->
      AddEntryOutcome Entries Capacity key value
        (<[Z.to_nat (ProbeIndex (HomeIndex key Capacity) Capacity j)
             := {| Key := Key Old; Value := value |}]> Entries, false)
  | TableFull :
      SkipsUntil (HoldsOtherKey key) Entries (HomeIndex key Capacity) Capacity
        (Z.to_nat Capacity) ->
      AddEntryOutcome Entries Capacity key value (Entries, false).

End Outcomes.

(** The array is the one of the dictionary, and the arithmetic of Set and
    Remove on Count and Capacity does not wrap: [Capacity * 1024] fits in a
    UINTN (which covers the products by 768 and by 2) and so does
    [Count + 1]; Count is at least the number of Live slots, and is 0 as
    long as there is no array. *)
Record DictWf (Dict : CK_DICT) : Prop := {
  wf_length : length (Entries Dict) = Z.to_nat (Capacity Dict);
  wf_capacity : 0 <= Capacity Dict /\ Capacity Dict * 1024 < 2 ^ UINTN_BITS;
  wf_count : 0 <= Count Dict /\ Count Dict + 1 < 2 ^ UINTN_BITS;
  wf_live : LiveCount (Entries Dict) <= Count Dict;
  wf_empty : Capacity Dict = 0 -> Count Dict = 0
}.

(** ** Sequences of calls *)

Inductive DICT_CALL : Type :=
  | CallSet (key value : CK_VALUE)
  | CallRemove (key : CK_VALUE).

Section Calls.
Context {Equality : ValueEquality}.

Definition Call (State : CK_VM * CK_DICT) (Operation : DICT_CALL)
  : option (CK_VM * CK_DICT) :=
  match Operation with
  | CallSet key value => CkpDictSet (fst State) (snd State) key value
  | CallRemove key =>
      match CkpDictRemove (fst State) (snd State) key with
      | Some (Vm, Dict, _) => Some (Vm, Dict)
      | None => None
      end
  end.

Fixpoint Calls (State : CK_VM * CK_DICT) (Operations : list DICT_CALL)
  : option (CK_VM * CK_DICT) :=
  match Operations with
  | [] => Some State
  | Operation :: Operations =>
      match Call State Operation with
      | Some State => Calls State Operations
      | None => None
      end
  end.

End Calls.

(** The state after [Steps] calls: the dictionary is well-formed, Count is
    at most the number of calls and Capacity at most four times that (or
    the minimum capacity). *)
Definition RunInvariant (Steps : Z) (State : CK_VM * CK_DICT) : Prop :=
  DictWf (snd State)
  /\ Count (snd State) <= Steps
  /\ Capacity (snd State) <= Z.max DICT_MIN_CAPACITY (4 * Steps).

(** A VM whose allocations all succeed and in which no assertion failed. *)
Definition FreshVm : CK_VM :=
  {| Allocations := []; Roots := []; FailedAssertions := 0 |}.

(** The dictionary CkpDictCreate returns. *)
Definition NewDict : CK_DICT := {| Count := 0; Capacity := 0; Entries := [] |}.

(** ** A Value Equality to run the code with *)

#[global] Instance CK_STRING_OBJECT_eq_dec : EqDecision CK_STRING_OBJECT.
Proof. solve_decision. Defined.

#[global] Instance CK_OBJECT_eq_dec : EqDecision CK_OBJECT.
Proof. solve_decision. Defined.

#[global] Instance CK_VALUE_eq_dec : EqDecision CK_VALUE.
Proof. solve_decision. Defined.

(** Two values are equal when they are the same variant with the same
    payload; on integers every Value Equality of the runtime is this one. *)
Definition IdenticalValues : ValueEquality :=
  fun Left Right => bool_decide (Left = Right).

(** The integer keys 0 .. n-1. *)
Definition IntegerKeys (n : nat) : list CK_VALUE :=
  map (fun i => CkValueInteger (Z.of_nat i)) (seq 0 n).

(** Set every key (to itself), then remove every key. *)
Definition SetAll (Keys : list CK_VALUE) : list DICT_CALL :=
  map (fun key => CallSet key key) Keys.

Definition RemoveAll (Keys : list CK_VALUE) : list DICT_CALL :=
  map CallRemove Keys.

(** What the scenarios below observe of a state: the number of failed
    assertions, Count and Capacity. *)
Definition Observe (State : CK_VM * CK_DICT) : nat * Z * Z :=
  (FailedAssertions (fst State), Count (snd State), Capacity (snd State)).

(** An array of 16 slots with a Tombstone at slot 5 and nothing else. *)
Definition TombstoneAtHome : list CK_DICT_ENTRY :=
  <[5%nat := DeletedEntry]> (replicate 16 ZeroEntry).

(** The dictionary that set(5), set(21), remove(5) build: both keys hash to
    slot 5, key 21 was put at slot 6, and key 5 left its Tombstone. *)
Definition BehindTombstone : CK_DICT :=
  {| Count := 1; Capacity := 16;
     Entries := <[6%nat := {| Key := CkValueInteger 21;
                              Value := CkValueInteger 21 |}]> TombstoneAtHome |}.

(** A VM whose next allocation fails. *)
Definition ExhaustedVm : CK_VM :=
  {| Allocations := [false]; Roots := []; FailedAssertions := 0 |}.

(** ** Vocabulary of the further properties *)

(** The slot at [Index] is Live and holds the key. *)
Definition Holder `{ValueEquality} (Entries : list CK_DICT_ENTRY)
  (key : CK_VALUE) (Index : Z) (Entry : CK_DICT_ENTRY) : Prop :=
  ReadEntry Entries Index = Some Entry /\ HoldsKey key Entry = true.

(** No Live slot of the array holds the key. *)
Definition NoHolder `{ValueEquality} (Entries : list CK_DICT_ENTRY)
  (key : CK_VALUE) : Prop :=
  forall Index Entry,
    ReadEntry Entries Index = Some Entry -> HoldsKey key Entry = false.

(** The capacities the code ever installs: none, or 16 doubled some number
    of times. *)
Definition CapacityShape (Capacity : Z) : Prop :=
  Capacity = 0 \/ exists k : nat, Capacity = DICT_MIN_CAPACITY * 2 ^ Z.of_nat k.

(** The probe for [key] gets to the slot at [Index] without meeting an
    Empty slot on its way. *)
Definition Reaches (Entries : list CK_DICT_ENTRY) (Capacity : Z)
  (key : CK_VALUE) (Index : Z) : Prop :=
  exists j : nat,
    Z.of_nat j < Capacity
    /\ ProbeIndex (HomeIndex key Capacity) Capacity j = Index
    /\ SkipsUntil (fun Entry => negb (IsEmpty Entry)) Entries
         (HomeIndex key Capacity) Capacity j.

(** Every Live slot is reached by the probe for the key it holds. *)
Definition ProbeClosed (Entries : list CK_DICT_ENTRY) (Capacity : Z) : Prop :=
  forall Index Entry,
    ReadEntry Entries Index = Some Entry -> IsLive Entry = true ->
    Reaches Entries Capacity (Key Entry) Index.

(** No slot of the array is a Tombstone. *)
Definition NoTombstone (Entries : list CK_DICT_ENTRY) : Prop :=
  forall Index Entry,
    ReadEntry Entries Index = Some Entry -> IsTombstone Entry = false.

(** No two Live slots hold equal keys. *)
Definition DistinctKeys `{ValueEquality} (Entries : list CK_DICT_ENTRY)
  : Prop :=
  forall Left Right LeftEntry RightEntry,
    ReadEntry Entries Left = Some LeftEntry ->
    ReadEntry Entries Right = Some RightEntry ->
    IsLive LeftEntry = true -> IsLive RightEntry = true ->
    CkpAreValuesEqual (Key LeftEntry) (Key RightEntry) = true ->
    Left = Right.

(** What the dictionary assumes of the Value Equality: it is symmetric and
    transitive, and equal values hash alike. *)
Record EqualityLaws `{ValueEquality} : Prop := {
  equal_sym : forall a b,
    CkpAreValuesEqual a b = true -> CkpAreValuesEqual b a = true;
  equal_trans : forall a b c,
    CkpAreValuesEqual a b = true -> CkpAreValuesEqual b c = true ->
    CkpAreValuesEqual a c = true;
  equal_hash : forall a b,
    CkpAreValuesEqual a b = true -> CkpHashValue a = CkpHashValue b
}.

(** The keys of the CallSet operations of a run are proper values, not the
    Undefined sentinel. *)
Definition DefinedKey (Operation : DICT_CALL) : Prop :=
  match Operation with
  | CallSet key _ => CK_IS_UNDEFINED key = false
  | CallRemove _ => True
  end.

(** What a lookup needs of a dictionary to stay inside its array, and to
    know from Count alone that no slot is Live. *)
Definition Searchable (Dict : CK_DICT) : Prop :=
  0 <= Capacity Dict < 2 ^ UINTN_BITS
  /\ Z.of_nat (length (Entries Dict)) = Capacity Dict
  /\ LiveCount (Entries Dict) <= Count Dict
  /\ (Capacity Dict = 0 -> Count Dict = 0).

(** A Live entry stored in some slot of the array. *)
Definition LiveEntry (Entries : list CK_DICT_ENTRY) (Entry : CK_DICT_ENTRY)
  : Prop :=
  IsLive Entry = true /\ exists Index, ReadEntry Entries Index = Some Entry.

(** Two arrays store the same Live entries, wherever they put them. *)
Definition SameLiveEntries (Old New : list CK_DICT_ENTRY) : Prop :=
  forall Entry, LiveEntry Old Entry <-> LiveEntry New Entry.

(** What the re-insertion loop of CkpDictResize has built in [New] when it
    gets to slot [Index] of the old array: the Live entries of the slots
    before [Index], each once. *)
Definition ResizeInvariant `{ValueEquality} (Old : list CK_DICT_ENTRY)
  (Index NewCapacity : Z) (New : list CK_DICT_ENTRY) : Prop :=
  Z.of_nat (length New) = NewCapacity
  /\ DistinctKeys New
  /\ (forall Entry, LiveEntry New Entry ->
       exists k, 0 <= k < Index /\ ReadEntry Old k = Some Entry)
  /\ (forall k Entry, 0 <= k < Index -> ReadEntry Old k = Some Entry ->
       IsLive Entry = true -> LiveEntry New Entry)
  /\ LiveCount New <= LiveCount (take (Z.to_nat Index) Old).

(** One CallSet for each pair of a key and a value, in order. *)
Definition SetEach (Pairs : list (CK_VALUE * CK_VALUE)) : list DICT_CALL :=
  map (fun Pair => CallSet (fst Pair) (snd Pair)) Pairs.

(** The value of the last pair whose key is equal to [key]; [Current] when
    there is none. *)
Fixpoint LastValue `{ValueEquality} (Pairs : list (CK_VALUE * CK_VALUE))
  (key Current : CK_VALUE) : CK_VALUE :=
  match Pairs with
  | [] => Current
  | Pair :: Pairs =>
      LastValue Pairs key
        (if CkpAreValuesEqual (fst Pair) key then snd Pair else Current)
  end.

(** ** The core of the runtime *)

(** The status codes CkpInitializeCore returns (the other members of the
    enumeration are not used by this code). *)
Inductive CK_ERROR_TYPE : Type :=
  | CkSuccess
  | CkErrorNoMemory.

(** The Module collaborator (CkpModuleCreate is not among the source
    files): it returns the VM after the call and the new module object, or
    NULL. *)
Class ModuleCreation : Type :=
  CkpModuleCreate : CK_VM -> CK_VM * option CK_OBJECT.

(** [CkpInitializeCore]; [Modules] is the dictionary [Vm->Modules]. The
    module is registered under the key CK_NULL_VALUE, and CkSuccess is
    returned whatever CkpDictSet stored; where CkpDictSet is undefined
    (None, a division by zero), so is the call. *)
Definition CkpInitializeCore `{ValueEquality} `{ModuleCreation} (Vm : CK_VM)
  (Modules : CK_DICT) : option (CK_VM * CK_DICT * CK_ERROR_TYPE) :=
  let '(Vm, CoreModule) := CkpModuleCreate Vm in
  match CoreModule with
  | None => Some (Vm, Modules, CkErrorNoMemory)
  | Some CoreModule =>
      let Value := CkValueObject CoreModule in
      match CkpDictSet Vm Modules CK_NULL_VALUE Value with
      | None => None
      | Some (Vm, Modules) => Some (Vm, Modules, CkSuccess)
      end
  end.

(** A module creation that allocates the module object at a fixed address,
    with one CkAllocate call. *)
Definition OneAllocation : ModuleCreation :=
  fun Vm =>
    let '(Vm, Allocated) := CkAllocate Vm in
    (Vm, if Allocated then Some (CkObjectOther 4096) else None).

(** ** Dictionaries to run the further properties on *)

(** The dictionary that set(5, 5), set(21, 21) build: both keys hash to
    slot 5, and key 21 was put at slot 6. *)
Definition Collided : CK_DICT :=
  {| Count := 2; Capacity := 16;
     Entries :=
       <[6%nat := {| Key := CkValueInteger 21; Value := CkValueInteger 21 |}]>
         (<[5%nat := {| Key := CkValueInteger 5; Value := CkValueInteger 5 |}]>
            (replicate 16 ZeroEntry)) |}.

(** A table of 16 slots that holds the 16 keys 0 .. 15. *)
Definition FullTable : CK_DICT :=
  {| Count := 16; Capacity := 16;
     Entries := map (fun key => {| Key := key; Value := key |})
                  (IntegerKeys 16) |}.

(** A VM whose next allocation succeeds and whose second one fails. *)
Definition NearlyExhaustedVm : CK_VM :=
  {| Allocations := [true; false]; Roots := []; FailedAssertions := 0 |}.

(** The dictionary that sets of the 13 keys 0 .. 12 build: the thirteenth
    set grew the table to 32 slots, and each key is in the slot of its
    number. *)
Definition Grown : CK_DICT :=
  {| Count := 13; Capacity := 32;
     Entries := map (fun key => {| Key := key; Value := key |})
                  (IntegerKeys 13)
                ++ replicate 19 ZeroEntry |}.

(** ** Machine arithmetic *)

Lemma UINTN_cast_small x : 0 <= x < 2 ^ UINTN_BITS -> UINTN_cast x = x.
Proof. intros Hx. unfold UINTN_cast. by apply Z.mod_small. Qed.

Lemma UINTN_cast_range x : 0 <= UINTN_cast x < 2 ^ UINTN_BITS.
Proof. unfold UINTN_cast. apply Z.mod_pos_bound. reflexivity. Qed.

Lemma ULONG_cast_range x : 0 <= ULONG_cast x < 2 ^ ULONG_BITS.
Proof. unfold ULONG_cast. apply Z.mod_pos_bound. reflexivity. Qed.

(** ** Array accesses *)

Lemma ReadEntry_Some Entries Index Entry :
  ReadEntry Entries Index = Some Entry ->
  0 <= Index < Z.of_nat (length Entries).
Proof.
  unfold ReadEntry. destruct (Z.ltb_spec Index 0); [done|].
  intros HE%lookup_lt_Some. lia.
Qed.

Lemma ReadEntry_in_range Entries Index :
  0 <= Index < Z.of_nat (length Entries) ->
  exists Entry, ReadEntry Entries Index = Some Entry.
Proof.
  intros HI. unfold ReadEntry. destruct (Z.ltb_spec Index 0); [lia|].
  destruct (lookup_lt_is_Some_2 Entries (Z.to_nat Index)) as [Entry HE]; [lia|].
  eauto.
Qed.

Lemma WriteEntry_Some Entries Index Old New :
  ReadEntry Entries Index = Some Old ->
  WriteEntry Entries Index New = Some (<[Z.to_nat Index := New]> Entries).
Proof. intros HR. unfold WriteEntry. by rewrite HR. Qed.

Lemma ReadEntry_insert_eq Entries Index Old New :
  ReadEntry Entries Index = Some Old ->
  ReadEntry (<[Z.to_nat Index := New]> Entries) Index = Some New.
Proof.
  intros HR. pose proof (ReadEntry_Some _ _ _ HR) as HI.
  unfold ReadEntry. destruct (Z.ltb_spec Index 0); [lia|].
  apply list_lookup_insert_eq. lia.
Qed.

Lemma ReadEntry_insert_ne Entries Index Other New :
  0 <= Index -> 0 <= Other -> Index <> Other ->
  ReadEntry (<[Z.to_nat Index := New]> Entries) Other = ReadEntry Entries Other.
Proof.
  intros HI HO Hne. unfold ReadEntry. destruct (Z.ltb_spec Other 0); [done|].
  apply list_lookup_insert_ne. lia.
Qed.

(** ** The probe path *)

Lemma ProbeIndex_range Start Capacity Steps :
  0 < Capacity -> 0 <= ProbeIndex Start Capacity Steps < Capacity.
Proof. intros HC. unfold ProbeIndex. by apply Z.mod_pos_bound. Qed.

Lemma ProbeIndex_0 Start Capacity :
  0 <= Start < Capacity -> ProbeIndex Start Capacity 0 = Start.
Proof. intros HS. unfold ProbeIndex. rewrite Z.add_0_r. by apply Z.mod_small. Qed.

Lemma NextIndex_ProbeIndex Index Capacity :
  0 <= Index < Capacity -> Capacity < 2 ^ UINTN_BITS ->
  NextIndex Index Capacity = ProbeIndex Index Capacity 1.
Proof.
  intros HI HC. unfold NextIndex, ProbeIndex.
  rewrite UINTN_cast_small by lia. change (Z.of_nat 1) with 1.
  destruct (Z.eqb_spec (Index + 1) Capacity) as [->|Hne].
  - by rewrite Z.mod_same by lia.
  - rewrite Z.mod_small; lia.
Qed.

Lemma ProbeIndex_step Start Capacity Steps :
  0 < Capacity ->
  ProbeIndex (ProbeIndex Start Capacity 1) Capacity Steps
  = ProbeIndex Start Capacity (S Steps).
Proof.
  intros HC. unfold ProbeIndex. rewrite Zplus_mod_idemp_l.
  f_equal. lia.
Qed.

(** Two different steps of one probe look at different slots. *)
Lemma ProbeIndex_inj Start Capacity (i j : nat) :
  0 < Capacity -> Z.of_nat i < Capacity -> Z.of_nat j < Capacity ->
  ProbeIndex Start Capacity i = ProbeIndex Start Capacity j -> i = j.
Proof.
  intros HC Hi Hj. unfold ProbeIndex. intros Heq.
  assert (Hd : (Z.of_nat i - Z.of_nat j) mod Capacity = 0).
  { replace (Z.of_nat i - Z.of_nat j)
      with ((Start + Z.of_nat i) - (Start + Z.of_nat j)) by lia.
    rewrite Zminus_mod, Heq, Z.sub_diag. by apply Z.mod_0_l; lia. }
  apply Z.mod_divide in Hd; [|lia]. destruct Hd as [q Hq].
  assert (q = 0) by nia. lia.
Qed.

(** A probe of Capacity steps looks at every slot. *)
Lemma ProbeIndex_surj Start Capacity Index :
  0 <= Start < Capacity -> 0 <= Index < Capacity ->
  exists Steps : nat,
    Z.of_nat Steps < Capacity /\ ProbeIndex Start Capacity Steps = Index.
Proof.
  intros HS HI. exists (Z.to_nat ((Index - Start) mod Capacity)).
  pose proof (Z.mod_pos_bound (Index - Start) Capacity ltac:(lia)) as Hb.
  split; [lia|]. unfold ProbeIndex. rewrite Z2Nat.id by lia.
  rewrite Zplus_mod_idemp_r. replace (Start + (Index - Start)) with Index by lia.
  by apply Z.mod_small.
Qed.

(** ** The probe loops *)

Lemma SkipsUntil_tail Skips Entries Start Capacity Steps :
  0 < Capacity ->
  SkipsUntil Skips Entries Start Capacity (S Steps) ->
  SkipsUntil Skips Entries (ProbeIndex Start Capacity 1) Capacity Steps.
Proof.
  intros HC HS i Hi. rewrite ProbeIndex_step by done. apply HS. lia.
Qed.

(** Along a probe inside the array, either every slot is skipped or there
    is a first slot that is not. *)
Lemma first_stop Skips Entries Start Capacity (Steps : nat) :
  0 < Capacity -> Z.of_nat (length Entries) = Capacity ->
  SkipsUntil Skips Entries Start Capacity Steps
  \/ exists (j : nat) Entry, (j < Steps)%nat
       /\ SkipsUntil Skips Entries Start Capacity j
       /\ ReadEntry Entries (ProbeIndex Start Capacity j) = Some Entry
       /\ Skips Entry = false.
Proof.
  intros HC HL. induction Steps as [|n IH].
  - left. intros i Hi. lia.
  - destruct IH as [Hall|(j & Entry & Hj & Hbefore & HR & HS)].
    + destruct (ReadEntry_in_range Entries (ProbeIndex Start Capacity n))
        as [Entry HR].
      { pose proof (ProbeIndex_range Start Capacity n HC). lia. }
      destruct (Skips Entry) eqn:HS.
      * left. intros i Hi. destruct (decide (i = n)) as [->|Hne].
        -- eauto.
        -- apply Hall. lia.
      * right. exists n, Entry. split_and!; [lia|done..].
    + right. exists j, Entry. split_and!; [lia|done..].
Qed.

Section Loops.
Context {Equality : ValueEquality}.

Lemma FindSkips_false key Entry :
  FindSkips key Entry = false ->
  IsEmpty Entry = true \/ HoldsKey key Entry = true.
Proof.
  unfold FindSkips, IsTombstone, HoldsOtherKey, IsEmpty, HoldsKey, IsLive.
  destruct (CK_IS_UNDEFINED (Key Entry)), (CK_IS_UNDEFINED (Value Entry)),
    (CkpAreValuesEqual (Key Entry) key); simpl; auto; discriminate.
Qed.

Lemma HoldsOtherKey_false key Entry :
  HoldsOtherKey key Entry = false ->
  IsLive Entry = false \/ HoldsKey key Entry = true.
Proof.
  unfold HoldsOtherKey, HoldsKey, IsLive.
  destruct (CK_IS_UNDEFINED (Key Entry)),
    (CkpAreValuesEqual (Key Entry) key); simpl; auto; discriminate.
Qed.

(** *** CkpDictAddEntry *)

Lemma AddEntry_loop_skip Entries Capacity key value (j n : nat) Index :
  0 <= Index < Capacity -> Capacity < 2 ^ UINTN_BITS ->
  SkipsUntil (HoldsOtherKey key) Entries Index Capacity j ->
  CkpDictAddEntry_loop (j + n) Entries Capacity key value Index
  = CkpDictAddEntry_loop n Entries Capacity key value
      (ProbeIndex Index Capacity j).
Proof.
  intros HI HC. revert Index HI. induction j as [|j IH]; intros Index HI HS.
  - by rewrite ProbeIndex_0.
  - destruct (HS 0%nat) as (Entry & HR & Hskip); [lia|].
    rewrite ProbeIndex_0 in HR by done.
    apply andb_true_iff in Hskip as [Hlive Hother].
    apply negb_true_iff in Hlive, Hother.
    change (S j + n)%nat with (S (j + n)). simpl. rewrite HR. simpl.
    rewrite Hlive, Hother, NextIndex_ProbeIndex by done.
    rewrite IH.
    + by rewrite ProbeIndex_step by lia.
    + apply ProbeIndex_range. lia.
    + apply SkipsUntil_tail; [lia|done].
Qed.

Lemma AddEntry_loop_free Entries Capacity key value (n : nat) Index Entry :
  ReadEntry Entries Index = Some Entry -> IsLive Entry = false ->
  CkpDictAddEntry_loop (S n) Entries Capacity key value Index
  = Some (<[Z.to_nat Index := {| Key := key; Value := value |}]> Entries, true).
Proof.
  intros HR Hlive. apply negb_false_iff in Hlive. simpl. rewrite HR. simpl.
  rewrite Hlive. by rewrite (WriteEntry_Some _ _ Entry).
Qed.

Lemma AddEntry_loop_match Entries Capacity key value (n : nat) Index Entry :
  ReadEntry Entries Index = Some Entry -> HoldsKey key Entry = true ->
  CkpDictAddEntry_loop (S n) Entries Capacity key value Index
  = Some (<[Z.to_nat Index := {| Key := Key Entry; Value := value |}]> Entries,
          false).
Proof.
  intros HR [Hlive Heq]%andb_true_iff. apply negb_true_iff in Hlive.
  simpl. rewrite HR. simpl. rewrite Hlive, Heq.
  by rewrite (WriteEntry_Some _ _ Entry).
Qed.

Lemma HomeIndex_range key Capacity :
  0 < Capacity -> 0 <= HomeIndex key Capacity < Capacity.
Proof. intros HC. unfold HomeIndex. by apply Z.mod_pos_bound. Qed.

Lemma AddEntry_at Entries Capacity key value (j : nat) :
  0 < Capacity < 2 ^ UINTN_BITS -> Z.of_nat j < Capacity ->
  SkipsUntil (HoldsOtherKey key) Entries (HomeIndex key Capacity) Capacity j ->
  CkpDictAddEntry Entries Capacity key value
  = CkpDictAddEntry_loop (S (Z.to_nat Capacity - S j)) Entries Capacity
      key value (ProbeIndex (HomeIndex key Capacity) Capacity j).
Proof.
  intros HC Hj HS. unfold CkpDictAddEntry.
  destruct (Z.eqb_spec Capacity 0); [lia|].
  replace (Z.to_nat Capacity) with (j + S (Z.to_nat Capacity - S j))%nat
    at 1 by lia.
  apply AddEntry_loop_skip; [apply HomeIndex_range|..]; done || lia.
Qed.

(** CkpDictAddEntry on an array of Capacity slots is defined, and ends in
    one of the three ways. *)
Lemma AddEntry_outcome Entries Capacity key value :
  0 < Capacity < 2 ^ UINTN_BITS -> Z.of_nat (length Entries) = Capacity ->
  exists Result,
    CkpDictAddEntry Entries Capacity key value = Some Result
    /\ AddEntryOutcome Entries Capacity key value Result.
Proof.
  intros HC HL.
  destruct (first_stop (HoldsOtherKey key) Entries (HomeIndex key Capacity)
              Capacity (Z.to_nat Capacity)) as [Hall|(j & Old & Hj & HS & HR & Hstop)];
    [lia|done|..].
  - eexists. split; [|by apply TableFull].
    unfold CkpDictAddEntry. destruct (Z.eqb_spec Capacity 0); [lia|].
    replace (Z.to_nat Capacity) with (Z.to_nat Capacity + 0)%nat at 1 by lia.
    rewrite AddEntry_loop_skip; [done|apply HomeIndex_range; lia|lia|done].
  - rewrite (AddEntry_at _ _ _ _ j) by (done || lia).
    destruct (HoldsOtherKey_false _ _ Hstop) as [Hfree|Hmatch].
    + erewrite AddEntry_loop_free by done.
      eexists. split; [done|]. eapply AddedNew; [lia|done..].
    + erewrite AddEntry_loop_match by done.
      eexists. split; [done|]. eapply Replaced; [lia|done..].
Qed.

End Loops.

Section FindLoops.
Context {Equality : ValueEquality}.

(** *** CkpDictFindEntry *)

Lemma FindEntry_loop_skip Dict key (j n : nat) Index :
  0 <= Index < Capacity Dict -> Capacity Dict < 2 ^ UINTN_BITS ->
  SkipsUntil (FindSkips key) (Entries Dict) Index (Capacity Dict) j ->
  CkpDictFindEntry_loop (j + n) Dict key Index
  = CkpDictFindEntry_loop n Dict key (ProbeIndex Index (Capacity Dict) j).
Proof.
  intros HI HC. revert Index HI. induction j as [|j IH]; intros Index HI HS.
  - by rewrite ProbeIndex_0.
  - destruct (HS 0%nat) as (Entry & HR & Hskip); [lia|].
    rewrite ProbeIndex_0 in HR by done.
    change (S j + n)%nat with (S (j + n)). simpl. rewrite HR. simpl.
    assert (Hnext : CkpDictFindEntry_loop (j + n) Dict key
                      (NextIndex Index (Capacity Dict))
                    = CkpDictFindEntry_loop n Dict key
                        (ProbeIndex Index (Capacity Dict) (S j))).
    { rewrite NextIndex_ProbeIndex by done. rewrite IH.
      - by rewrite ProbeIndex_step by lia.
      - apply ProbeIndex_range. lia.
      - apply SkipsUntil_tail; [lia|done]. }
    unfold FindSkips, IsTombstone, HoldsOtherKey, IsLive in Hskip.
    destruct (CK_IS_UNDEFINED (Key Entry)), (CK_IS_UNDEFINED (Value Entry)),
      (CkpAreValuesEqual (Key Entry) key); simpl in Hskip;
      done || discriminate.
Qed.

Lemma FindEntry_loop_empty Dict key (n : nat) Index Entry :
  ReadEntry (Entries Dict) Index = Some Entry -> IsEmpty Entry = true ->
  CkpDictFindEntry_loop (S n) Dict key Index = Some NULL.
Proof.
  intros HR [HK HV]%andb_true_iff. simpl. rewrite HR. simpl. by rewrite HK, HV.
Qed.

Lemma FindEntry_loop_match Dict key (n : nat) Index Entry :
  ReadEntry (Entries Dict) Index = Some Entry -> HoldsKey key Entry = true ->
  CkpDictFindEntry_loop (S n) Dict key Index = Some (EntryAt Index).
Proof.
  intros HR [Hlive Heq]%andb_true_iff. apply negb_true_iff in Hlive.
  simpl. rewrite HR. simpl. by rewrite Hlive, Heq.
Qed.

Lemma FindEntry_at Dict key (j : nat) :
  Count Dict <> 0 -> 0 < Capacity Dict < 2 ^ UINTN_BITS ->
  Z.of_nat j < Capacity Dict ->
  SkipsUntil (FindSkips key) (Entries Dict) (HomeIndex key (Capacity Dict))
    (Capacity Dict) j ->
  CkpDictFindEntry Dict key
  = CkpDictFindEntry_loop (S (Z.to_nat (Capacity Dict) - S j)) Dict key
      (ProbeIndex (HomeIndex key (Capacity Dict)) (Capacity Dict) j).
Proof.
  intros HN HC Hj HS. unfold CkpDictFindEntry.
  destruct (Z.eqb_spec (Count Dict) 0); [done|].
  destruct (Z.eqb_spec (Capacity Dict) 0); [lia|].
  replace (Z.to_nat (Capacity Dict))
    with (j + S (Z.to_nat (Capacity Dict) - S j))%nat at 1 by lia.
  apply FindEntry_loop_skip; [apply HomeIndex_range|..]; done || lia.
Qed.

(** The probe ends at the first Live slot that holds the key. *)
Lemma FindEntry_found Dict key (j : nat) Entry :
  Count Dict <> 0 -> 0 < Capacity Dict < 2 ^ UINTN_BITS ->
  Z.of_nat j < Capacity Dict ->
  SkipsUntil (FindSkips key) (Entries Dict) (HomeIndex key (Capacity Dict))
    (Capacity Dict) j ->
  ReadEntry (Entries Dict)
    (ProbeIndex (HomeIndex key (Capacity Dict)) (Capacity Dict) j)
  = Some Entry ->
  HoldsKey key Entry = true ->
  CkpDictFindEntry Dict key
  = Some (EntryAt (ProbeIndex (HomeIndex key (Capacity Dict))
                     (Capacity Dict) j)).
Proof.
  intros HN HC Hj HS HR HK. rewrite (FindEntry_at _ _ j) by done.
  by eapply FindEntry_loop_match.
Qed.

(** The probe ends at the first Empty slot. *)
Lemma FindEntry_empty Dict key (j : nat) Entry :
  Count Dict <> 0 -> 0 < Capacity Dict < 2 ^ UINTN_BITS ->
  Z.of_nat j < Capacity Dict ->
  SkipsUntil (FindSkips key) (Entries Dict) (HomeIndex key (Capacity Dict))
    (Capacity Dict) j ->
  ReadEntry (Entries Dict)
    (ProbeIndex (HomeIndex key (Capacity Dict)) (Capacity Dict) j)
  = Some Entry ->
  IsEmpty Entry = true ->
  CkpDictFindEntry Dict key = Some NULL.
Proof.
  intros HN HC Hj HS HR HE. rewrite (FindEntry_at _ _ j) by done.
  by eapply FindEntry_loop_empty.
Qed.

(** The probe gives up after Capacity slots. *)
Lemma FindEntry_exhausted Dict key :
  0 < Capacity Dict < 2 ^ UINTN_BITS ->
  SkipsUntil (FindSkips key) (Entries Dict) (HomeIndex key (Capacity Dict))
    (Capacity Dict) (Z.to_nat (Capacity Dict)) ->
  CkpDictFindEntry Dict key = Some NULL.
Proof.
  intros HC HS. unfold CkpDictFindEntry.
  destruct (Z.eqb_spec (Count Dict) 0); [done|].
  destruct (Z.eqb_spec (Capacity Dict) 0); [lia|].
  replace (Z.to_nat (Capacity Dict))
    with (Z.to_nat (Capacity Dict) + 0)%nat at 1 by lia.
  rewrite FindEntry_loop_skip; [done|apply HomeIndex_range; lia|lia|done].
Qed.

(** On a dictionary whose array has Capacity slots, CkpDictFindEntry stays
    inside the array, and what it returns is the first slot on the probe
    path that holds the key, with no Empty slot before it. *)
Lemma FindEntry_defined Dict key :
  0 <= Capacity Dict < 2 ^ UINTN_BITS ->
  Z.of_nat (length (Entries Dict)) = Capacity Dict ->
  (Capacity Dict = 0 -> Count Dict = 0) ->
  CkpDictFindEntry Dict key = Some NULL
  \/ exists (j : nat) Entry,
       Z.of_nat j < Capacity Dict
       /\ Count Dict <> 0
       /\ SkipsUntil (FindSkips key) (Entries Dict)
            (HomeIndex key (Capacity Dict)) (Capacity Dict) j
       /\ ReadEntry (Entries Dict)
            (ProbeIndex (HomeIndex key (Capacity Dict)) (Capacity Dict) j)
          = Some Entry
       /\ HoldsKey key Entry = true
       /\ CkpDictFindEntry Dict key
          = Some (EntryAt (ProbeIndex (HomeIndex key (Capacity Dict))
                             (Capacity Dict) j)).
Proof.
  intros HC HL HZ.
  destruct (Z.eq_dec (Count Dict) 0) as [H0|HN].
  { left. unfold CkpDictFindEntry. by rewrite H0. }
  assert (Capacity Dict <> 0) as HCN by (intros H0; by apply HN, HZ).
  destruct (first_stop (FindSkips key) (Entries Dict)
              (HomeIndex key (Capacity Dict)) (Capacity Dict)
              (Z.to_nat (Capacity Dict)))
    as [Hall|(j & Entry & Hj & HS & HR & Hstop)]; [lia|done|..].
  - left. apply FindEntry_exhausted; [lia|done].
  - destruct (FindSkips_false _ _ Hstop) as [Hempty|Hmatch].
    + left. eapply (FindEntry_empty _ _ j); done || lia.
    + right. exists j, Entry. split_and!; try done; try lia.
      eapply FindEntry_found; done || lia.
Qed.

End FindLoops.

(** ** Counting the Live slots *)

Lemma LiveCount_nil : LiveCount [] = 0.
Proof. done. Qed.

Lemma LiveCount_cons Entry Entries :
  LiveCount (Entry :: Entries)
  = (if IsLive Entry then 1 else 0) + LiveCount Entries.
Proof.
  unfold LiveCount. rewrite filter_cons.
  destruct (IsLive Entry) eqn:HL.
  - rewrite decide_True by done. simpl. lia.
  - rewrite decide_False by (by intros ?). lia.
Qed.

Lemma LiveCount_app Left Right :
  LiveCount (Left ++ Right) = LiveCount Left + LiveCount Right.
Proof.
  induction Left as [|Entry Left IH]; [done|].
  simpl. rewrite !LiveCount_cons, IH. lia.
Qed.

Lemma LiveCount_range Entries :
  0 <= LiveCount Entries <= Z.of_nat (length Entries).
Proof.
  induction Entries as [|Entry Entries IH]; [done|].
  rewrite LiveCount_cons. simpl length. destruct (IsLive Entry); lia.
Qed.

Lemma LiveCount_replicate (n : nat) : LiveCount (replicate n ZeroEntry) = 0.
Proof.
  induction n as [|n IH]; [done|]. simpl. by rewrite LiveCount_cons, IH.
Qed.

Lemma LiveCount_insert Entries (i : nat) Old New :
  Entries !! i = Some Old ->
  LiveCount (<[i := New]> Entries)
  = LiveCount Entries - (if IsLive Old then 1 else 0)
    + (if IsLive New then 1 else 0).
Proof.
  intros HO. pose proof (lookup_lt_Some _ _ _ HO) as Hi.
  rewrite insert_take_drop by done.
  rewrite <- (take_drop_middle Entries i Old HO) at 3.
  rewrite !LiveCount_app, !LiveCount_cons. lia.
Qed.

(** An array that is not all Live has a slot whose Key is UNDEFINED. *)
Lemma LiveCount_free_slot Entries :
  LiveCount Entries < Z.of_nat (length Entries) ->
  exists (i : nat) Entry, Entries !! i = Some Entry /\ IsLive Entry = false.
Proof.
  induction Entries as [|Entry Entries IH]; simpl length.
  - rewrite LiveCount_nil. lia.
  - rewrite LiveCount_cons. destruct (IsLive Entry) eqn:HL.
    + intros Hlt. destruct IH as (i & Free & Hi & HF); [lia|].
      by exists (S i), Free.
    + intros _. by exists 0%nat, Entry.
Qed.

Lemma LiveCount_live_slot Entries (i : nat) Entry :
  Entries !! i = Some Entry -> IsLive Entry = true -> 1 <= LiveCount Entries.
Proof.
  intros HE HL. rewrite <- (take_drop_middle Entries i Entry HE).
  rewrite LiveCount_app, LiveCount_cons, HL.
  pose proof (LiveCount_range (take i Entries)).
  pose proof (LiveCount_range (drop (S i) Entries)). lia.
Qed.

Lemma ReadEntry_lookup Entries Index Entry :
  ReadEntry Entries Index = Some Entry -> Entries !! Z.to_nat Index = Some Entry.
Proof. unfold ReadEntry. by destruct (Index <? 0). Qed.

Section Effects.
Context {Equality : ValueEquality}.

(** CkpDictAddEntry keeps the size of the array; it never takes a Live
    slot away, and adds one at most, and only when it returns TRUE. *)
Lemma AddEntryOutcome_effect Entries Capacity key value Result :
  AddEntryOutcome Entries Capacity key value Result ->
  length (fst Result) = length Entries
  /\ LiveCount Entries <= LiveCount (fst Result)
     <= LiveCount Entries + (if snd Result then 1 else 0).
Proof.
  intros [j Old Hj HS HR HL|j Old Hj HS HR HM|HS]; simpl.
  - split; [by rewrite length_insert|].
    rewrite (LiveCount_insert _ _ Old) by by apply ReadEntry_lookup.
    rewrite HL. destruct (IsLive {| Key := key; Value := value |}); lia.
  - split; [by rewrite length_insert|].
    rewrite (LiveCount_insert _ _ Old) by by apply ReadEntry_lookup.
    apply andb_true_iff in HM as [HL _]. rewrite HL.
    unfold IsLive in *. simpl. rewrite HL. lia.
  - split; [done|lia].
Qed.

(** A table with a slot whose Key is UNDEFINED is never found full. *)
Lemma not_TableFull Entries Capacity key :
  0 < Capacity -> Z.of_nat (length Entries) = Capacity ->
  LiveCount Entries < Capacity ->
  ~ SkipsUntil (HoldsOtherKey key) Entries (HomeIndex key Capacity) Capacity
      (Z.to_nat Capacity).
Proof.
  intros HC HL Hlive HS.
  destruct (LiveCount_free_slot Entries) as (i & Free & Hi & HF); [lia|].
  pose proof (lookup_lt_Some _ _ _ Hi) as Hlt.
  destruct (ProbeIndex_surj (HomeIndex key Capacity) Capacity (Z.of_nat i))
    as (j & Hj & Hp); [by apply HomeIndex_range|lia|].
  destruct (HS j) as (Entry & HR & Hskip); [lia|].
  rewrite Hp in HR. apply ReadEntry_lookup in HR.
  rewrite Nat2Z.id in HR. rewrite Hi in HR. injection HR as <-.
  apply andb_true_iff in Hskip as [Hlive' _]. congruence.
Qed.

End Effects.

(** ** The allocator *)

Lemma CK_ASSERT_Allocations Vm Condition :
  Allocations (CK_ASSERT Vm Condition) = Allocations Vm.
Proof. by destruct Condition. Qed.

Lemma CkAllocate_succeeds Vm :
  NoAllocationFailure Vm ->
  snd (CkAllocate Vm) = true /\ NoAllocationFailure (fst (CkAllocate Vm)).
Proof.
  unfold NoAllocationFailure, CkAllocate. intros HA.
  destruct (Allocations Vm) as [|Success Rest] eqn:HV; simpl.
  - by rewrite HV.
  - by inversion HA.
Qed.

Lemma CkAllocate_FailedAssertions Vm :
  FailedAssertions (fst (CkAllocate Vm)) = FailedAssertions Vm.
Proof. unfold CkAllocate. by destruct (Allocations Vm). Qed.

Section Resize.
Context {Equality : ValueEquality}.

(** The re-insertion loop stays inside both arrays, keeps the size of the
    new one, and adds at most one Live slot for each Live slot it reads. *)
Lemma Resize_loop_defined Dict NewCapacity (Loop : nat) :
  0 < NewCapacity < 2 ^ UINTN_BITS ->
  forall Index NewEntries,
    0 <= Index ->
    (Z.to_nat Index + Loop <= length (Entries Dict))%nat ->
    Z.of_nat (length NewEntries) = NewCapacity ->
    exists Result,
      CkpDictResize_loop Loop Dict Index NewEntries NewCapacity = Some Result
      /\ Z.of_nat (length Result) = NewCapacity
      /\ LiveCount Result
         <= LiveCount NewEntries
            + LiveCount (drop (Z.to_nat Index) (Entries Dict)).
Proof.
  intros HN. induction Loop as [|Loop IH]; intros Index NewEntries HI HL HS.
  - exists NewEntries. split_and!; [done..|].
    pose proof (LiveCount_range (drop (Z.to_nat Index) (Entries Dict))). lia.
  - destruct (ReadEntry_in_range (Entries Dict) Index) as [OldEntry HR]; [lia|].
    pose proof (ReadEntry_lookup _ _ _ HR) as Hlook.
    simpl. rewrite HR. simpl.
    rewrite (drop_S _ _ _ Hlook), LiveCount_cons.
    unfold IsLive. destruct (CK_IS_UNDEFINED (Key OldEntry)) eqn:HK; simpl.
    + destruct (IH (Index + 1) NewEntries) as (Result & HRes & HLen & HLive);
        [lia|lia|done|].
      replace (Z.to_nat (Index + 1)) with (S (Z.to_nat Index)) in HLive by lia.
      exists Result. split_and!; [done..|lia].
    + destruct (AddEntry_outcome NewEntries NewCapacity (Key OldEntry)
                  (Value OldEntry)) as (Added & HAdd & HOut); [done..|].
      destruct (AddEntryOutcome_effect _ _ _ _ _ HOut) as [HLen1 HLive1].
      rewrite HAdd. simpl.
      destruct (IH (Index + 1) (fst Added)) as (Result & HRes & HLen & HLive);
        [lia|lia|lia|].
      replace (Z.to_nat (Index + 1)) with (S (Z.to_nat Index)) in HLive by lia.
      exists Result. split_and!; [done..|].
      destruct (snd Added); lia.
Qed.

(** What a call of CkpDictResize does to a dictionary whose array has
    Capacity slots: nothing when the allocation fails, and otherwise it
    installs an array of NewCapacity slots with no more Live slots than
    the old one. Count never changes. *)
Lemma Resize_defined Vm Dict NewCapacity :
  0 < NewCapacity < 2 ^ UINTN_BITS ->
  0 <= Capacity Dict ->
  Z.of_nat (length (Entries Dict)) = Capacity Dict ->
  exists Vm' Dict',
    CkpDictResize Vm Dict NewCapacity = Some (Vm', Dict')
    /\ Count Dict' = Count Dict
    /\ Roots Vm' = Roots Vm
    /\ (NoAllocationFailure Vm -> NoAllocationFailure Vm')
    /\ (Dict' = Dict
        \/ Capacity Dict' = NewCapacity
           /\ Z.of_nat (length (Entries Dict')) = NewCapacity
           /\ LiveCount (Entries Dict') <= LiveCount (Entries Dict))
    /\ (NoAllocationFailure Vm ->
        Capacity Dict' = NewCapacity
        /\ Z.of_nat (length (Entries Dict')) = NewCapacity
        /\ LiveCount (Entries Dict') <= LiveCount (Entries Dict)).
Proof.
  intros HN HC HL. unfold CkpDictResize.
  set (Vm1 := CK_ASSERT Vm (Count Dict <? NewCapacity)).
  assert (HR1 : Roots Vm1 = Roots Vm) by (subst Vm1; by destruct (_ <? _)).
  assert (HA1 : Allocations Vm1 = Allocations Vm)
    by apply CK_ASSERT_Allocations.
  destruct (Resize_loop_defined Dict NewCapacity (Z.to_nat (Capacity Dict)) HN
              0 (replicate (Z.to_nat NewCapacity) ZeroEntry))
    as (Result & HRes & HLen & HLive); [done|simpl; lia| |].
  { rewrite length_replicate. lia. }
  rewrite LiveCount_replicate in HLive. simpl in HLive. rewrite drop_0 in HLive.
  destruct (CkAllocate Vm1) as [Vm2 Allocated] eqn:HAlloc.
  assert (HR2 : Roots Vm2 = Roots Vm).
  { revert HAlloc. unfold CkAllocate.
    destruct (Allocations Vm1); intros [= <- <-]; done. }
  assert (HA2 : NoAllocationFailure Vm -> NoAllocationFailure Vm2 /\ Allocated = true).
  { intros HNo. assert (HNo1 : NoAllocationFailure Vm1)
      by (unfold NoAllocationFailure; by rewrite HA1).
    destruct (CkAllocate_succeeds _ HNo1) as [HS HF].
    rewrite HAlloc in HS, HF. done. }
  destruct Allocated; simpl.
  - rewrite HRes. simpl. eexists _, _. split; [done|]. simpl.
    split_and!; [done|done|by intros [? _]%HA2|right; split_and!; [done|done|lia]|].
    intros _. split_and!; [done|done|lia].
  - eexists _, _. split; [done|].
    split_and!; [done|done|by intros [? _]%HA2|by left|].
    intros [_ [=]]%HA2.
Qed.

(** The only assertion of the dictionary code is the one of CkpDictResize:
    a call leaves the count of failed assertions alone exactly when
    NewCapacity is above Count. *)
Lemma Resize_FailedAssertions Vm Dict NewCapacity Vm' Dict' :
  CkpDictResize Vm Dict NewCapacity = Some (Vm', Dict') ->
  FailedAssertions Vm'
  = if Count Dict <? NewCapacity then FailedAssertions Vm
    else S (FailedAssertions Vm).
Proof.
  unfold CkpDictResize. intros HRes.
  pose proof (CkAllocate_FailedAssertions
                (CK_ASSERT Vm (Count Dict <? NewCapacity))) as HFA.
  destruct (CkAllocate _) as [Vm2 Allocated]. simpl in HFA.
  assert (Vm' = Vm2) as ->.
  { destruct Allocated; simpl in HRes; [|by injection HRes].
    destruct (CkpDictResize_loop _ _ _ _ _); simpl in HRes; [|done].
    by injection HRes. }
  rewrite HFA. by destruct (Count Dict <? NewCapacity).
Qed.

End Resize.

(** ** Set, then Get *)

Ltac unfold_constants :=
  unfold DICT_LOAD_FACTOR, DICT_GROW_FACTOR, DICT_SHRINK_FACTOR,
    DICT_MIN_CAPACITY in *;
  change (2 ^ UINTN_BITS) with 18446744073709551616 in *.

Section SetGet.
Context {Equality : ValueEquality}.

(** The array CkpDictSet inserts into, after the growth check: it has a
    slot whose Key is UNDEFINED. *)
Lemma Set_grows Vm Dict :
  DictWf Dict -> NoAllocationFailure Vm ->
  exists Vm1 Dict1,
    (if UINTN_cast (Capacity Dict * DICT_LOAD_FACTOR) / 1024
          <? UINTN_cast (Count Dict + 1) then
       let NewCapacity := UINTN_cast (Capacity Dict * DICT_GROW_FACTOR) in
       let NewCapacity :=
         if NewCapacity <? DICT_MIN_CAPACITY then DICT_MIN_CAPACITY
         else NewCapacity in
       CkpDictResize Vm Dict NewCapacity
     else Some (Vm, Dict)) = Some (Vm1, Dict1)
    /\ NoAllocationFailure Vm1
    /\ Count Dict1 = Count Dict
    /\ 0 < Capacity Dict1 /\ Capacity Dict1 * 512 < 2 ^ UINTN_BITS
    /\ Z.of_nat (length (Entries Dict1)) = Capacity Dict1
    /\ LiveCount (Entries Dict1) < Capacity Dict1
    /\ LiveCount (Entries Dict1) <= Count Dict
    /\ (Capacity Dict1 = Capacity Dict
          /\ Count Dict + 1 <= Capacity Dict * DICT_LOAD_FACTOR / 1024
        \/ Capacity Dict1 = Z.max (Capacity Dict * DICT_GROW_FACTOR)
                              DICT_MIN_CAPACITY).
Proof.
  intros [HLen [HC0 HC1] [HN0 HN1] HLive HEmpty] HNo.
  assert (HLen' : Z.of_nat (length (Entries Dict)) = Capacity Dict) by lia.
  pose proof (LiveCount_range (Entries Dict)) as HLR.
  unfold_constants.
  rewrite (UINTN_cast_small (Capacity Dict * 768)) by (unfold_constants; lia).
  rewrite (UINTN_cast_small (Count Dict + 1)) by (unfold_constants; lia).
  rewrite (UINTN_cast_small (Capacity Dict * 2)) by (unfold_constants; lia).
  assert (HT : Capacity Dict * 768 / 1024 <= Capacity Dict)
    by (apply Z.div_le_upper_bound; lia).
  destruct (Z.ltb_spec (Capacity Dict * 768 / 1024) (Count Dict + 1)) as [Hgrow|Hfits].
  - set (NewCapacity := if Capacity Dict * 2 <? 16 then 16 else Capacity Dict * 2).
    assert (HNew : 16 <= NewCapacity /\ Capacity Dict * 2 <= NewCapacity
                   /\ NewCapacity * 512 < 18446744073709551616).
    { subst NewCapacity. destruct (Z.ltb_spec (Capacity Dict * 2) 16); lia. }
    destruct (Resize_defined Vm Dict NewCapacity)
      as (Vm1 & Dict1 & HRes & HCount & _ & HNo1 & _ & HNew1);
      [unfold_constants; lia|done..|].
    destruct (HNew1 HNo) as (HCap1 & HLen1 & HLive1).
    exists Vm1, Dict1. simpl. rewrite HCap1.
    split_and!; [done|by apply HNo1|done|lia|lia|done|lia|lia|].
    right. subst NewCapacity. destruct (Z.ltb_spec (Capacity Dict * 2) 16); lia.
  - exists Vm, Dict. split_and!; [done|done|done|lia|lia|done|lia|done|].
    left. split; [done|lia].
Qed.

(** Stepping over Live slots with other keys is what both loops do. *)
Lemma SkipsUntil_Find_insert Entries Start Capacity (j : nat) key New :
  0 < Capacity -> Z.of_nat j < Capacity ->
  SkipsUntil (HoldsOtherKey key) Entries Start Capacity j ->
  SkipsUntil (FindSkips key)
    (<[Z.to_nat (ProbeIndex Start Capacity j) := New]> Entries)
    Start Capacity j.
Proof.
  intros HC Hj HS i Hi. destruct (HS i Hi) as (Entry & HR & Hskip).
  exists Entry. split.
  - rewrite ReadEntry_insert_ne; [done|apply ProbeIndex_range; lia..|].
    intros Heq. apply ProbeIndex_inj in Heq; lia.
  - unfold FindSkips. rewrite Hskip. apply orb_true_r.
Qed.

(** CkpDictSet keeps a dictionary well-formed, as long as the new
    capacity and count stay in the range where the arithmetic does not
    wrap. *)
Lemma Set_preserves_DictWf Vm Dict key value Vm' Dict' :
  DictWf Dict ->
  CkpDictSet Vm Dict key value = Some (Vm', Dict') ->
  Capacity Dict' * 1024 < 2 ^ UINTN_BITS ->
  Count Dict' + 1 < 2 ^ UINTN_BITS ->
  DictWf Dict'.
Proof.
  intros [HLen [HC0 HC1] [HN0 HN1] HLive HEmpty] HSet HC' HN'.
  unfold CkpDictSet in HSet.
  assert (HG : exists Vm1 Dict1,
             (if UINTN_cast (Capacity Dict * DICT_LOAD_FACTOR) / 1024
                   <? UINTN_cast (Count Dict + 1) then
                CkpDictResize Vm Dict
                  (if UINTN_cast (Capacity Dict * DICT_GROW_FACTOR)
                        <? DICT_MIN_CAPACITY then DICT_MIN_CAPACITY
                   else UINTN_cast (Capacity Dict * DICT_GROW_FACTOR))
              else Some (Vm, Dict)) = Some (Vm1, Dict1)
             /\ Count Dict1 = Count Dict
             /\ 0 <= Capacity Dict1
             /\ Z.of_nat (length (Entries Dict1)) = Capacity Dict1
             /\ LiveCount (Entries Dict1) <= Count Dict).
  { destruct (_ <? UINTN_cast (Count Dict + 1)).
    - set (NewCapacity := if _ <? _ then _ else _).
      assert (0 < NewCapacity < 2 ^ UINTN_BITS) as HNew.
      { subst NewCapacity. pose proof (UINTN_cast_range (Capacity Dict * DICT_GROW_FACTOR)).
        unfold_constants. destruct (Z.ltb_spec (UINTN_cast (Capacity Dict * 2)) 16); lia. }
      destruct (Resize_defined Vm Dict NewCapacity HNew)
        as (Vm1 & Dict1 & HRes & HCount & _ & _ & HCases & _); [done|lia|].
      exists Vm1, Dict1. split; [done|]. split; [done|].
      destruct HCases as [->|(HCap & HLen1 & HLive1)]; [split_and!; lia|].
      split_and!; lia.
    - exists Vm, Dict. split_and!; [done|done|done|lia|done]. }
  destruct HG as (Vm1 & Dict1 & HGrow & HCount & HCap0 & HLen1 & HLive1).
  rewrite HGrow in HSet.
  destruct (Z.eq_dec (Capacity Dict1) 0) as [H0|H0].
  { unfold CkpDictAddEntry in HSet. by rewrite H0 in HSet. }
  destruct (CkpDictAddEntry _ _ _ _) as [[NewEntries New]|] eqn:HAdd; [|done].
  injection HSet as <- <-. simpl in *.
  assert (HCap : 0 < Capacity Dict1 < 2 ^ UINTN_BITS) by (unfold_constants; lia).
  destruct (AddEntry_outcome (Entries Dict1) (Capacity Dict1) key value HCap HLen1)
    as (Result & HAdd' & HOut).
  rewrite HAdd in HAdd'. injection HAdd' as <-.
  destruct (AddEntryOutcome_effect _ _ _ _ _ HOut) as [HLen2 HLive2].
  simpl in *. rewrite HCount in *.
  rewrite UINTN_cast_small in * by (unfold_constants; lia).
  constructor; simpl.
  - lia.
  - lia.
  - destruct New; lia.
  - destruct New; lia.
  - lia.
Qed.

End SetGet.

(** ** Remove *)

Section Remove.
Context {Equality : ValueEquality}.

(** The shrink condition is defined wherever the arithmetic does not wrap,
    and holds exactly when the table is above the minimum capacity and the
    quotient is not 0. *)
Lemma ShrinkCondition_defined Dict :
  0 <= Capacity Dict -> Capacity Dict * 1024 < 2 ^ UINTN_BITS ->
  ShrinkCondition Dict
  = Some ((DICT_MIN_CAPACITY <? Capacity Dict)
          && negb (Count Dict
                   / (Capacity Dict / DICT_SHRINK_FACTOR * DICT_LOAD_FACTOR
                      / 1024) =? 0)).
Proof.
  intros HC0 HC1. unfold ShrinkCondition. unfold_constants.
  destruct (Z.ltb_spec 16 (Capacity Dict)) as [Hbig|Hsmall]; [|done].
  assert (H3 : 5 <= Capacity Dict / 3) by (apply Z.div_le_lower_bound; lia).
  assert (H3' : Capacity Dict / 3 <= Capacity Dict)
    by (apply Z.div_le_upper_bound; lia).
  rewrite UINTN_cast_small by (unfold_constants; lia).
  assert (3 <= Capacity Dict / 3 * 768 / 1024)
    by (apply Z.div_le_lower_bound; lia).
  destruct (Z.eqb_spec (Capacity Dict / 3 * 768 / 1024) 0); [lia|done].
Qed.

Lemma ShrunkCapacity_range Dict :
  0 <= Capacity Dict < 2 ^ UINTN_BITS ->
  0 < ShrunkCapacity Dict < 2 ^ UINTN_BITS.
Proof.
  intros HC. unfold ShrunkCapacity. unfold_constants.
  assert (Capacity Dict / 2 <= Capacity Dict)
    by (apply Z.div_le_upper_bound; lia).
  destruct (Z.ltb_spec (Capacity Dict / 2) 16); lia.
Qed.

(** Turning a Live slot into a Tombstone and taking one off Count keeps
    the dictionary well-formed. *)
Lemma Tombstone_DictWf Dict Index Entry :
  DictWf Dict -> Count Dict <> 0 ->
  ReadEntry (Entries Dict) Index = Some Entry -> IsLive Entry = true ->
  DictWf {| Count := Count Dict - 1; Capacity := Capacity Dict;
            Entries := <[Z.to_nat Index := DeletedEntry]> (Entries Dict) |}.
Proof.
  intros [HLen [HC0 HC1] [HN0 HN1] HLive HEmpty] HCount HR HL.
  constructor; cbn [Count Capacity Entries].
  - by rewrite length_insert.
  - done.
  - lia.
  - rewrite (LiveCount_insert _ _ Entry) by by apply ReadEntry_lookup.
    rewrite HL. change (IsLive DeletedEntry) with false. cbv iota. lia.
  - intros H0. by apply HEmpty in H0.
Qed.

(** CkpDictResize keeps the dictionary well-formed. *)
Lemma Resize_DictWf Vm Dict NewCapacity Vm' Dict' :
  DictWf Dict ->
  0 < NewCapacity -> NewCapacity * 1024 < 2 ^ UINTN_BITS ->
  CkpDictResize Vm Dict NewCapacity = Some (Vm', Dict') ->
  DictWf Dict'.
Proof.
  intros HWf HN0 HN1 HRes.
  pose proof HWf as [HLen [HC0 HC1] [HC2 HC3] HLive HEmpty].
  destruct (Resize_defined Vm Dict NewCapacity)
    as (Vm2 & Dict2 & HRes2 & HCount & _ & _ & HCases & _);
    [unfold_constants; lia|done|lia|].
  rewrite HRes in HRes2. injection HRes2 as <- <-.
  destruct HCases as [->|(HCap & HLen2 & HLive2)]; [done|].
  constructor; rewrite ?HCap, ?HCount; [lia|lia|done|lia|lia].
Qed.

(** The capacity the shrink path asks for is max(Capacity / 2, 16). *)
Lemma ShrunkCapacity_max Dict :
  ShrunkCapacity Dict
  = Z.max (Capacity Dict / DICT_GROW_FACTOR) DICT_MIN_CAPACITY.
Proof.
  unfold ShrunkCapacity. unfold_constants.
  destruct (Z.ltb_spec (Capacity Dict / 2) 16); lia.
Qed.

(** CkpDictRemove of a key that CkpDictFindEntry does not find. *)
Lemma Remove_absent Vm Dict key :
  CkpDictFindEntry Dict key = Some NULL ->
  CkpDictRemove Vm Dict key = Some (Vm, Dict, CK_NULL_VALUE).
Proof. intros HF. unfold CkpDictRemove. by rewrite HF. Qed.

(** CkpDictRemove of a key that CkpDictFindEntry finds: the slot becomes a
    Tombstone, Count goes down by one, and the table is then either left
    alone or handed to CkpDictResize. *)
Lemma Remove_present Vm Dict key Index Entry :
  DictWf Dict ->
  CkpDictFindEntry Dict key = Some (EntryAt Index) ->
  ReadEntry (Entries Dict) Index = Some Entry ->
  exists Vm' Dict',
    CkpDictRemove Vm Dict key = Some (Vm', Dict', Value Entry)
    /\ Count Dict' = Count Dict - 1
    /\ Roots Vm' = Roots Vm
    /\ (Capacity Dict' = Capacity Dict ->
        Entries Dict' = <[Z.to_nat Index := DeletedEntry]> (Entries Dict))
    /\ (IsLive Entry = true -> DictWf Dict')
    /\ Capacity Dict' <= Capacity Dict
    /\ (NoAllocationFailure Vm -> NoAllocationFailure Vm')
    /\ (FailedAssertions Vm <= FailedAssertions Vm')%nat
    /\ (FailedAssertions Vm' = FailedAssertions Vm ->
        Count Dict <= Capacity Dict -> Count Dict' <= Capacity Dict').
Proof.
  intros HWf HF HR.
  pose proof HWf as [HLen [HC0 HC1] [HN0 HN1] HLive HEmpty].
  assert (HCount : Count Dict <> 0).
  { intros H0. unfold CkpDictFindEntry in HF. by rewrite H0 in HF. }
  unfold CkpDictRemove. rewrite HF. simpl. rewrite HR. simpl.
  rewrite (WriteEntry_Some _ _ Entry) by done. simpl.
  rewrite UINTN_cast_small by (unfold_constants; lia).
  set (Dict1 := {| Count := Count Dict - 1; Capacity := Capacity Dict;
                   Entries := <[Z.to_nat Index := DeletedEntry]> (Entries Dict) |}).
  rewrite (ShrinkCondition_defined Dict1) by done.
  destruct (_ && _) eqn:HShrink.
  - pose proof (ShrunkCapacity_range Dict1) as HSC. simpl in HSC.
    destruct (Z.eqb_spec (ShrunkCapacity Dict1) (Capacity Dict)) as [Hsame|Hdiff];
      simpl.
    + eexists _, _. split; [done|].
      split_and!; [done| |done| |done| | |simpl; lia].
      * destruct (Value Entry); simpl; try done.
      * intros HL. by eapply Tombstone_DictWf.
      * destruct (Value Entry); simpl; try done.
      * destruct (Value Entry); simpl; try done.
    + set (Vm1 := match Value Entry with
                  | CkValueObject Object => CkpPushRoot Vm Object
                  | _ => Vm
                  end).
      assert (HVm1 : Allocations Vm1 = Allocations Vm
                     /\ FailedAssertions Vm1 = FailedAssertions Vm)
        by (subst Vm1; by destruct (Value Entry)).
      destruct HVm1 as [HA1 HFA1].
      apply andb_true_iff in HShrink as [HBig _]. apply Z.ltb_lt in HBig.
      change (Capacity Dict1) with (Capacity Dict) in HBig.
      assert (HSmaller : ShrunkCapacity Dict1 <= Capacity Dict).
      { unfold ShrunkCapacity. simpl. unfold_constants.
        assert (Capacity Dict / 2 <= Capacity Dict)
          by (apply Z.div_le_upper_bound; lia).
        destruct (Z.ltb_spec (Capacity Dict / 2) 16); lia. }
      destruct (Resize_defined Vm1 Dict1 (ShrunkCapacity Dict1))
        as (Vm2 & Dict2 & HRes & HCount2 & HRoots2 & HNo2 & HCases & _).
      { apply HSC. unfold_constants. lia. }
      { done. }
      { simpl. rewrite length_insert. lia. }
      rewrite HRes. eexists _, _. split; [done|]. split_and!.
      * by rewrite HCount2.
      * subst Vm1. destruct (Value Entry); simpl; try done.
        by rewrite HRoots2.
      * destruct HCases as [->|(HCap2 & _)]; [done|].
        intros Heq. simpl in Hdiff. congruence.
      * intros HL. eapply (Resize_DictWf Vm1 Dict1); [|..|done].
        -- by eapply Tombstone_DictWf.
        -- apply HSC. unfold_constants. lia.
        -- unfold_constants. lia.
      * destruct HCases as [->|(HCap2 & _)]; simpl; lia.
      * intros HNo. assert (NoAllocationFailure Vm2) as HNo2'.
        { apply HNo2. unfold NoAllocationFailure. by rewrite HA1. }
        unfold NoAllocationFailure in *. by destruct (CK_IS_OBJECT _).
      * assert (FailedAssertions Vm1 <= FailedAssertions Vm2)%nat.
        { rewrite (Resize_FailedAssertions _ _ _ _ _ HRes).
          destruct (Count Dict1 <? ShrunkCapacity Dict1); lia. }
        destruct (CK_IS_OBJECT _); simpl; lia.
      * intros HSame HFits.
        assert (FailedAssertions Vm2 = FailedAssertions Vm1) as HHeld
          by (destruct (CK_IS_OBJECT _); simpl in HSame; lia).
        rewrite (Resize_FailedAssertions _ _ _ _ _ HRes) in HHeld.
        destruct (Z.ltb_spec (Count Dict1) (ShrunkCapacity Dict1)); [|lia].
        rewrite HCount2.
        destruct HCases as [->|(HCap2 & _)]; simpl in *; lia.
  - eexists _, _. split; [done|]. split_and!; [done..| |done|done|lia|simpl; lia].
    intros HL. by eapply Tombstone_DictWf.
Qed.

(** CkpDictRemove keeps a dictionary well-formed. *)
Lemma Remove_preserves_DictWf Vm Dict key Vm' Dict' value :
  DictWf Dict ->
  CkpDictRemove Vm Dict key = Some (Vm', Dict', value) ->
  DictWf Dict'.
Proof.
  intros HWf HRem. pose proof HWf as [HLen [HC0 HC1] _ _ HEmpty].
  destruct (FindEntry_defined Dict key)
    as [HNull|(j & Entry & Hj & _ & _ & HR & HK & HF)];
    [unfold_constants; lia|lia|done|..].
  - rewrite (Remove_absent _ _ _ HNull) in HRem. by injection HRem as <- <- <-.
  - destruct (Remove_present Vm Dict key _ Entry HWf HF HR)
      as (Vm2 & Dict2 & HRem2 & _ & _ & _ & HWf2 & _).
    rewrite HRem in HRem2. injection HRem2 as <- <- _.
    apply HWf2. by apply andb_true_iff in HK as [HL _].
Qed.

(** A removal that leaves the capacity alone leaves every other slot
    alone, so a key that was found is still found, at the same slot: the
    probe walks on through the Tombstone. *)
Lemma Find_after_Remove Vm Dict removed key Vm' Dict' value Index :
  DictWf Dict ->
  CkpDictFindEntry Dict key = Some (EntryAt Index) ->
  CkpDictFindEntry Dict removed <> Some (EntryAt Index) ->
  CkpDictRemove Vm Dict removed = Some (Vm', Dict', value) ->
  Capacity Dict' = Capacity Dict ->
  CkpDictFindEntry Dict' key = Some (EntryAt Index).
Proof.
  intros HWf HF HOther HRem HCap.
  pose proof HWf as [HLen [HC0 HC1] [HN0 HN1] HLive HEmpty].
  assert (HC : 0 <= Capacity Dict < 2 ^ UINTN_BITS) by (unfold_constants; lia).
  assert (HLen' : Z.of_nat (length (Entries Dict)) = Capacity Dict) by lia.
  destruct (FindEntry_defined Dict removed HC HLen' HEmpty)
    as [HNull|(jr & Gone & Hjr & _ & _ & HRr & HKr & HFr)].
  { rewrite (Remove_absent _ _ _ HNull) in HRem. by injection HRem as <- <- <-. }
  set (Removed := ProbeIndex (HomeIndex removed (Capacity Dict))
                    (Capacity Dict) jr) in *.
  destruct (Remove_present Vm Dict removed Removed Gone HWf HFr HRr)
    as (Vm2 & Dict2 & HRem2 & HCount2 & _ & HEntries2 & _).
  rewrite HRem in HRem2. injection HRem2 as <- <- _.
  specialize (HEntries2 HCap).
  destruct (FindEntry_defined Dict key HC HLen' HEmpty)
    as [HNull|(j & Found & Hj & HCount & HS & HR & HK & HF')]; [congruence|].
  rewrite HF in HF'. injection HF' as ->.
  assert (HNe : Removed <> ProbeIndex (HomeIndex key (Capacity Dict))
                            (Capacity Dict) j) by congruence.
  assert (HRange : 0 <= Removed < Capacity Dict)
    by (apply ProbeIndex_range; lia).
  assert (HFound : ReadEntry (Entries Dict')
                     (ProbeIndex (HomeIndex key (Capacity Dict))
                        (Capacity Dict) j) = Some Found).
  { rewrite HEntries2, ReadEntry_insert_ne; [done|lia| |done].
    apply ProbeIndex_range. lia. }
  rewrite <- HCap. apply (FindEntry_found Dict' key j Found).
  - (* Count: two Live slots before, one after *)
    rewrite HCount2.
    assert (1 <= LiveCount (Entries Dict')).
    { apply andb_true_iff in HK as [HL _].
      eapply LiveCount_live_slot; [by apply ReadEntry_lookup|done]. }
    rewrite HEntries2 in H.
    rewrite (LiveCount_insert _ _ Gone) in H by by apply ReadEntry_lookup.
    apply andb_true_iff in HKr as [HLr _]. rewrite HLr in H.
    change (IsLive DeletedEntry) with false in H. lia.
  - rewrite HCap. unfold_constants. lia.
  - lia.
  - rewrite HCap. intros i Hi. destruct (HS i Hi) as (Entry & HRi & Hskip).
    destruct (Z.eq_dec Removed
                (ProbeIndex (HomeIndex key (Capacity Dict)) (Capacity Dict) i))
      as [Heq|Hneq].
    + exists DeletedEntry. split; [|done].
      rewrite HEntries2, <- Heq. by eapply ReadEntry_insert_eq.
    + exists Entry. split; [|done].
      rewrite HEntries2, ReadEntry_insert_ne; [done|lia| |done].
      apply ProbeIndex_range. lia.
  - by rewrite HCap.
  - done.
Qed.

End Remove.

(** ** Runs of calls *)

Section Runs.
Context {Equality : ValueEquality}.

(** What CkpDictSet does to Count and Capacity. *)
Lemma Set_shape Vm Dict key value Vm' Dict' :
  DictWf Dict ->
  CkpDictSet Vm Dict key value = Some (Vm', Dict') ->
  Count Dict <= Count Dict' <= Count Dict + 1
  /\ (Capacity Dict' = Capacity Dict
      \/ Capacity Dict' = Z.max (Capacity Dict * DICT_GROW_FACTOR)
                            DICT_MIN_CAPACITY
         /\ Capacity Dict * DICT_LOAD_FACTOR / 1024 < Count Dict + 1)
  /\ (FailedAssertions Vm <= FailedAssertions Vm')%nat.
Proof.
  intros [HLen [HC0 HC1] [HN0 HN1] HLive HEmpty] HSet.
  unfold CkpDictSet in HSet. revert HSet. unfold_constants.
  rewrite (UINTN_cast_small (Capacity Dict * 768)) by (unfold_constants; lia).
  rewrite (UINTN_cast_small (Count Dict + 1)) by (unfold_constants; lia).
  rewrite (UINTN_cast_small (Capacity Dict * 2)) by (unfold_constants; lia).
  intros HSet.
  assert (HG : exists Vm1 Dict1,
             (if Capacity Dict * 768 / 1024 <? Count Dict + 1 then
                CkpDictResize Vm Dict
                  (if Capacity Dict * 2 <? 16 then 16 else Capacity Dict * 2)
              else Some (Vm, Dict)) = Some (Vm1, Dict1)
             /\ Count Dict1 = Count Dict
             /\ (Capacity Dict1 = Capacity Dict
                 \/ Capacity Dict1 = Z.max (Capacity Dict * 2) 16
                    /\ Capacity Dict * 768 / 1024 < Count Dict + 1)
             /\ (FailedAssertions Vm <= FailedAssertions Vm1)%nat).
  { destruct (Z.ltb_spec (Capacity Dict * 768 / 1024) (Count Dict + 1)).
    - set (NewCapacity := if _ <? _ then _ else _) in *.
      assert (NewCapacity = Z.max (Capacity Dict * 2) 16) as HMax.
      { subst NewCapacity. destruct (Z.ltb_spec (Capacity Dict * 2) 16); lia. }
      destruct (Resize_defined Vm Dict NewCapacity)
        as (Vm1 & Dict1 & HRes & HCount & _ & _ & HCases & _);
        [unfold_constants; lia|done|lia|].
      exists Vm1, Dict1. split_and!; [done|done| |].
      + destruct HCases as [->|(HCap & _)]; [by left|right; lia].
      + rewrite (Resize_FailedAssertions _ _ _ _ _ HRes).
        destruct (Count Dict <? NewCapacity); lia.
    - exists Vm, Dict. split_and!; [done|done|by left|lia]. }
  destruct HG as (Vm1 & Dict1 & HGrow & HCount & HCap & HFA).
  rewrite HGrow in HSet.
  destruct (CkpDictAddEntry _ _ _ _) as [[NewEntries New]|]; [|done].
  injection HSet as <- <-. simpl. rewrite HCount.
  rewrite UINTN_cast_small by (unfold_constants; lia).
  split_and!; [destruct New; lia..|done|done].
Qed.

(** From a state with Count <= Capacity, and with an allocator that does
    not fail, CkpDictSet ends within the load factor. *)
Lemma Set_within_load_factor Vm Dict key value :
  DictWf Dict -> NoAllocationFailure Vm ->
  Count Dict <= Capacity Dict ->
  exists Vm' Dict',
    CkpDictSet Vm Dict key value = Some (Vm', Dict')
    /\ NoAllocationFailure Vm'
    /\ Count Dict' <= Capacity Dict' * DICT_LOAD_FACTOR / 1024.
Proof.
  intros HWf HNo HFits.
  destruct (Set_grows Vm Dict HWf HNo)
    as (Vm1 & Dict1 & HGrow & HNo1 & HCount & HC0 & HC1 & HLen & _ & _ & HCap).
  destruct HWf as [_ [HD0 HD1] [HN0 HN1] _ HEmpty].
  assert (HRange : 0 < Capacity Dict1 < 2 ^ UINTN_BITS)
    by (unfold_constants; lia).
  unfold CkpDictSet. cbv zeta in HGrow. rewrite HGrow.
  destruct (AddEntry_outcome (Entries Dict1) (Capacity Dict1) key value)
    as ([NewEntries New] & HAdd & _); [done..|].
  rewrite HAdd. eexists _, _. split; [done|]. split; [done|]. simpl.
  rewrite HCount, UINTN_cast_small by lia.
  assert (Count Dict + 1 <= Capacity Dict1 * DICT_LOAD_FACTOR / 1024);
    [|destruct New; lia].
  unfold_constants. destruct HCap as [[HSame HT] | HNew].
  - rewrite HSame. done.
  - rewrite HNew.
    apply Z.div_le_lower_bound; lia.
Qed.

(** With an allocator that does not fail, CkpDictSet is defined on every
    well-formed dictionary. *)
Lemma Set_defined Vm Dict key value :
  DictWf Dict -> NoAllocationFailure Vm ->
  exists Result, CkpDictSet Vm Dict key value = Some Result.
Proof.
  intros HWf HNo.
  destruct (Set_grows Vm Dict HWf HNo)
    as (Vm1 & Dict1 & HGrow & _ & _ & HC0 & HC1 & HLen & _).
  destruct (AddEntry_outcome (Entries Dict1) (Capacity Dict1) key value)
    as ([NewEntries New] & HAdd & _); [unfold_constants; lia|done|].
  unfold CkpDictSet. cbv zeta in HGrow. rewrite HGrow, HAdd. by eexists.
Qed.

Lemma Calls_app State Before After :
  Calls State (Before ++ After)
  = match Calls State Before with
    | Some State => Calls State After
    | None => None
    end.
Proof.
  revert State. induction Before as [|Operation Before IH]; intros State;
    simpl; [done|].
  by destruct (Call State Operation).
Qed.

(** What CkpDictRemove does to Count, Capacity, the allocator and the
    assertions: the table never gets bigger, and as long as no assertion
    fails Count stays within the capacity. *)
Lemma Remove_shape Vm Dict key Vm' Dict' value :
  DictWf Dict ->
  CkpDictRemove Vm Dict key = Some (Vm', Dict', value) ->
  DictWf Dict'
  /\ Count Dict' <= Count Dict
  /\ Capacity Dict' <= Capacity Dict
  /\ (NoAllocationFailure Vm -> NoAllocationFailure Vm')
  /\ (FailedAssertions Vm <= FailedAssertions Vm')%nat
  /\ (FailedAssertions Vm' = FailedAssertions Vm ->
      Count Dict <= Capacity Dict -> Count Dict' <= Capacity Dict').
Proof.
  intros HWf HRem. pose proof HWf as [HLen [HC0 HC1] _ _ HEmpty].
  destruct (FindEntry_defined Dict key)
    as [HNull|(j & Entry & Hj & _ & _ & HR & HK & HF)];
    [unfold_constants; lia|lia|done|..].
  - rewrite (Remove_absent _ _ _ HNull) in HRem. injection HRem as <- <- <-.
    split_and!; done || lia.
  - destruct (Remove_present Vm Dict key _ Entry HWf HF HR)
      as (Vm2 & Dict2 & HRem2 & HCount & _ & _ & HWf2 & HCap & HNo & HFA & HFit).
    rewrite HRem in HRem2. injection HRem2 as <- <- _.
    apply andb_true_iff in HK as [HL _].
    split_and!; [by apply HWf2|lia|done..].
Qed.

(** CkpDictRemove is defined on every well-formed dictionary. *)
Lemma Remove_defined Vm Dict key :
  DictWf Dict -> exists Result, CkpDictRemove Vm Dict key = Some Result.
Proof.
  intros HWf. pose proof HWf as [HLen [HC0 HC1] _ _ HEmpty].
  destruct (FindEntry_defined Dict key)
    as [HNull|(j & Entry & Hj & _ & _ & HR & HK & HF)];
    [unfold_constants; lia|lia|done|..].
  - eexists. by apply Remove_absent.
  - destruct (Remove_present Vm Dict key _ Entry HWf HF HR)
      as (Vm2 & Dict2 & HRem2 & _). by eexists.
Qed.

Lemma Call_RunInvariant Steps State Operation State' :
  0 <= Steps -> (Steps + 1) * 4096 < 2 ^ UINTN_BITS ->
  RunInvariant Steps State ->
  Call State Operation = Some State' ->
  RunInvariant (Steps + 1) State'
  /\ (FailedAssertions (fst State) <= FailedAssertions (fst State'))%nat.
Proof.
  intros HS0 HS1 (HWf & HCount & HCap) HCall.
  destruct State as [Vm Dict], State' as [Vm' Dict'], Operation as [key value|key];
    simpl in *.
  - destruct (Set_shape _ _ _ _ _ _ HWf HCall) as (HCount' & HCap' & HFA).
    assert (HNewCap : Capacity Dict' <= Z.max DICT_MIN_CAPACITY (4 * (Steps + 1))).
    { unfold_constants. destruct HCap' as [->|[-> HGrow]]; [lia|].
      assert (Capacity Dict * 768 / 1024 <= Steps) by lia.
      assert (Capacity Dict * 768 < 1024 * (Steps + 1)); [|lia].
      pose proof (Z.mul_succ_div_gt (Capacity Dict * 768) 1024). lia. }
    split; [|done]. unfold RunInvariant. simpl. split_and!; [|lia|done].
    eapply Set_preserves_DictWf; [done..| |]; unfold_constants; lia.
  - destruct (CkpDictRemove Vm Dict key) as [[[Vm2 Dict2] value]|] eqn:HRem;
      [|done].
    injection HCall as <- <-.
    destruct (Remove_shape _ _ _ _ _ _ HWf HRem)
      as (HWf' & HCount' & HCap' & _ & HFA & _).
    split; [|done]. unfold RunInvariant. simpl. split_and!; [done|lia|lia].
Qed.

(** Every dictionary that a sequence of calls builds from the empty one is
    well-formed, whatever the allocator does (up to 2^52 calls, where
    the arithmetic on Capacity could start to wrap). *)
Lemma Calls_RunInvariant Operations : forall Steps State State',
  0 <= Steps ->
  (Steps + Z.of_nat (length Operations)) * 4096 < 2 ^ UINTN_BITS ->
  RunInvariant Steps State ->
  Calls State Operations = Some State' ->
  RunInvariant (Steps + Z.of_nat (length Operations)) State'
  /\ (FailedAssertions (fst State) <= FailedAssertions (fst State'))%nat.
Proof.
  induction Operations as [|Operation Operations IH];
    intros Steps State State' HS0 HS1 HInv HCalls.
  - injection HCalls as <-. simpl. by rewrite Z.add_0_r.
  - change (length (Operation :: Operations)) with (S (length Operations)) in *.
    rewrite Nat2Z.inj_succ in *. simpl in HCalls.
    destruct (Call State Operation) as [State1|] eqn:HCall; [|done].
    destruct (Call_RunInvariant Steps State Operation State1) as [HInv1 HFA1];
      [lia|lia|done..|].
    destruct (IH (Steps + 1) State1 State') as [HInv' HFA']; [lia|lia|done..|].
    split; [|lia].
    by replace (Steps + Z.succ (Z.of_nat (length Operations)))
      with (Steps + 1 + Z.of_nat (length Operations)) by lia.
Qed.

Lemma NewDict_RunInvariant Vm : RunInvariant 0 (Vm, NewDict).
Proof.
  split_and!; simpl; [|lia|unfold_constants; lia].
  constructor; simpl; unfold_constants; done || lia.
Qed.

(** X15: every dictionary that a sequence of sets and removals builds from
    CkpDictCreate's is well-formed, with or without allocation failures. *)
Lemma Calls_DictWf Vm Operations Vm' Dict' :
  Z.of_nat (length Operations) * 4096 < 2 ^ UINTN_BITS ->
  Calls (Vm, NewDict) Operations = Some (Vm', Dict') ->
  DictWf Dict'.
Proof.
  intros HLen HCalls.
  by destruct (Calls_RunInvariant Operations 0 (Vm, NewDict) (Vm', Dict'))
    as [[HWf _] _]; [lia|lia|apply NewDict_RunInvariant|done|].
Qed.

(** With an allocator that does not fail, a sequence of calls never runs
    into undefined behaviour, and as long as no assertion fails Count stays
    within the capacity. *)
Lemma Calls_checked Operations : forall Steps State,
  0 <= Steps ->
  (Steps + Z.of_nat (length Operations)) * 4096 < 2 ^ UINTN_BITS ->
  RunInvariant Steps State ->
  NoAllocationFailure (fst State) ->
  exists State',
    Calls State Operations = Some State'
    /\ NoAllocationFailure (fst State')
    /\ (FailedAssertions (fst State') = FailedAssertions (fst State) ->
        Count (snd State) <= Capacity (snd State) ->
        Count (snd State') <= Capacity (snd State')).
Proof.
  induction Operations as [|Operation Operations IH];
    intros Steps State HS0 HS1 HInv HNo.
  - by exists State.
  - change (length (Operation :: Operations)) with (S (length Operations)) in *.
    rewrite Nat2Z.inj_succ in *.
    assert (HStep : exists State1,
              Call State Operation = Some State1
              /\ NoAllocationFailure (fst State1)
              /\ (FailedAssertions (fst State1) = FailedAssertions (fst State) ->
                  Count (snd State) <= Capacity (snd State) ->
                  Count (snd State1) <= Capacity (snd State1))).
    { destruct HInv as (HWf & _). destruct State as [Vm Dict]; simpl in *.
      destruct Operation as [key value|key]; simpl.
      - destruct (Set_grows Vm Dict HWf HNo)
          as (Vm1 & Dict1 & HGrow & HNo1 & _ & HC0 & HC1 & HLen & _).
        destruct (AddEntry_outcome (Entries Dict1) (Capacity Dict1) key value)
          as ([NewEntries New] & HAdd & _); [unfold_constants; lia|done|].
        unfold CkpDictSet. cbv zeta in HGrow. rewrite HGrow, HAdd.
        eexists. split; [done|]. split; [done|]. simpl. intros _ HFits.
        destruct (Set_within_load_factor Vm Dict key value HWf HNo HFits)
          as (Vm2 & Dict2 & HSet & _ & HLoad).
        unfold CkpDictSet in HSet. rewrite HGrow, HAdd in HSet.
        injection HSet as <- <-. simpl in HLoad.
        assert (Capacity Dict1 * DICT_LOAD_FACTOR / 1024 <= Capacity Dict1);
          [|lia].
        unfold_constants. apply Z.div_le_upper_bound; lia.
      - destruct (Remove_defined Vm Dict key HWf) as [[[Vm2 Dict2] value] HRem].
        rewrite HRem. eexists. split; [done|].
        destruct (Remove_shape _ _ _ _ _ _ HWf HRem)
          as (_ & _ & _ & HNo2 & _ & HFit).
        split; [by apply HNo2|done]. }
    destruct HStep as (State1 & HCall & HNo1 & HFit1). simpl. rewrite HCall.
    destruct (Call_RunInvariant Steps State Operation State1) as [HInv1 HFA1];
      [lia|lia|done..|].
    destruct (IH (Steps + 1) State1) as (State' & HCalls & HNo' & HFit');
      [lia|lia|done..|].
    exists State'. split; [done|]. split; [done|].
    intros HSame HFits.
    destruct (Calls_RunInvariant Operations (Steps + 1) State1 State')
      as [_ HFA']; [lia|lia|done..|].
    apply HFit'; [lia|]. apply HFit1; [lia|done].
Qed.

(** X16: in a run from the empty dictionary in which the allocator does not
    fail and no assertion fails, the load factor bound holds after every
    CkpDictSet. *)
Lemma checked_Set_within_load_factor Vm Operations key value :
  NoAllocationFailure Vm ->
  (Z.of_nat (length Operations) + 1) * 4096 < 2 ^ UINTN_BITS ->
  exists Vm' Dict',
    Calls (Vm, NewDict) (Operations ++ [CallSet key value]) = Some (Vm', Dict')
    /\ (FailedAssertions Vm' = FailedAssertions Vm ->
        Count Dict' <= Capacity Dict' * DICT_LOAD_FACTOR / 1024).
Proof.
  intros HNo HLen.
  destruct (Calls_checked Operations 0 (Vm, NewDict))
    as ([Vm1 Dict1] & HCalls & HNo1 & HFit1);
    [lia|lia|apply NewDict_RunInvariant|done|]. simpl in *.
  destruct (Calls_RunInvariant Operations 0 (Vm, NewDict) (Vm1, Dict1))
    as [(HWf1 & _) HFA1]; [lia|lia|apply NewDict_RunInvariant|done|].
  simpl in *. rewrite Calls_app, HCalls. simpl.
  destruct (Set_defined Vm1 Dict1 key value HWf1 HNo1) as ([Vm' Dict'] & HSet).
  rewrite HSet. exists Vm', Dict'. split; [done|]. intros HSame.
  destruct (Set_shape _ _ _ _ _ _ HWf1 HSet) as (_ & _ & HFA').
  destruct (Set_within_load_factor Vm1 Dict1 key value HWf1 HNo1)
    as (Vm2 & Dict2 & HSet2 & _ & HLoad); [apply HFit1; lia|].
  rewrite HSet in HSet2. by injection HSet2 as <- <-.
Qed.

End Runs.

(** ** Hashing *)

Lemma ULONG_cast_low_bits x : ULONG_cast x = Z.land x (Z.ones ULONG_BITS).
Proof. unfold ULONG_cast. by rewrite Z.land_ones. Qed.

Lemma lxor_range a b n :
  0 < n -> 0 <= a < 2 ^ n -> 0 <= b < 2 ^ n -> 0 <= Z.lxor a b < 2 ^ n.
Proof.
  intros Hn Ha Hb.
  assert (H0 : 0 <= Z.lxor a b) by (apply Z.lxor_nonneg; lia).
  split; [done|].
  destruct (Z.eq_dec (Z.lxor a b) 0) as [->|Hne]; [lia|].
  apply Z.log2_lt_pow2; [lia|].
  pose proof (Z.log2_lxor a b ltac:(lia) ltac:(lia)) as Hlog.
  assert (Z.log2 a < n).
  { destruct (Z.eq_dec a 0) as [->|]; [done|]. apply Z.log2_lt_pow2; lia. }
  assert (Z.log2 b < n).
  { destruct (Z.eq_dec b 0) as [->|]; [done|]. apply Z.log2_lt_pow2; lia. }
  lia.
Qed.

Lemma CkpHashObject_range Object : 0 <= CkpHashObject Object < 2 ^ ULONG_BITS.
Proof.
  destruct Object; simpl; try apply ULONG_cast_range.
  apply lxor_range; [done|apply ULONG_cast_range..].
Qed.

Lemma CkpHashValue_range value : 0 <= CkpHashValue value < 2 ^ ULONG_BITS.
Proof.
  destruct value; simpl; try done.
  - apply ULONG_cast_range.
  - apply CkpHashObject_range.
Qed.

(** C10: the hash is defined on every value and is a 32-bit number; Null
    hashes to 0; an Integer hashes to its low 32 bits, so that -1 hashes to
    0xFFFFFFFF and not to the hash of Null; a Class hashes to the cached
    hash of its name string, as that string does; a Range hashes to the XOR
    of the low 32 bits of its two bounds; any other object hashes to its
    address shifted right by 4, as a ULONG (for an address below 2^36 no
    bit is cut off). *)
Theorem CkpHashValue_dispatch :
  (forall value, 0 <= CkpHashValue value < 2 ^ 32)
  /\ CkpHashValue CkValueNull = 0
  /\ (forall Integer,
        CkpHashValue (CkValueInteger Integer) = Z.land Integer (Z.ones 32))
  /\ CkpHashValue (CkValueInteger (-1)) = 0xFFFFFFFF
  /\ CkpHashValue (CkValueInteger (-1)) <> CkpHashValue CkValueNull
  /\ (forall Address Name,
        CkpHashValue (CkValueObject (CkObjectClass Address Name))
        = CkpHashValue (CkValueObject (CkObjectString Name))
        /\ CkpHashValue (CkValueObject (CkObjectClass Address Name))
           = ULONG_cast (Hash Name))
  /\ (forall Address From To,
        CkpHashValue (CkValueObject (CkObjectRange Address From To))
        = Z.lxor (Z.land From (Z.ones 32)) (Z.land To (Z.ones 32)))
  /\ (forall Address,
        CkpHashValue (CkValueObject (CkObjectOther Address))
        = ULONG_cast (Z.shiftr (UINTN_cast Address) 4))
  /\ (forall Address,
        0 <= Address < 2 ^ 36 ->
        CkpHashValue (CkValueObject (CkObjectOther Address))
        = Z.shiftr Address 4).
Proof.
  split_and!.
  - apply CkpHashValue_range.
  - done.
  - intros Integer. simpl. apply ULONG_cast_low_bits.
  - done.
  - done.
  - done.
  - intros Address From To. simpl. by rewrite !ULONG_cast_low_bits.
  - done.
  - intros Address HA. simpl.
    rewrite UINTN_cast_small by (unfold_constants; lia).
    unfold ULONG_cast. apply Z.mod_small. rewrite Z.shiftr_div_pow2 by lia.
    split; [apply Z.div_pos; lia|].
    apply Z.div_lt_upper_bound; [lia|]. change (2 ^ 4 * 2 ^ ULONG_BITS) with (2 ^ 36). lia.
Qed.

Lemma CkpHashValue_dispatch_witness :
  0 <= 4096 < 2 ^ 36
  /\ CkpHashValue (CkValueObject (CkObjectOther 4096)) = Z.shiftr 4096 4.
Proof.
  split; [lia|].
  apply (proj2 (proj2 (proj2 (proj2 (proj2 (proj2 (proj2 (proj2
           CkpHashValue_dispatch)))))))). lia.
Defined.

(** ** The claims about the dictionary *)

Section Claims.
Context {Equality : ValueEquality}.

(** C2, as amended: on an array of Capacity slots, CkpDictAddEntry of a key
    that no Live slot of the array holds writes the key and the value into
    the first slot of the probe path whose Key is UNDEFINED, be it Empty or
    a Tombstone, and returns TRUE; and if the probe reaches a Live slot
    that holds the key before any slot whose Key is UNDEFINED, it
    overwrites the value of that slot and returns FALSE. *)
Theorem AddEntry_first_undefined_key Entries Capacity key value
  (j : nat) Old :
  0 < Capacity < 2 ^ UINTN_BITS ->
  Z.of_nat (length Entries) = Capacity ->
  Z.of_nat j < Capacity ->
  ReadEntry Entries (ProbeIndex (HomeIndex key Capacity) Capacity j)
  = Some Old ->
  ((forall (i : nat) Entry,
      Entries !! i = Some Entry -> HoldsKey key Entry = false) ->
   SkipsUntil IsLive Entries (HomeIndex key Capacity) Capacity j ->
   IsLive Old = false ->
   CkpDictAddEntry Entries Capacity key value
   = Some (<[Z.to_nat (ProbeIndex (HomeIndex key Capacity) Capacity j)
               := {| Key := key; Value := value |}]> Entries, true))
  /\ (SkipsUntil (HoldsOtherKey key) Entries (HomeIndex key Capacity)
        Capacity j ->
      HoldsKey key Old = true ->
      CkpDictAddEntry Entries Capacity key value
      = Some (<[Z.to_nat (ProbeIndex (HomeIndex key Capacity) Capacity j)
                  := {| Key := Key Old; Value := value |}]> Entries, false)).
Proof.
  intros HC HL Hj HR. split.
  - intros HAbsent HLive HFree.
    assert (HS : SkipsUntil (HoldsOtherKey key) Entries
                   (HomeIndex key Capacity) Capacity j).
    { intros i Hi. destruct (HLive i Hi) as (Entry & HRi & HLi).
      exists Entry. split; [done|].
      pose proof (HAbsent _ _ (ReadEntry_lookup _ _ _ HRi)) as HA.
      unfold HoldsKey in HA. unfold HoldsOtherKey. rewrite HLi in *.
      simpl in *. by rewrite HA. }
    rewrite (AddEntry_at _ _ _ _ j) by done.
    by eapply AddEntry_loop_free.
  - intros HS HM. rewrite (AddEntry_at _ _ _ _ j) by done.
    by eapply AddEntry_loop_match.
Qed.

(** C6: after CkpDictSet of a key (a key is not the Undefined sentinel, and
    is equal to itself) in a well-formed dictionary, with no allocation
    failure, CkpDictGet of the key returns the value that was set. *)
Theorem Set_then_Get Vm Dict key value :
  DictWf Dict -> NoAllocationFailure Vm ->
  CK_IS_UNDEFINED key = false -> CkpAreValuesEqual key key = true ->
  exists Vm' Dict',
    CkpDictSet Vm Dict key value = Some (Vm', Dict')
    /\ CkpDictGet Dict' key = Some value.
Proof.
  intros HWf HNo HK Hrefl.
  destruct (Set_grows Vm Dict HWf HNo)
    as (Vm1 & Dict1 & HGrow & _ & HCount & HC0 & HC1 & HLen & HFree & HLive & _).
  destruct HWf as [_ _ [HN0 HN1] _ _].
  assert (HCap : 0 < Capacity Dict1 < 2 ^ UINTN_BITS) by (unfold_constants; lia).
  unfold CkpDictSet. cbv zeta in HGrow. rewrite HGrow.
  destruct (AddEntry_outcome (Entries Dict1) (Capacity Dict1) key value)
    as (Result & HAdd & HOut); [done..|].
  rewrite HAdd. destruct HOut as [j Old Hj HS HR HL|j Old Hj HS HR HM|HS].
  - eexists _, _. split; [done|]. unfold CkpDictGet.
    erewrite (FindEntry_found _ _ j); simpl.
    + erewrite ReadEntry_insert_eq by done. done.
    + rewrite HCount, UINTN_cast_small by lia. lia.
    + done.
    + done.
    + by apply SkipsUntil_Find_insert; [lia|..].
    + by erewrite ReadEntry_insert_eq.
    + unfold HoldsKey, IsLive. simpl. by rewrite HK, Hrefl.
  - eexists _, _. split; [done|]. unfold CkpDictGet.
    erewrite (FindEntry_found _ _ j); simpl.
    + erewrite ReadEntry_insert_eq by done. done.
    + rewrite HCount.
      apply andb_true_iff in HM as [HL _].
      pose proof (LiveCount_live_slot _ _ _ (ReadEntry_lookup _ _ _ HR) HL). lia.
    + done.
    + done.
    + by apply SkipsUntil_Find_insert; [lia|..].
    + by erewrite ReadEntry_insert_eq.
    + done.
  - exfalso. by eapply not_TableFull; [| |done|done]; [lia|done].
Qed.

(** The probe of CkpDictFindEntry: it returns NULL at once when Count is 0;
    otherwise it probes from hash(Key) mod Capacity, steps over Tombstones and over Live
    slots with other keys, returns NULL at the first Empty slot, returns
    the first Live slot that holds the key, and returns NULL after Capacity
    slots; a key that was found is still found, at the same slot, after the
    removal of another key that left the capacity alone (and so left its
    Tombstone in the array). *)
Theorem FindEntry_probes Dict key :
  (Count Dict = 0 -> CkpDictFindEntry Dict key = Some NULL)
  /\ (forall (j : nat) Entry,
        Count Dict <> 0 ->
        0 < Capacity Dict < 2 ^ UINTN_BITS ->
        Z.of_nat j < Capacity Dict ->
        SkipsUntil (FindSkips key) (Entries Dict)
          (HomeIndex key (Capacity Dict)) (Capacity Dict) j ->
        ReadEntry (Entries Dict)
          (ProbeIndex (HomeIndex key (Capacity Dict)) (Capacity Dict) j)
        = Some Entry ->
        (IsEmpty Entry = true -> CkpDictFindEntry Dict key = Some NULL)
        /\ (HoldsKey key Entry = true ->
            CkpDictFindEntry Dict key
            = Some (EntryAt (ProbeIndex (HomeIndex key (Capacity Dict))
                               (Capacity Dict) j))))
  /\ (0 < Capacity Dict < 2 ^ UINTN_BITS ->
      SkipsUntil (FindSkips key) (Entries Dict)
        (HomeIndex key (Capacity Dict)) (Capacity Dict)
        (Z.to_nat (Capacity Dict)) ->
      CkpDictFindEntry Dict key = Some NULL)
  /\ (forall Vm removed Vm' Dict' value Index,
        DictWf Dict ->
        CkpDictFindEntry Dict key = Some (EntryAt Index) ->
        CkpDictFindEntry Dict removed <> Some (EntryAt Index) ->
        CkpDictRemove Vm Dict removed = Some (Vm', Dict', value) ->
        Capacity Dict' = Capacity Dict ->
        CkpDictFindEntry Dict' key = Some (EntryAt Index)).
Proof.
  split_and!.
  - intros H0. unfold CkpDictFindEntry. by rewrite H0.
  - intros j Entry HN HC Hj HS HR. split; intros HE.
    + by eapply (FindEntry_empty _ _ j).
    + by eapply FindEntry_found.
  - intros HC HS. by apply FindEntry_exhausted.
  - intros. by eapply Find_after_Remove.
Qed.

(** C8: when the allocation of the new array fails, CkpDictResize returns
    with the dictionary as it was: the same array, Capacity and Count. *)
Theorem Resize_allocation_failure Vm Dict NewCapacity Rest :
  Allocations Vm = false :: Rest ->
  exists Vm', CkpDictResize Vm Dict NewCapacity = Some (Vm', Dict).
Proof.
  intros HA. unfold CkpDictResize, CkAllocate.
  rewrite CK_ASSERT_Allocations, HA. simpl. by eexists.
Qed.

(** C9: CkpDictRemove of a key that is not found returns CK_NULL_VALUE and
    leaves the dictionary (Count included) and the VM as they were;
    CkpDictRemove of a key that is found returns the value of its slot,
    which is what CkpDictGet returned for the key, and takes one off
    Count. *)
Theorem Remove_returns_previous_value Vm Dict key :
  DictWf Dict ->
  (CkpDictFindEntry Dict key = Some NULL
   /\ CkpDictRemove Vm Dict key = Some (Vm, Dict, CK_NULL_VALUE))
  \/ (exists Index Entry Vm' Dict',
        CkpDictFindEntry Dict key = Some (EntryAt Index)
        /\ ReadEntry (Entries Dict) Index = Some Entry
        /\ HoldsKey key Entry = true
        /\ CkpDictGet Dict key = Some (Value Entry)
        /\ CkpDictRemove Vm Dict key = Some (Vm', Dict', Value Entry)
        /\ Count Dict' = Count Dict - 1).
Proof.
  intros HWf. pose proof HWf as [HLen [HC0 HC1] _ _ HEmpty].
  destruct (FindEntry_defined Dict key)
    as [HNull|(j & Entry & Hj & _ & _ & HR & HK & HF)];
    [unfold_constants; lia|lia|done|..].
  - left. split; [done|]. by apply Remove_absent.
  - right.
    destruct (Remove_present Vm Dict key _ Entry HWf HF HR)
      as (Vm' & Dict' & HRem & HCount & _).
    eexists _, Entry, Vm', Dict'. split_and!; [done..| |done|done].
    unfold CkpDictGet. rewrite HF. simpl. by rewrite HR.
Qed.

End Claims.

(** ** The code at work *)

Lemma CkpDictCreate_NewDict :
  CkpDictCreate FreshVm = (FreshVm, Some NewDict).
Proof. reflexivity. Qed.

Lemma NewDict_DictWf : DictWf NewDict.
Proof. constructor; (vm_compute; done). Qed.

Lemma BehindTombstone_DictWf : DictWf BehindTombstone.
Proof. constructor; (vm_compute; done). Qed.

Example BehindTombstone_built :
  snd <$> Calls (Equality := IdenticalValues) (FreshVm, NewDict)
            [CallSet (CkValueInteger 5) (CkValueInteger 5);
             CallSet (CkValueInteger 21) (CkValueInteger 21);
             CallRemove (CkValueInteger 5)]
  = Some BehindTombstone.
Proof. (vm_compute; done). Qed.

(** The scenario of the spec: the first set grows the table to 16, twelve
    keys fit, the thirteenth grows it to 32. *)
Example growth_scenario :
  Observe <$> Calls (Equality := IdenticalValues) (FreshVm, NewDict)
                (SetAll (IntegerKeys 1)) = Some (0%nat, 1, 16)
  /\ Observe <$> Calls (Equality := IdenticalValues) (FreshVm, NewDict)
                   (SetAll (IntegerKeys 12)) = Some (0%nat, 12, 16)
  /\ Observe <$> Calls (Equality := IdenticalValues) (FreshVm, NewDict)
                   (SetAll (IntegerKeys 13)) = Some (0%nat, 13, 32).
Proof. (vm_compute; done). Qed.

(** C1: CkpDictRemove takes the shrink path when the quotient
    Count / (Capacity / 3 * 768 / 1024) is NOT zero. After 24 keys the table
    has 32 slots; removing one leaves Count = 23, the quotient is 23 / 7 = 3,
    and the table is resized to 16 slots. With Count = 1 in 32 slots the
    quotient is 0 and the condition of the shrink path is false. *)
Theorem Remove_shrinks_on_nonzero_quotient :
  Observe <$> Calls (Equality := IdenticalValues) (FreshVm, NewDict)
                (SetAll (IntegerKeys 24)) = Some (0%nat, 24, 32)
  /\ (24 - 1) / (32 / DICT_SHRINK_FACTOR * DICT_LOAD_FACTOR / 1024) = 3
  /\ ShrinkCondition {| Count := 24 - 1; Capacity := 32; Entries := [] |}
     = Some true
  /\ (Calls (Equality := IdenticalValues) (FreshVm, NewDict)
        (SetAll (IntegerKeys 24))
      ≫= fun State =>
          (fun Removed => (Capacity (snd (fst Removed)), snd Removed))
          <$> CkpDictRemove (Equality := IdenticalValues)
                (fst State) (snd State) (CkValueInteger 0))
     = Some (16, CkValueInteger 0)
  /\ 1 / (32 / DICT_SHRINK_FACTOR * DICT_LOAD_FACTOR / 1024) = 0
  /\ ShrinkCondition {| Count := 1; Capacity := 32; Entries := [] |}
     = Some false.
Proof. split_and!; vm_compute; reflexivity. Qed.

(** C2, the claim as stated, refuted: key 5 is not in the array, slot 5
    (where its probe starts) is a Tombstone and slot 6 is the first Empty
    slot of the probe; CkpDictAddEntry writes the key into the Tombstone
    and leaves slot 6 Empty. *)
Lemma AddEntry_claims_tombstone :
  HomeIndex (CkValueInteger 5) 16 = 5
  /\ IsTombstone <$> ReadEntry TombstoneAtHome 5 = Some true
  /\ IsEmpty <$> ReadEntry TombstoneAtHome 6 = Some true
  /\ CkpDictAddEntry (Equality := IdenticalValues) TombstoneAtHome 16
       (CkValueInteger 5) CkValueNull
     = Some (<[5%nat := {| Key := CkValueInteger 5; Value := CkValueNull |}]>
               TombstoneAtHome, true)
  /\ CkpDictAddEntry (Equality := IdenticalValues) TombstoneAtHome 16
       (CkValueInteger 5) CkValueNull
     <> Some (<[6%nat := {| Key := CkValueInteger 5; Value := CkValueNull |}]>
                TombstoneAtHome, true).
Proof. split_and!; (vm_compute; done). Qed.

Lemma AddEntry_first_undefined_key_witness :
  (0 < 16 < 2 ^ UINTN_BITS
   /\ Z.of_nat (length TombstoneAtHome) = 16
   /\ ReadEntry TombstoneAtHome
        (ProbeIndex (HomeIndex (CkValueInteger 5) 16) 16 0)
      = Some DeletedEntry)
  /\ CkpDictAddEntry (Equality := IdenticalValues) TombstoneAtHome 16
       (CkValueInteger 5) CkValueNull
     = Some (<[5%nat := {| Key := CkValueInteger 5; Value := CkValueNull |}]>
               TombstoneAtHome, true).
Proof.
  split; [(vm_compute; done)|].
  apply (proj1 (AddEntry_first_undefined_key (Equality := IdenticalValues)
                  TombstoneAtHome 16 (CkValueInteger 5) CkValueNull 0
                  DeletedEntry ltac:((vm_compute; done)) ltac:((vm_compute; done))
                  ltac:((vm_compute; done)) ltac:((vm_compute; done)))).
  - intros i Entry HE. apply list_elem_of_lookup_2 in HE.
    revert Entry HE. apply Forall_forall. by repeat constructor.
  - intros i Hi. lia.
  - reflexivity.
Defined.

(** C3: the precondition of CkpDictResize does not hold at the call of
    CkpDictRemove. 24 sets fill a table of 32 slots without a failed
    assertion; the removal of one key then calls CkpDictResize with
    NewCapacity = 16 while Count is 23, and the assertion fails. Nor does
    it hold at the call of CkpDictSet from then on: after 48 sets and two
    removals Count is 46 in 16 slots, and the next set calls CkpDictResize
    with NewCapacity = 32. *)
Theorem Resize_precondition_broken_by_Remove :
  Observe <$> Calls (Equality := IdenticalValues) (FreshVm, NewDict)
                (SetAll (IntegerKeys 24)) = Some (0%nat, 24, 32)
  /\ Observe <$> Calls (Equality := IdenticalValues) (FreshVm, NewDict)
                   (SetAll (IntegerKeys 24) ++ [CallRemove (CkValueInteger 0)])
     = Some (1%nat, 23, 16)
  /\ Observe <$> Calls (Equality := IdenticalValues) (FreshVm, NewDict)
                   (SetAll (IntegerKeys 48)
                    ++ [CallRemove (CkValueInteger 0);
                        CallRemove (CkValueInteger 1)])
     = Some (2%nat, 46, 16)
  /\ Observe <$> Calls (Equality := IdenticalValues) (FreshVm, NewDict)
                   (SetAll (IntegerKeys 48)
                    ++ [CallRemove (CkValueInteger 0);
                        CallRemove (CkValueInteger 1);
                        CallSet (CkValueInteger 99) CkValueNull])
     = Some (3%nat, 47, 32).
Proof. split_and!; vm_compute; reflexivity. Qed.

(** C4: setting the 24 keys 0 .. 23 and removing them again leaves
    Count = 7: the first removal resizes the table of 32 slots to 16 slots
    while it holds 23 keys, 7 of which are dropped and never counted off.
    (CkpDictGet does report every one of the 24 keys as not found.) *)
Theorem churn_leaves_Count_7 :
  Observe <$> Calls (Equality := IdenticalValues) (FreshVm, NewDict)
                (SetAll (IntegerKeys 24) ++ RemoveAll (IntegerKeys 24))
  = Some (1%nat, 7, 16)
  /\ (fun State =>
        map (CkpDictGet (Equality := IdenticalValues) (snd State))
          (IntegerKeys 24))
     <$> Calls (Equality := IdenticalValues) (FreshVm, NewDict)
           (SetAll (IntegerKeys 24) ++ RemoveAll (IntegerKeys 24))
     = Some (replicate 24 (Some CK_UNDEFINED_VALUE)).
Proof. split; vm_compute; reflexivity. Qed.

(** C5: after 33 sets, two removals and one more set, Count is 32 in a
    table of 32 slots, above 32 * 768 / 1024 = 24. *)
Theorem load_factor_exceeded_after_Set :
  Observe <$> Calls (Equality := IdenticalValues) (FreshVm, NewDict)
                (SetAll (IntegerKeys 33)
                 ++ [CallRemove (CkValueInteger 0);
                     CallRemove (CkValueInteger 1);
                     CallSet (CkValueInteger 99) CkValueNull])
  = Some (2%nat, 32, 32)
  /\ 32 * DICT_LOAD_FACTOR / 1024 = 24.
Proof. split; (vm_compute; done). Qed.

(** C7: a key is lost by the removal of a key on its probe path. The keys
    0 .. 22 and 54 fill 24 of 32 slots with no failed assertion; 54 hashes
    to slot 22, the slot of key 22, and is found at slot 23, behind it.
    CkpDictRemove of key 22 leaves Count = 23 and, the quotient 23 / 7
    being 3 and not 0, resizes the table to 16 slots (the assertion of
    CkpDictResize fails): the keys 0 .. 15 fill the new array and key 54 is
    dropped, so that CkpDictFindEntry returns NULL for it and CkpDictGet
    returns CK_UNDEFINED_VALUE. *)
Theorem Find_loses_key_behind_removed_key :
  Observe <$> Calls (Equality := IdenticalValues) (FreshVm, NewDict)
                (SetAll (IntegerKeys 23 ++ [CkValueInteger 54]))
  = Some (0%nat, 24, 32)
  /\ HomeIndex (CkValueInteger 22) 32 = 22
  /\ HomeIndex (CkValueInteger 54) 32 = 22
  /\ (fun State =>
        (CkpDictFindEntry (Equality := IdenticalValues) (snd State)
           (CkValueInteger 22),
         CkpDictFindEntry (Equality := IdenticalValues) (snd State)
           (CkValueInteger 54)))
     <$> Calls (Equality := IdenticalValues) (FreshVm, NewDict)
           (SetAll (IntegerKeys 23 ++ [CkValueInteger 54]))
     = Some (Some (EntryAt 22), Some (EntryAt 23))
  /\ (23 / (32 / DICT_SHRINK_FACTOR * DICT_LOAD_FACTOR / 1024) = 3
      /\ ShrinkCondition {| Count := 23; Capacity := 32; Entries := [] |}
         = Some true)
  /\ Observe <$> Calls (Equality := IdenticalValues) (FreshVm, NewDict)
                   (SetAll (IntegerKeys 23 ++ [CkValueInteger 54])
                    ++ [CallRemove (CkValueInteger 22)])
     = Some (1%nat, 23, 16)
  /\ (fun State =>
        (CkpDictFindEntry (Equality := IdenticalValues) (snd State)
           (CkValueInteger 54),
         CkpDictGet (Equality := IdenticalValues) (snd State)
           (CkValueInteger 54)))
     <$> Calls (Equality := IdenticalValues) (FreshVm, NewDict)
           (SetAll (IntegerKeys 23 ++ [CkValueInteger 54])
            ++ [CallRemove (CkValueInteger 22)])
     = Some (Some NULL, Some CK_UNDEFINED_VALUE).
Proof. split_and!; vm_compute; reflexivity. Qed.

Lemma Set_then_Get_witness :
  (DictWf NewDict /\ NoAllocationFailure FreshVm)
  /\ exists Vm' Dict',
       CkpDictSet (Equality := IdenticalValues) FreshVm NewDict
         (CkValueInteger 1) (CkValueInteger 2) = Some (Vm', Dict')
       /\ CkpDictGet (Equality := IdenticalValues) Dict' (CkValueInteger 1)
          = Some (CkValueInteger 2).
Proof.
  split; [split; [exact NewDict_DictWf|constructor]|].
  apply (Set_then_Get (Equality := IdenticalValues) FreshVm NewDict
           (CkValueInteger 1) (CkValueInteger 2) NewDict_DictWf);
    [constructor|reflexivity|reflexivity].
Defined.

Lemma FindEntry_probes_witness :
  (0 < Capacity BehindTombstone < 2 ^ UINTN_BITS
   /\ IsTombstone <$> ReadEntry (Entries BehindTombstone) 5 = Some true)
  /\ CkpDictFindEntry (Equality := IdenticalValues) BehindTombstone
       (CkValueInteger 21) = Some (EntryAt 6).
Proof.
  split; [vm_compute; done|].
  refine (proj2 (proj1 (proj2 (FindEntry_probes (Equality := IdenticalValues)
                   BehindTombstone (CkValueInteger 21)))
                   1%nat {| Key := CkValueInteger 21; Value := CkValueInteger 21 |}
                   ltac:(vm_compute; done) ltac:(vm_compute; done)
                   ltac:(vm_compute; done) _
                   ltac:(vm_compute; done)) ltac:(vm_compute; done)).
  intros i Hi. assert (i = 0%nat) as -> by lia.
  exists DeletedEntry. vm_compute; done.
Defined.

Lemma Resize_allocation_failure_witness :
  Allocations ExhaustedVm = [false]
  /\ exists Vm',
       CkpDictResize (Equality := IdenticalValues) ExhaustedVm
         BehindTombstone 32 = Some (Vm', BehindTombstone).
Proof.
  split; [reflexivity|].
  apply (Resize_allocation_failure (Equality := IdenticalValues) ExhaustedVm
           BehindTombstone 32 [] eq_refl).
Defined.

Lemma Remove_returns_previous_value_witness :
  DictWf BehindTombstone
  /\ exists Vm' Dict',
       CkpDictRemove (Equality := IdenticalValues) FreshVm BehindTombstone
         (CkValueInteger 21) = Some (Vm', Dict', CkValueInteger 21)
       /\ Count Dict' = 0.
Proof.
  split; [exact BehindTombstone_DictWf|].
  destruct (Remove_returns_previous_value (Equality := IdenticalValues)
              FreshVm BehindTombstone (CkValueInteger 21)
              BehindTombstone_DictWf)
    as [[HNull _]|(Index & Entry & Vm' & Dict' & HF & HR & _ & _ & HRem & HC)].
  - vm_compute in HNull. discriminate.
  - exists Vm', Dict'. vm_compute in HF. injection HF as <-.
    vm_compute in HR. injection HR as <-. split; [exact HRem|exact HC].
Defined.

(** ** What the calls never do *)

Section Frames.
Context {Equality : ValueEquality}.

(** CkpDictResize either leaves the dictionary alone or installs an array
    of NewCapacity slots; it never touches Count or the root stack. *)
Lemma Resize_shape Vm Dict NewCapacity Vm' Dict' :
  CkpDictResize Vm Dict NewCapacity = Some (Vm', Dict') ->
  Roots Vm' = Roots Vm
  /\ Count Dict' = Count Dict
  /\ (Dict' = Dict \/ Capacity Dict' = NewCapacity).
Proof.
  unfold CkpDictResize. intros HRes.
  set (Vm1 := CK_ASSERT Vm (Count Dict <? NewCapacity)) in *.
  assert (HR1 : Roots Vm1 = Roots Vm) by (subst Vm1; by destruct (_ <? _)).
  assert (HR2 : Roots (fst (CkAllocate Vm1)) = Roots Vm1).
  { unfold CkAllocate. by destruct (Allocations Vm1). }
  destruct (CkAllocate Vm1) as [Vm2 Allocated]. simpl in HR2.
  destruct Allocated; simpl in HRes.
  - destruct (CkpDictResize_loop _ _ _ _ _); simpl in HRes; [|done].
    injection HRes as <- <-. simpl. split_and!; [congruence|done|by right].
  - injection HRes as <- <-. split_and!; [congruence|done|by left].
Qed.

Lemma Set_Roots Vm Dict key value Vm' Dict' :
  CkpDictSet Vm Dict key value = Some (Vm', Dict') -> Roots Vm' = Roots Vm.
Proof.
  unfold CkpDictSet. intros HSet.
  destruct (_ <? _).
  - destruct (CkpDictResize _ _ _) as [[Vm1 Dict1]|] eqn:HRes; [|done].
    destruct (CkpDictAddEntry _ _ _ _) as [[NewEntries New]|]; [|done].
    injection HSet as <- <-. by destruct (Resize_shape _ _ _ _ _ HRes).
  - destruct (CkpDictAddEntry _ _ _ _) as [[NewEntries New]|]; [|done].
    by injection HSet as <- <-.
Qed.

(** What CkpDictRemove does to the root stack and to the capacity, read
    off its branches. *)
Lemma Remove_frame Vm Dict key Vm' Dict' value :
  CkpDictRemove Vm Dict key = Some (Vm', Dict', value) ->
  Roots Vm' = Roots Vm
  /\ (Capacity Dict' = Capacity Dict
      \/ DICT_MIN_CAPACITY < Capacity Dict
         /\ Capacity Dict' = Z.max (Capacity Dict / DICT_GROW_FACTOR)
                               DICT_MIN_CAPACITY).
Proof.
  unfold CkpDictRemove. intros HRem.
  destruct (CkpDictFindEntry Dict key) as [[|Index]|]; simpl in HRem; [| |done].
  { injection HRem as <- <- <-. by split; [|left]. }
  destruct (ReadEntry (Entries Dict) Index) as [Found|]; simpl in HRem; [|done].
  destruct (WriteEntry _ _ _) as [NewEntries|]; simpl in HRem; [|done].
  set (Dict1 := {| Count := _; Capacity := _; Entries := NewEntries |}) in *.
  destruct (ShrinkCondition Dict1) as [[|]|] eqn:HShrink; [| |done].
  - assert (HBig : DICT_MIN_CAPACITY < Capacity Dict).
    { unfold ShrinkCondition in HShrink. simpl in HShrink.
      destruct (Z.ltb_spec DICT_MIN_CAPACITY (Capacity Dict)); [done|].
      discriminate. }
    set (Vm1 := match Value Found with
                | CkValueObject Object => CkpPushRoot Vm Object
                | _ => Vm
                end) in *.
    assert (HPop : Roots (if CK_IS_OBJECT (Value Found)
                          then CkpPopRoot Vm1 else Vm1) = Roots Vm)
      by (subst Vm1; by destruct (Value Found)).
    destruct (negb _).
    + destruct (CkpDictResize _ _ _) as [[Vm2 Dict2]|] eqn:HRes; [|done].
      injection HRem as <- <- <-.
      destruct (Resize_shape _ _ _ _ _ HRes) as (HRoots & _ & HCases).
      split.
      * revert HPop. destruct (CK_IS_OBJECT (Value Found)); simpl; congruence.
      * destruct HCases as [-> | ->]; [by left|right].
        split; [done|]. by rewrite ShrunkCapacity_max.
    + injection HRem as <- <- <-. by split; [|left].
  - injection HRem as <- <- <-. by split; [|left].
Qed.

Lemma Calls_Roots Operations : forall State State',
  Calls State Operations = Some State' ->
  Roots (fst State') = Roots (fst State).
Proof.
  induction Operations as [|Operation Operations IH]; intros State State' HCalls;
    simpl in HCalls.
  - by injection HCalls as <-.
  - destruct (Call State Operation) as [State1|] eqn:HCall; [|done].
    rewrite (IH _ _ HCalls).
    destruct State as [Vm Dict], State1 as [Vm1 Dict1],
      Operation as [key value|key]; simpl in *.
    + by eapply Set_Roots.
    + destruct (CkpDictRemove Vm Dict key) as [[[Vm2 Dict2] value]|] eqn:HRem;
        [|done].
      injection HCall as <- <-. by destruct (Remove_frame _ _ _ _ _ _ HRem).
Qed.

End Frames.

(** ** The capacities of a run *)

Lemma CapacityShape_grow Capacity :
  CapacityShape Capacity ->
  CapacityShape (Z.max (Capacity * DICT_GROW_FACTOR) DICT_MIN_CAPACITY).
Proof.
  unfold CapacityShape. unfold_constants. intros [->|[k ->]]; right.
  - exists 0%nat. done.
  - exists (S k). rewrite Nat2Z.inj_succ, Z.pow_succ_r by lia.
    assert (0 < 2 ^ Z.of_nat k) by (apply Z.pow_pos_nonneg; lia). lia.
Qed.

Lemma CapacityShape_shrink Capacity :
  CapacityShape Capacity -> DICT_MIN_CAPACITY < Capacity ->
  CapacityShape (Z.max (Capacity / DICT_GROW_FACTOR) DICT_MIN_CAPACITY).
Proof.
  unfold CapacityShape. unfold_constants. intros [->|[k ->]] HBig; [lia|].
  right. destruct k as [|k]; [simpl in HBig; lia|]. exists k.
  rewrite Nat2Z.inj_succ, Z.pow_succ_r by lia.
  assert (0 < 2 ^ Z.of_nat k) by (apply Z.pow_pos_nonneg; lia).
  replace (16 * (2 * 2 ^ Z.of_nat k)) with (16 * 2 ^ Z.of_nat k * 2) by lia.
  rewrite Z.div_mul by lia. lia.
Qed.

Section RunShapes.
Context {Equality : ValueEquality}.

Lemma Calls_CapacityShape Operations : forall Steps State State',
  0 <= Steps ->
  (Steps + Z.of_nat (length Operations)) * 4096 < 2 ^ UINTN_BITS ->
  RunInvariant Steps State ->
  CapacityShape (Capacity (snd State)) ->
  Calls State Operations = Some State' ->
  CapacityShape (Capacity (snd State')).
Proof.
  induction Operations as [|Operation Operations IH];
    intros Steps State State' HS0 HS1 HInv HShape HCalls.
  - by injection HCalls as <-.
  - change (length (Operation :: Operations)) with (S (length Operations)) in *.
    rewrite Nat2Z.inj_succ in *. simpl in HCalls.
    destruct (Call State Operation) as [State1|] eqn:HCall; [|done].
    destruct (Call_RunInvariant Steps State Operation State1) as [HInv1 _];
      [lia|lia|done..|].
    apply (IH (Steps + 1) State1 State'); [lia|lia|done| |done].
    destruct HInv as (HWf & _).
    destruct State as [Vm Dict], State1 as [Vm1 Dict1],
      Operation as [key value|key]; simpl in *.
    + destruct (Set_shape _ _ _ _ _ _ HWf HCall) as (_ & [->|[-> _]] & _);
        [done|by apply CapacityShape_grow].
    + destruct (CkpDictRemove Vm Dict key) as [[[Vm2 Dict2] value]|] eqn:HRem;
        [|done].
      injection HCall as <- <-.
      destruct (Remove_frame _ _ _ _ _ _ HRem) as (_ & [->|[HBig ->]]);
        [done|by apply CapacityShape_shrink].
Qed.

(** ** Lookups *)

(** What CkpDictGet returns is the value of a Live slot that holds the
    key, or CK_UNDEFINED_VALUE. *)
Lemma Get_cases Dict key :
  DictWf Dict ->
  CkpDictFindEntry Dict key = Some NULL
  /\ CkpDictGet Dict key = Some CK_UNDEFINED_VALUE
  \/ exists Index Entry,
       Holder (Entries Dict) key Index Entry
       /\ CkpDictFindEntry Dict key = Some (EntryAt Index)
       /\ CkpDictGet Dict key = Some (Value Entry).
Proof.
  intros [HLen [HC0 HC1] _ _ HEmpty].
  destruct (FindEntry_defined Dict key)
    as [HNull|(j & Entry & Hj & _ & _ & HR & HK & HF)];
    [unfold_constants; lia|lia|done|..].
  - left. split; [done|]. unfold CkpDictGet. by rewrite HNull.
  - right. eexists _, Entry. split; [by split|]. split; [done|].
    unfold CkpDictGet. rewrite HF. simpl. by rewrite HR.
Qed.

End RunShapes.

(** ** The calls, taken apart *)

Section Inversions.
Context {Equality : ValueEquality}.

Lemma Resize_inv Vm Dict NewCapacity Vm' Dict' :
  CkpDictResize Vm Dict NewCapacity = Some (Vm', Dict') ->
  Dict' = Dict
  \/ exists NewEntries,
       CkpDictResize_loop (Z.to_nat (Capacity Dict)) Dict 0
         (replicate (Z.to_nat NewCapacity) ZeroEntry) NewCapacity
       = Some NewEntries
       /\ Dict' = {| Count := Count Dict; Capacity := NewCapacity;
                    Entries := NewEntries |}.
Proof.
  unfold CkpDictResize. intros HRes.
  destruct (CkAllocate _) as [Vm2 Allocated].
  destruct Allocated; simpl in HRes.
  - destruct (CkpDictResize_loop _ _ _ _ _) as [NewEntries|]; simpl in HRes;
      [|done].
    injection HRes as <- <-. right. by exists NewEntries.
  - injection HRes as <- <-. by left.
Qed.

Lemma Set_inv Vm Dict key value Vm' Dict' :
  CkpDictSet Vm Dict key value = Some (Vm', Dict') ->
  exists Dict1 New,
    (Dict1 = Dict /\ Vm' = Vm
     /\ UINTN_cast (Count Dict + 1)
        <= UINTN_cast (Capacity Dict * DICT_LOAD_FACTOR) / 1024
     \/ exists NewCapacity,
          NewCapacity = Z.max (UINTN_cast (Capacity Dict * DICT_GROW_FACTOR))
                          DICT_MIN_CAPACITY
          /\ DICT_MIN_CAPACITY <= NewCapacity < 2 ^ UINTN_BITS
          /\ UINTN_cast (Capacity Dict * DICT_LOAD_FACTOR) / 1024
             < UINTN_cast (Count Dict + 1)
          /\ CkpDictResize Vm Dict NewCapacity = Some (Vm', Dict1))
    /\ CkpDictAddEntry (Entries Dict1) (Capacity Dict1) key value
       = Some (Entries Dict', New)
    /\ Capacity Dict' = Capacity Dict1
    /\ Count Dict' = (if New then UINTN_cast (Count Dict1 + 1)
                      else Count Dict1).
Proof.
  unfold CkpDictSet. intros HSet.
  destruct (Z.ltb_spec (UINTN_cast (Capacity Dict * DICT_LOAD_FACTOR) / 1024)
              (UINTN_cast (Count Dict + 1))) as [HGrow|HStay].
  - set (NewCapacity := if _ <? _ then _ else _) in *.
    assert (HNew : NewCapacity
                   = Z.max (UINTN_cast (Capacity Dict * DICT_GROW_FACTOR))
                       DICT_MIN_CAPACITY
                   /\ DICT_MIN_CAPACITY <= NewCapacity < 2 ^ UINTN_BITS).
    { subst NewCapacity.
      pose proof (UINTN_cast_range (Capacity Dict * DICT_GROW_FACTOR)).
      unfold_constants.
      destruct (Z.ltb_spec (UINTN_cast (Capacity Dict * 2)) 16); lia. }
    destruct HNew as [HNewEq HNew].
    destruct (CkpDictResize _ _ _) as [[Vm1 Dict1]|] eqn:HRes; [|done].
    destruct (CkpDictAddEntry _ _ _ _) as [[NewEntries New]|] eqn:HAdd; [|done].
    injection HSet as <- <-. exists Dict1, New. simpl.
    split_and!; [right; by exists NewCapacity|done..].
  - destruct (CkpDictAddEntry _ _ _ _) as [[NewEntries New]|] eqn:HAdd; [|done].
    injection HSet as <- <-. exists Dict, New. simpl.
    split_and!; [by left|done..].
Qed.

Lemma Remove_inv Vm Dict key Vm' Dict' value :
  CkpDictRemove Vm Dict key = Some (Vm', Dict', value) ->
  CkpDictFindEntry Dict key = Some NULL /\ Dict' = Dict
  \/ exists Index Found,
       CkpDictFindEntry Dict key = Some (EntryAt Index)
       /\ ReadEntry (Entries Dict) Index = Some Found
       /\ value = Value Found
       /\ (Dict' = {| Count := UINTN_cast (Count Dict - 1);
                     Capacity := Capacity Dict;
                     Entries := <[Z.to_nat Index := DeletedEntry]>
                                  (Entries Dict) |}
           \/ exists Vm1 Vm2,
                DICT_MIN_CAPACITY < Capacity Dict
                /\ CkpDictResize Vm1
                     {| Count := UINTN_cast (Count Dict - 1);
                        Capacity := Capacity Dict;
                        Entries := <[Z.to_nat Index := DeletedEntry]>
                                     (Entries Dict) |}
                     (Z.max (Capacity Dict / DICT_GROW_FACTOR)
                        DICT_MIN_CAPACITY)
                   = Some (Vm2, Dict')).
Proof.
  unfold CkpDictRemove. intros HRem.
  destruct (CkpDictFindEntry Dict key) as [[|Index]|]; simpl in HRem; [| |done].
  { injection HRem as <- <- <-. by left. }
  destruct (ReadEntry (Entries Dict) Index) as [Found|] eqn:HR;
    simpl in HRem; [|done].
  rewrite (WriteEntry_Some _ _ Found) in HRem by done. simpl in HRem.
  right. exists Index, Found.
  set (Dict1 := {| Count := _; Capacity := _; Entries := _ |}) in *.
  destruct (ShrinkCondition Dict1) as [[|]|] eqn:HShrink; [| |done].
  - assert (HBig : DICT_MIN_CAPACITY < Capacity Dict).
    { unfold ShrinkCondition in HShrink. simpl in HShrink.
      destruct (Z.ltb_spec DICT_MIN_CAPACITY (Capacity Dict)); [done|].
      discriminate. }
    rewrite ShrunkCapacity_max in HRem. simpl in HRem.
    destruct (negb _).
    + destruct (CkpDictResize _ _ _) as [[Vm2 Dict2]|] eqn:HRes; [|done].
      injection HRem as <- <- <-. split_and!; [done..|].
      right. by eexists _, _.
    + injection HRem as <- <- <-. split_and!; [done..|by left].
  - injection HRem as <- <- <-. split_and!; [done..|by left].
Qed.

(** A property of arrays is kept by the re-insertion loop of CkpDictResize
    if it is kept by CkpDictAddEntry of the key and value of a Live slot of
    the old array. *)
Lemma Resize_loop_keeps (P : list CK_DICT_ENTRY -> Prop) Dict NewCapacity :
  (forall Array Index OldEntry Array' New,
     P Array ->
     ReadEntry (Entries Dict) Index = Some OldEntry ->
     IsLive OldEntry = true ->
     CkpDictAddEntry Array NewCapacity (Key OldEntry) (Value OldEntry)
     = Some (Array', New) ->
     P Array') ->
  forall (Loop : nat) Index NewEntries Result,
    P NewEntries ->
    CkpDictResize_loop Loop Dict Index NewEntries NewCapacity = Some Result ->
    P Result.
Proof.
  intros HKeep. induction Loop as [|Loop IH];
    intros Index NewEntries Result HP HLoop; simpl in HLoop.
  - by injection HLoop as <-.
  - destruct (ReadEntry (Entries Dict) Index) as [OldEntry|] eqn:HR;
      simpl in HLoop; [|done].
    destruct (CK_IS_UNDEFINED (Key OldEntry)) eqn:HK; simpl in HLoop.
    + by eapply IH.
    + destruct (CkpDictAddEntry _ _ _ _) as [[Added New]|] eqn:HAdd;
        simpl in HLoop; [|done].
      eapply IH; [|done]. eapply HKeep; [done..| |done].
      unfold IsLive. by rewrite HK.
Qed.

End Inversions.

(** ** Every Live slot can be reached *)

(** Filling a slot cannot cut a probe. *)
Lemma Reaches_insert Entries Capacity key Index Changed New :
  0 < Capacity -> 0 <= Changed ->
  IsEmpty New = false ->
  Reaches Entries Capacity key Index ->
  Reaches (<[Z.to_nat Changed := New]> Entries) Capacity key Index.
Proof.
  intros HC HChanged HNew (j & Hj & Hp & HS). exists j.
  split_and!; [done..|].
  intros i Hi. destruct (HS i Hi) as (Entry & HR & HE).
  destruct (Z.eq_dec Changed (ProbeIndex (HomeIndex key Capacity) Capacity i))
    as [->|Hne].
  - exists New. split; [by eapply ReadEntry_insert_eq|by rewrite HNew].
  - exists Entry. split; [|done].
    rewrite ReadEntry_insert_ne; [done..| |done].
    apply ProbeIndex_range. lia.
Qed.

Lemma ReadEntry_insert_inv Entries Changed New Index Entry :
  0 <= Changed ->
  ReadEntry (<[Z.to_nat Changed := New]> Entries) Index = Some Entry ->
  Index = Changed /\ Entry = New
  \/ Index <> Changed /\ ReadEntry Entries Index = Some Entry.
Proof.
  intros HChanged HR. pose proof (ReadEntry_Some _ _ _ HR) as HI.
  rewrite length_insert in HI.
  destruct (Z.eq_dec Index Changed) as [->|Hne].
  - left. split; [done|].
    destruct (ReadEntry_in_range Entries Changed HI) as [Old HOld].
    rewrite (ReadEntry_insert_eq _ _ Old) in HR by done. by injection HR.
  - right. split; [done|]. by rewrite ReadEntry_insert_ne in HR by lia.
Qed.

Section Closure.
Context {Equality : ValueEquality}.

(** CkpDictAddEntry of a key that is not UNDEFINED keeps every Live slot
    within reach of its probe. *)
Lemma AddEntry_ProbeClosed Entries Capacity key value Entries' New :
  0 < Capacity < 2 ^ UINTN_BITS -> Z.of_nat (length Entries) = Capacity ->
  CK_IS_UNDEFINED key = false ->
  ProbeClosed Entries Capacity ->
  CkpDictAddEntry Entries Capacity key value = Some (Entries', New) ->
  ProbeClosed Entries' Capacity.
Proof.
  intros HC HL HK HClosed HAdd.
  destruct (AddEntry_outcome Entries Capacity key value HC HL)
    as (Result & HAdd' & HOut).
  rewrite HAdd in HAdd'.
  destruct HOut as [j Old Hj HS HR HL'|j Old Hj HS HR HM|HS];
    injection HAdd' as -> ->; [| |done].
  - intros Index Entry HRE HLive.
    pose proof (ProbeIndex_range (HomeIndex key Capacity) Capacity j
                  ltac:(lia)) as HP.
    destruct (ReadEntry_insert_inv _ _ _ _ _ (proj1 HP) HRE)
      as [[-> ->]|[Hne HRE']].
    + simpl. apply Reaches_insert; [lia|lia|..].
      { unfold IsEmpty. simpl. by rewrite HK. }
      exists j. split_and!; [done..|].
      intros i Hi. destruct (HS i Hi) as (Entry & HRi & Hskip).
      exists Entry. split; [done|].
      apply andb_true_iff in Hskip as [HLi _].
      unfold IsEmpty, IsLive in *. by destruct (CK_IS_UNDEFINED (Key Entry)).
    + apply Reaches_insert; [lia|lia|..].
      { unfold IsEmpty. simpl. by rewrite HK. }
      by apply HClosed.
  - intros Index Entry HRE HLive.
    pose proof (ProbeIndex_range (HomeIndex key Capacity) Capacity j
                  ltac:(lia)) as HP.
    apply andb_true_iff in HM as [HLOld _].
    assert (HFull : IsEmpty {| Key := Key Old; Value := value |} = false).
    { unfold IsEmpty, IsLive in *. simpl.
      by destruct (CK_IS_UNDEFINED (Key Old)). }
    destruct (ReadEntry_insert_inv _ _ _ _ _ (proj1 HP) HRE)
      as [[-> ->]|[Hne HRE']].
    + simpl. apply Reaches_insert; [lia|lia|done|]. by apply HClosed.
    + apply Reaches_insert; [lia|lia|done|]. by apply HClosed.
Qed.

End Closure.

Lemma ReadEntry_replicate (n : nat) Index Entry :
  ReadEntry (replicate n ZeroEntry) Index = Some Entry -> Entry = ZeroEntry.
Proof.
  unfold ReadEntry. destruct (Index <? 0); [done|].
  intros HR. by apply lookup_replicate in HR as [-> _].
Qed.

Lemma ProbeClosed_replicate (n : nat) Capacity :
  ProbeClosed (replicate n ZeroEntry) Capacity.
Proof.
  intros Index Entry HR HLive. apply ReadEntry_replicate in HR. by subst.
Qed.

(** Turning a slot into a Tombstone cuts no probe. *)
Lemma ProbeClosed_tombstone Entries Capacity Index :
  0 < Capacity -> 0 <= Index ->
  ProbeClosed Entries Capacity ->
  ProbeClosed (<[Z.to_nat Index := DeletedEntry]> Entries) Capacity.
Proof.
  intros HC HI HClosed Other Entry HR HLive.
  destruct (ReadEntry_insert_inv _ _ _ _ _ HI HR) as [[-> ->]|[Hne HR']];
    [done|].
  apply Reaches_insert; [done..|]. by apply HClosed.
Qed.

Section ClosedRuns.
Context {Equality : ValueEquality}.

Lemma AddEntry_length Entries Capacity key value Entries' New :
  0 < Capacity < 2 ^ UINTN_BITS -> Z.of_nat (length Entries) = Capacity ->
  CkpDictAddEntry Entries Capacity key value = Some (Entries', New) ->
  length Entries' = length Entries.
Proof.
  intros HC HL HAdd.
  destruct (AddEntry_outcome Entries Capacity key value HC HL)
    as (Result & HAdd' & HOut).
  rewrite HAdd in HAdd'. injection HAdd' as <-.
  by destruct (AddEntryOutcome_effect _ _ _ _ _ HOut).
Qed.

Lemma Resize_ProbeClosed Vm Dict NewCapacity Vm' Dict' :
  0 < NewCapacity < 2 ^ UINTN_BITS ->
  ProbeClosed (Entries Dict) (Capacity Dict) ->
  CkpDictResize Vm Dict NewCapacity = Some (Vm', Dict') ->
  ProbeClosed (Entries Dict') (Capacity Dict').
Proof.
  intros HN HClosed HRes.
  destruct (Resize_inv _ _ _ _ _ HRes) as [->|(NewEntries & HLoop & ->)];
    [done|]. simpl.
  apply (Resize_loop_keeps
           (fun Array => Z.of_nat (length Array) = NewCapacity
                         /\ ProbeClosed Array NewCapacity)
           Dict NewCapacity) in HLoop.
  - by destruct HLoop.
  - intros Array Index OldEntry Array' New [HL HP] HR HLive HAdd. split.
    + by rewrite (AddEntry_length _ _ _ _ _ _ HN HL HAdd).
    + eapply AddEntry_ProbeClosed; [done..| |done|done].
      unfold IsLive in HLive. by destruct (CK_IS_UNDEFINED (Key OldEntry)).
  - split; [rewrite length_replicate; lia|apply ProbeClosed_replicate].
Qed.

Lemma Set_ProbeClosed Vm Dict key value Vm' Dict' :
  DictWf Dict -> CK_IS_UNDEFINED key = false ->
  ProbeClosed (Entries Dict) (Capacity Dict) ->
  CkpDictSet Vm Dict key value = Some (Vm', Dict') ->
  ProbeClosed (Entries Dict') (Capacity Dict').
Proof.
  intros HWf HK HClosed HSet.
  destruct (Set_inv _ _ _ _ _ _ HSet)
    as (Dict1 & New & HGrow & HAdd & -> & _).
  assert (H1 : 0 <= Capacity Dict1 < 2 ^ UINTN_BITS
               /\ Z.of_nat (length (Entries Dict1)) = Capacity Dict1
               /\ ProbeClosed (Entries Dict1) (Capacity Dict1)).
  { destruct HWf as [HLen [HC0 HC1] _ _ _].
    destruct HGrow as [(-> & _)|(NewCapacity & _ & HNew & _ & HRes)].
    - split; [unfold_constants; lia|]. split; [lia|done].
    - assert (0 < NewCapacity < 2 ^ UINTN_BITS) as HN
        by (unfold_constants; lia).
      destruct (Resize_defined Vm Dict NewCapacity HN)
        as (Vm2 & Dict2 & HRes2 & _ & _ & _ & HCases & _); [lia|lia|].
      rewrite HRes in HRes2. injection HRes2 as <- <-.
      split; [|split; [|by eapply Resize_ProbeClosed]].
      + destruct HCases as [->|(-> & _)]; unfold_constants; lia.
      + destruct HCases as [->|(HCap & HLen2 & _)]; lia. }
  destruct H1 as (HC1 & HL1 & HP1).
  destruct (Z.eq_dec (Capacity Dict1) 0) as [H0|H0].
  { unfold CkpDictAddEntry in HAdd. by rewrite H0 in HAdd. }
  eapply AddEntry_ProbeClosed; [| |done|done|done]; [lia|done].
Qed.

Lemma Remove_ProbeClosed Vm Dict key Vm' Dict' value :
  DictWf Dict ->
  ProbeClosed (Entries Dict) (Capacity Dict) ->
  CkpDictRemove Vm Dict key = Some (Vm', Dict', value) ->
  ProbeClosed (Entries Dict') (Capacity Dict').
Proof.
  intros [HLen [HC0 HC1] _ _ HEmpty] HClosed HRem.
  destruct (Remove_inv _ _ _ _ _ _ HRem)
    as [[_ ->]|(Index & Found & HF & HR & _ & HCases)]; [done|].
  pose proof (ReadEntry_Some _ _ _ HR) as HI.
  assert (HTomb : ProbeClosed (<[Z.to_nat Index := DeletedEntry]> (Entries Dict))
                    (Capacity Dict))
    by (apply ProbeClosed_tombstone; done || lia).
  destruct HCases as [->|(Vm1 & Vm2 & HBig & HRes)]; [done|].
  eapply Resize_ProbeClosed in HRes; [done| |exact HTomb].
  unfold_constants.
  assert (Capacity Dict / 2 <= Capacity Dict)
    by (apply Z.div_le_upper_bound; lia). lia.
Qed.

Lemma Calls_ProbeClosed_step Operations : forall Steps State State',
  0 <= Steps ->
  (Steps + Z.of_nat (length Operations)) * 4096 < 2 ^ UINTN_BITS ->
  RunInvariant Steps State ->
  Forall DefinedKey Operations ->
  ProbeClosed (Entries (snd State)) (Capacity (snd State)) ->
  Calls State Operations = Some State' ->
  ProbeClosed (Entries (snd State')) (Capacity (snd State')).
Proof.
  induction Operations as [|Operation Operations IH];
    intros Steps State State' HS0 HS1 HInv HKeys HClosed HCalls.
  - by injection HCalls as <-.
  - change (length (Operation :: Operations)) with (S (length Operations)) in *.
    rewrite Nat2Z.inj_succ in *. simpl in HCalls.
    destruct (Call State Operation) as [State1|] eqn:HCall; [|done].
    destruct (Call_RunInvariant Steps State Operation State1) as [HInv1 _];
      [lia|lia|done..|].
    apply Forall_cons in HKeys as [HKey HKeys].
    apply (IH (Steps + 1) State1 State'); [lia|lia|done|done| |done].
    destruct HInv as (HWf & _).
    destruct State as [Vm Dict], State1 as [Vm1 Dict1],
      Operation as [key value|key]; simpl in *.
    + by eapply Set_ProbeClosed.
    + destruct (CkpDictRemove Vm Dict key) as [[[Vm2 Dict2] value]|] eqn:HRem;
        [|done].
      injection HCall as <- <-. by eapply Remove_ProbeClosed.
Qed.

(** A key that exactly one Live slot holds, and whose probe reaches that
    slot, is found there. *)
Lemma Find_unique_holder Dict key Index Entry :
  Count Dict <> 0 -> 0 < Capacity Dict < 2 ^ UINTN_BITS ->
  Holder (Entries Dict) key Index Entry ->
  Reaches (Entries Dict) (Capacity Dict) key Index ->
  (forall Other OtherEntry,
     Holder (Entries Dict) key Other OtherEntry -> Other = Index) ->
  CkpDictFindEntry Dict key = Some (EntryAt Index).
Proof.
  intros HCount HC [HR HK] (j & Hj & <- & HS) HUnique.
  eapply FindEntry_found; [done..| |done|done].
  intros i Hi. destruct (HS i Hi) as (Other & HRi & HFull).
  exists Other. split; [done|].
  destruct (HoldsKey key Other) eqn:HKi.
  - assert (Heq : ProbeIndex (HomeIndex key (Capacity Dict)) (Capacity Dict) i
                  = ProbeIndex (HomeIndex key (Capacity Dict))
                      (Capacity Dict) j)
      by (by eapply HUnique).
    apply ProbeIndex_inj in Heq; lia.
  - unfold FindSkips, IsTombstone, HoldsOtherKey, HoldsKey, IsEmpty, IsLive in *.
    destruct (CK_IS_UNDEFINED (Key Other)), (CK_IS_UNDEFINED (Value Other)),
      (CkpAreValuesEqual (Key Other) key); simpl in *; done.
Qed.

End ClosedRuns.

(** ** Writing one slot *)

Lemma Reaches_same_hash Entries Capacity key other Index :
  CkpHashValue key = CkpHashValue other ->
  Reaches Entries Capacity key Index -> Reaches Entries Capacity other Index.
Proof. unfold Reaches, HomeIndex. by intros ->. Qed.

Section OneSlot.
Context {Equality : ValueEquality}.

Lemma DictWf_Searchable Dict : DictWf Dict -> Searchable Dict.
Proof.
  intros [HLen [HC0 HC1] _ HLive HEmpty].
  split_and!; [lia|unfold_constants; lia|lia|done|done].
Qed.

Lemma Searchable_live Dict Index Entry :
  Searchable Dict ->
  ReadEntry (Entries Dict) Index = Some Entry -> IsLive Entry = true ->
  Count Dict <> 0 /\ 0 < Capacity Dict.
Proof.
  intros (HC & HL & HLive & HEmpty) HR HE.
  pose proof (LiveCount_live_slot _ _ _ (ReadEntry_lookup _ _ _ HR) HE).
  pose proof (ReadEntry_Some _ _ _ HR). lia.
Qed.

(** The result of CkpDictGet, from the result of the search. *)
Lemma Get_found Dict key Index Entry :
  CkpDictFindEntry Dict key = Some (EntryAt Index) ->
  ReadEntry (Entries Dict) Index = Some Entry ->
  CkpDictGet Dict key = Some (Value Entry).
Proof. intros HF HR. unfold CkpDictGet. rewrite HF. simpl. by rewrite HR. Qed.

Lemma Get_not_found Dict key :
  CkpDictFindEntry Dict key = Some NULL ->
  CkpDictGet Dict key = Some CK_UNDEFINED_VALUE.
Proof. intros HF. unfold CkpDictGet. by rewrite HF. Qed.

(** The search of a dictionary of [C] slots, in full: NULL, or the first
    slot on the probe path that holds the key. *)
Lemma Searchable_find Dict key C :
  Searchable Dict -> Capacity Dict = C ->
  CkpDictFindEntry Dict key = Some NULL
  \/ exists (j : nat) Entry,
       Z.of_nat j < C
       /\ SkipsUntil (FindSkips key) (Entries Dict) (HomeIndex key C) C j
       /\ Holder (Entries Dict) key (ProbeIndex (HomeIndex key C) C j) Entry
       /\ CkpDictFindEntry Dict key
          = Some (EntryAt (ProbeIndex (HomeIndex key C) C j)).
Proof.
  intros (HC & HL & _ & HEmpty) <-.
  destruct (FindEntry_defined Dict key HC HL HEmpty)
    as [HNull|(j & Entry & Hj & _ & HS & HR & HK & HF)]; [by left|].
  right. exists j, Entry. by split_and!.
Qed.

Lemma Get_cases_searchable Dict key :
  Searchable Dict ->
  CkpDictFindEntry Dict key = Some NULL
  /\ CkpDictGet Dict key = Some CK_UNDEFINED_VALUE
  \/ exists Index Entry,
       Holder (Entries Dict) key Index Entry
       /\ CkpDictFindEntry Dict key = Some (EntryAt Index)
       /\ CkpDictGet Dict key = Some (Value Entry).
Proof.
  intros HS.
  destruct (Searchable_find Dict key (Capacity Dict) HS eq_refl)
    as [HNull|(j & Entry & Hj & _ & [HR HK] & HF)].
  - left. split; [done|]. by apply Get_not_found.
  - right. eexists _, Entry. split; [by split|]. split; [done|].
    by eapply Get_found.
Qed.

Lemma FindEntry_found_at Dict key C (j : nat) Entry :
  Capacity Dict = C -> Count Dict <> 0 -> 0 < C < 2 ^ UINTN_BITS ->
  Z.of_nat j < C ->
  SkipsUntil (FindSkips key) (Entries Dict) (HomeIndex key C) C j ->
  Holder (Entries Dict) key (ProbeIndex (HomeIndex key C) C j) Entry ->
  CkpDictFindEntry Dict key
  = Some (EntryAt (ProbeIndex (HomeIndex key C) C j)).
Proof. intros <- HN HC Hj HS [HR HK]. by eapply FindEntry_found. Qed.

Lemma FindSkips_other key Entry :
  HoldsKey key Entry = false -> IsEmpty Entry = false ->
  FindSkips key Entry = true.
Proof.
  unfold FindSkips, IsTombstone, HoldsOtherKey, HoldsKey, IsEmpty, IsLive.
  destruct (CK_IS_UNDEFINED (Key Entry)), (CK_IS_UNDEFINED (Value Entry)),
    (CkpAreValuesEqual (Key Entry) key); simpl; done.
Qed.

(** A write to one slot does not change the lookup of a key that the slot
    holds neither before nor after, as long as the slot is not Empty
    afterwards and, if it was Empty before, every Live slot was within
    reach of its probe. *)
Lemma Get_after_write Dict Dict' other Changed Old New :
  Searchable Dict -> Searchable Dict' ->
  Capacity Dict' = Capacity Dict ->
  ReadEntry (Entries Dict) Changed = Some Old ->
  Entries Dict' = <[Z.to_nat Changed := New]> (Entries Dict) ->
  HoldsKey other Old = false -> HoldsKey other New = false ->
  IsEmpty New = false ->
  (IsEmpty Old = false
   \/ ProbeClosed (Entries Dict) (Capacity Dict)
      /\ forall Entry, HoldsKey other Entry = true ->
                       CkpHashValue (Key Entry) = CkpHashValue other) ->
  CkpDictGet Dict' other = CkpDictGet Dict other.
Proof.
  intros HS HS' HCap HOld HEntries HKOld HKNew HFull HReach.
  pose proof (ReadEntry_Some _ _ _ HOld) as HChanged.
  pose proof (FindSkips_other _ _ HKNew HFull) as HSkipNew.
  destruct (Searchable_find Dict other (Capacity Dict) HS eq_refl)
    as [HNull|(j & Entry & Hj & HSkips & [HR HK] & HF)].
  - (* not found before: not found after *)
    rewrite (Get_not_found _ _ HNull).
    destruct (Searchable_find Dict' other (Capacity Dict) HS' HCap)
      as [HNull'|(j' & Entry' & Hj' & HSkips' & [HR' HK'] & HF')];
      [by apply Get_not_found|].
    exfalso. rewrite HEntries in HR', HSkips'.
    destruct (ReadEntry_insert_inv _ _ _ _ _ (proj1 HChanged) HR')
      as [[_ ->]|[Hne HR'']]; [congruence|].
    assert (HLive' : IsLive Entry' = true)
      by (by apply andb_true_iff in HK' as [? _]).
    destruct (Searchable_live Dict _ _ HS HR'' HLive') as [HCount HC].
    assert (HFound : CkpDictFindEntry Dict other
                     = Some (EntryAt (ProbeIndex
                                        (HomeIndex other (Capacity Dict))
                                        (Capacity Dict) j'))).
    { destruct HS as (HRange & _).
      eapply FindEntry_found_at; [done|done|lia|done| |done].
      intros i Hi. destruct (HSkips' i Hi) as (Entry & HRi & HSi).
      destruct (ReadEntry_insert_inv _ _ _ _ _ (proj1 HChanged) HRi)
        as [[Heq ->]|[_ HRi']]; [|by exists Entry].
      exists Old. rewrite Heq. split; [done|].
      apply FindSkips_other; [done|].
      destruct HReach as [HOldFull|[HClosed HHash]]; [done|].
      (* the probe of the slot found afterwards went through this slot *)
      destruct (Reaches_same_hash _ _ _ other _ (HHash _ HK')
                  (HClosed _ _ HR'' HLive')) as (j'' & Hj'' & Hp'' & HS'').
      apply ProbeIndex_inj in Hp''; [|lia..]. subst j''.
      destruct (HS'' i Hi) as (Entry & HRi' & HFi).
      rewrite Heq, HOld in HRi'. injection HRi' as <-.
      by destruct (IsEmpty Old). }
    congruence.
  - (* found before: found after, at the same slot *)
    assert (HNe : ProbeIndex (HomeIndex other (Capacity Dict)) (Capacity Dict) j
                  <> Changed)
      by (intros Heq; rewrite Heq in HR; congruence).
    assert (HR' : ReadEntry (Entries Dict')
                    (ProbeIndex (HomeIndex other (Capacity Dict))
                       (Capacity Dict) j) = Some Entry).
    { rewrite HEntries, ReadEntry_insert_ne; [done|lia| |done].
      pose proof (ReadEntry_Some _ _ _ HR). lia. }
    assert (HLive : IsLive Entry = true)
      by (by apply andb_true_iff in HK as [? _]).
    destruct (Searchable_live Dict' _ _ HS' HR' HLive) as [HCount' HC'].
    rewrite (Get_found _ _ _ _ HF HR).
    destruct HS' as (HRange' & _).
    eapply Get_found; [|exact HR'].
    eapply FindEntry_found_at; [done|done|lia|done| |done].
    intros i Hi. destruct (HSkips i Hi) as (Other & HRi & HSi).
    destruct (Z.eq_dec Changed
                (ProbeIndex (HomeIndex other (Capacity Dict))
                   (Capacity Dict) i)) as [Heq|Hneq].
    + exists New. split; [|done].
      rewrite HEntries, <- Heq. by eapply ReadEntry_insert_eq.
    + exists Other. split; [|done].
      rewrite HEntries, ReadEntry_insert_ne; [done|lia| |done].
      pose proof (ReadEntry_Some _ _ _ HRi). lia.
Qed.

End OneSlot.

(** ** Lookups across one call *)

Section Lookups.
Context {Equality : ValueEquality}.

(** CkpDictGet looks at Count only to see whether it is 0, which a
    searchable dictionary with a Live slot rules out. *)
Lemma Get_same_array Dict Dict' key :
  Searchable Dict -> Searchable Dict' ->
  Capacity Dict' = Capacity Dict -> Entries Dict' = Entries Dict ->
  CkpDictGet Dict' key = CkpDictGet Dict key.
Proof.
  intros HS HS' HCap HEntries.
  assert (HOne : forall D D', Searchable D -> Searchable D' ->
            Capacity D' = Capacity D -> Entries D' = Entries D ->
            forall Index Entry,
              CkpDictFindEntry D key = Some (EntryAt Index) ->
              ReadEntry (Entries D) Index = Some Entry ->
              CkpDictGet D' key = Some (Value Entry)).
  { clear. intros D D' HS HS' HCap HEntries Index Entry HF HR.
    destruct (Searchable_find D key (Capacity D) HS eq_refl)
      as [HNull|(j & Found & Hj & HSkips & [HRj HK] & HF')]; [congruence|].
    rewrite HF in HF'. injection HF' as ->.
    rewrite HR in HRj. injection HRj as <-.
    assert (HLive : IsLive Entry = true)
      by (by apply andb_true_iff in HK as [? _]).
    rewrite <- HEntries in HR, HSkips.
    destruct (Searchable_live D' _ _ HS' HR HLive) as [HCount' HC'].
    destruct HS' as (HRange' & _).
    eapply Get_found; [|exact HR].
    eapply FindEntry_found_at; [done|done|lia|done|done|done]. }
  destruct (Get_cases_searchable Dict key HS)
    as [[HNull HGet]|(Index & Entry & [HR HK] & HF & HGet)].
  - rewrite HGet.
    destruct (Get_cases_searchable Dict' key HS')
      as [[HNull' HGet']|(Index' & Entry' & [HR' HK'] & HF' & HGet')];
      [done|].
    pose proof (HOne Dict' Dict HS' HS (eq_sym HCap) (eq_sym HEntries)
                  _ _ HF' HR') as HBack.
    rewrite HGet'. congruence.
  - rewrite HGet. exact (HOne Dict Dict' HS HS' HCap HEntries _ _ HF HR).
Qed.

(** CkpDictAddEntry of one key does not change the lookup of another. *)
Lemma AddEntry_keeps_lookup Dict key value other Array New NewCount :
  EqualityLaws ->
  Searchable Dict -> ProbeClosed (Entries Dict) (Capacity Dict) ->
  CK_IS_UNDEFINED key = false ->
  CkpAreValuesEqual key other = false ->
  CkpDictAddEntry (Entries Dict) (Capacity Dict) key value
  = Some (Array, New) ->
  LiveCount Array <= NewCount ->
  CkpDictGet {| Count := NewCount; Capacity := Capacity Dict;
                Entries := Array |} other
  = CkpDictGet Dict other.
Proof.
  intros HLaws HS HClosed HK HDiffer HAdd HCount.
  pose proof HS as (HRange & HLen & HLive & HEmpty).
  destruct (Z.eq_dec (Capacity Dict) 0) as [H0|H0].
  { unfold CkpDictAddEntry in HAdd. by rewrite H0 in HAdd. }
  destruct (AddEntry_outcome (Entries Dict) (Capacity Dict) key value)
    as (Result & HAdd' & HOut); [lia|done|].
  rewrite HAdd in HAdd'.
  destruct (AddEntryOutcome_effect _ _ _ _ _ HOut) as [HLen' _].
  assert (HS' : Searchable {| Count := NewCount; Capacity := Capacity Dict;
                              Entries := Array |}).
  { injection HAdd' as <-. simpl in HLen'.
    split_and!; simpl; [lia|lia|lia|done|lia]. }
  assert (HBoth : forall Entry,
            HoldsKey key Entry = true -> HoldsKey other Entry = false).
  { intros Entry [HL HE]%andb_true_iff.
    unfold HoldsKey. rewrite HL. simpl.
    destruct (CkpAreValuesEqual (Key Entry) other) eqn:HO; [|done].
    apply (equal_sym HLaws) in HE.
    by rewrite (equal_trans HLaws _ _ _ HE HO) in HDiffer. }
  assert (HHash : forall Entry, HoldsKey other Entry = true ->
                                CkpHashValue (Key Entry) = CkpHashValue other).
  { intros Entry [_ HE]%andb_true_iff. by apply (equal_hash HLaws). }
  destruct HOut as [j Old Hj HSk HR HFree|j Old Hj HSk HR HM|HSk];
    injection HAdd' as -> ->.
  - eapply (Get_after_write Dict _ other _ Old); [done..| | | |].
    + unfold HoldsKey. by rewrite HFree.
    + unfold HoldsKey, IsLive. simpl. by rewrite HK, HDiffer.
    + unfold IsEmpty. simpl. by rewrite HK.
    + by right.
  - eapply (Get_after_write Dict _ other _ Old); [done..| | | |].
    + by apply HBoth.
    + apply HBoth in HM. revert HM. unfold HoldsKey, IsLive. by simpl.
    + apply andb_true_iff in HM as [HL _]. unfold IsEmpty, IsLive in *.
      simpl. by destruct (CK_IS_UNDEFINED (Key Old)).
    + by right.
  - by apply Get_same_array.
Qed.

(** Turning a Live slot that does not hold a key into a Tombstone does not
    change the lookup of the key. *)
Lemma Tombstone_keeps_lookup Dict other Index Found :
  DictWf Dict -> Count Dict <> 0 ->
  ReadEntry (Entries Dict) Index = Some Found -> IsLive Found = true ->
  HoldsKey other Found = false ->
  CkpDictGet {| Count := Count Dict - 1; Capacity := Capacity Dict;
                Entries := <[Z.to_nat Index := DeletedEntry]> (Entries Dict) |}
    other
  = CkpDictGet Dict other.
Proof.
  intros HWf HCount HR HLive HOther.
  eapply (Get_after_write Dict _ other Index Found);
    [by apply DictWf_Searchable| |done..| |done|done|].
  - apply DictWf_Searchable. by eapply Tombstone_DictWf.
  - done.
  - left. unfold IsEmpty, IsLive in *.
    by destruct (CK_IS_UNDEFINED (Key Found)).
Qed.

End Lookups.

(** ** Lookups across a resize *)

Lemma entry_eta (Entry : CK_DICT_ENTRY) :
  {| Key := Key Entry; Value := Value Entry |} = Entry.
Proof. by destruct Entry. Qed.

Lemma LiveCount_take_S Entries (i : nat) Entry :
  Entries !! i = Some Entry ->
  LiveCount (take (S i) Entries)
  = LiveCount (take i Entries) + (if IsLive Entry then 1 else 0).
Proof.
  intros HE. rewrite (take_S_r _ _ _ HE), LiveCount_app, LiveCount_cons,
    LiveCount_nil. lia.
Qed.

Lemma LiveCount_take Entries (i : nat) :
  LiveCount (take i Entries) <= LiveCount Entries.
Proof.
  rewrite <- (take_drop i Entries) at 2. rewrite LiveCount_app.
  pose proof (LiveCount_range (drop i Entries)). lia.
Qed.

Section ResizeLookups.
Context {Equality : ValueEquality}.

(** With closed probe paths and no key stored twice, the slot that holds a
    key is the slot the search returns. *)
Lemma Find_holder Dict key Index Entry :
  EqualityLaws -> Searchable Dict ->
  ProbeClosed (Entries Dict) (Capacity Dict) -> DistinctKeys (Entries Dict) ->
  Holder (Entries Dict) key Index Entry ->
  CkpDictFindEntry Dict key = Some (EntryAt Index).
Proof.
  intros HLaws HS HClosed HDistinct [HR HK].
  pose proof HK as [HLive HE]%andb_true_iff.
  destruct (Searchable_live _ _ _ HS HR HLive) as [HCount HCap].
  destruct HS as (HRange & _).
  apply (Find_unique_holder Dict key Index Entry); [done|lia|done| |].
  - apply (Reaches_same_hash _ _ (Key Entry)); [by apply (equal_hash HLaws)|].
    by apply HClosed.
  - intros Other OtherEntry [HR' [HLive' HE']%andb_true_iff].
    apply (HDistinct _ _ _ _ HR' HR HLive' HLive).
    apply (equal_trans HLaws _ key); [done|]. by apply (equal_sym HLaws).
Qed.

Lemma Get_same_entries Dict Dict' key :
  EqualityLaws -> Searchable Dict -> Searchable Dict' ->
  ProbeClosed (Entries Dict) (Capacity Dict) ->
  ProbeClosed (Entries Dict') (Capacity Dict') ->
  DistinctKeys (Entries Dict) -> DistinctKeys (Entries Dict') ->
  SameLiveEntries (Entries Dict) (Entries Dict') ->
  CkpDictGet Dict' key = CkpDictGet Dict key.
Proof.
  intros HLaws HS HS' HC HC' HD HD' HSame.
  assert (HMove : forall D D' Index Entry,
            SameLiveEntries (Entries D) (Entries D') ->
            Holder (Entries D) key Index Entry ->
            exists Index', Holder (Entries D') key Index' Entry).
  { intros D D' Index Entry HSm [HR HK].
    pose proof HK as [HLive _]%andb_true_iff.
    destruct (proj1 (HSm Entry)) as [_ [Index' HR']];
      [split; [done|by exists Index]|].
    by exists Index'. }
  destruct (Get_cases_searchable Dict key HS)
    as [[HNull HGet]|(Index & Entry & HHolder & HF & HGet)].
  - rewrite HGet.
    destruct (Get_cases_searchable Dict' key HS')
      as [[HNull' HGet']|(Index' & Entry' & HHolder' & HF' & HGet')];
      [done|].
    destruct (HMove Dict' Dict Index' Entry') as [Back HBack]; [|done|].
    { intros E. symmetry. apply HSame. }
    pose proof (Find_holder Dict key Back Entry' HLaws HS HC HD HBack).
    congruence.
  - rewrite HGet.
    destruct (HMove Dict Dict' Index Entry HSame HHolder) as [Index' HH'].
    eapply Get_found; [|exact (proj1 HH')].
    by eapply Find_holder.
Qed.

Lemma ResizeInvariant_start Old NewCapacity :
  0 <= NewCapacity ->
  ResizeInvariant Old 0 NewCapacity
    (replicate (Z.to_nat NewCapacity) ZeroEntry).
Proof.
  intros HN. split_and!.
  - rewrite length_replicate. lia.
  - intros Left Right LeftEntry RightEntry HL _ HLive.
    apply ReadEntry_replicate in HL. by subst.
  - intros Entry [HLive [Index HR]].
    apply ReadEntry_replicate in HR. by subst.
  - intros k Entry Hk. lia.
  - rewrite LiveCount_replicate.
    pose proof (LiveCount_range (take (Z.to_nat 0) Old)). lia.
Qed.

Lemma ResizeInvariant_step Old Index NewCapacity New OldEntry :
  0 < NewCapacity < 2 ^ UINTN_BITS ->
  DistinctKeys Old -> LiveCount Old <= NewCapacity ->
  ReadEntry Old Index = Some OldEntry ->
  ResizeInvariant Old Index NewCapacity New ->
  exists New',
    (if negb (CK_IS_UNDEFINED (Key OldEntry)) then
       fst <$> CkpDictAddEntry New NewCapacity (Key OldEntry) (Value OldEntry)
     else Some New) = Some New'
    /\ ResizeInvariant Old (Index + 1) NewCapacity New'.
Proof.
  intros HCap HDistinct HFits HR (HLen & HD & HFrom & HPresent & HCount).
  pose proof (ReadEntry_Some _ _ _ HR) as HIndex.
  pose proof (ReadEntry_lookup _ _ _ HR) as HLookup.
  assert (HSucc : Z.to_nat (Index + 1) = S (Z.to_nat Index)) by lia.
  pose proof (LiveCount_take_S _ _ _ HLookup) as HTake.
  pose proof (LiveCount_take Old (S (Z.to_nat Index))) as HAll.
  destruct (IsLive OldEntry) eqn:HLive.
  2:{ exists New. unfold IsLive in HLive. rewrite HLive. split; [done|].
      split_and!; [done|done| | |].
      - intros Entry HE. destruct (HFrom _ HE) as (k & Hk & HRk).
        exists k. split; [lia|done].
      - intros k Entry Hk HRk HLk.
        destruct (Z.eq_dec k Index) as [->|Hne].
        + rewrite HR in HRk. injection HRk as <-.
          unfold IsLive in HLk. by rewrite HLk in HLive.
        + apply (HPresent k); [lia|done|done].
      - rewrite HSucc, HTake. lia. }
  pose proof HLive as HLive0. unfold IsLive in HLive0. rewrite HLive0.
  destruct (AddEntry_outcome New NewCapacity (Key OldEntry) (Value OldEntry))
    as (Result & HAdd & HOut); [done|done|].
  rewrite HAdd. simpl.
  destruct HOut as [j Free Hj HSk HRj HFree|j Same Hj HSk HRj HSame|HFull].
  - rewrite entry_eta. eexists. split; [done|]. simpl.
    pose proof (ProbeIndex_range (HomeIndex (Key OldEntry) NewCapacity)
                  NewCapacity j ltac:(lia)) as HP.
    set (Slot := ProbeIndex (HomeIndex (Key OldEntry) NewCapacity)
                   NewCapacity j) in *.
    assert (HNew : forall Entry, LiveEntry (<[Z.to_nat Slot := OldEntry]> New)
                                   Entry ->
                                 Entry = OldEntry \/ LiveEntry New Entry).
    { intros Entry [HL [At HAt]].
      destruct (ReadEntry_insert_inv _ _ _ _ _ (proj1 HP) HAt)
        as [[_ ->]|[_ HOld]]; [by left|].
      right. split; [done|by exists At]. }
    split_and!.
    + rewrite length_insert. done.
    + intros Left Right LeftEntry RightEntry HL HRt HLL HLR HEq.
      destruct (ReadEntry_insert_inv _ _ _ _ _ (proj1 HP) HL)
        as [[-> ->]|[HnL HL']];
      destruct (ReadEntry_insert_inv _ _ _ _ _ (proj1 HP) HRt)
        as [[-> ->]|[HnR HR']]; [done| | |by eapply HD].
      * destruct (HFrom RightEntry) as (k & Hk & HRk);
          [split; [done|by exists Right]|].
        pose proof (HDistinct _ _ _ _ HR HRk HLive HLR HEq). lia.
      * destruct (HFrom LeftEntry) as (k & Hk & HRk);
          [split; [done|by exists Left]|].
        pose proof (HDistinct _ _ _ _ HRk HR HLL HLive HEq). lia.
    + intros Entry HE. destruct (HNew _ HE) as [->|HOld].
      * exists Index. split; [lia|done].
      * destruct (HFrom _ HOld) as (k & Hk & HRk).
        exists k. split; [lia|done].
    + intros k Entry Hk HRk HLk.
      destruct (Z.eq_dec k Index) as [->|Hne].
      * rewrite HR in HRk. injection HRk as <-.
        split; [done|]. exists Slot. by eapply ReadEntry_insert_eq.
      * destruct (HPresent k Entry) as [_ [At HAt]]; [lia|done|done|].
        split; [done|]. exists At.
        rewrite ReadEntry_insert_ne; [done|lia| |].
        -- pose proof (ReadEntry_Some _ _ _ HAt). lia.
        -- intros <-. rewrite HRj in HAt. injection HAt as ->.
           by rewrite HLk in HFree.
    + rewrite (LiveCount_insert _ _ Free); [|by apply ReadEntry_lookup].
      rewrite HFree, HLive, HSucc, HTake. lia.
  - exfalso. pose proof HSame as [HLS HES]%andb_true_iff.
    destruct (HFrom Same) as (k & Hk & HRk); [split; [done|by eexists]|].
    pose proof (HDistinct _ _ _ _ HRk HR HLS HLive HES). lia.
  - exfalso. apply (not_TableFull New NewCapacity (Key OldEntry)); [lia|done| |done].
    rewrite HTake in HAll. lia.
Qed.

Lemma Resize_loop_invariant Old NewCapacity :
  0 < NewCapacity < 2 ^ UINTN_BITS ->
  DistinctKeys Old -> LiveCount Old <= NewCapacity ->
  forall (Loop : nat) Dict Index New,
    Entries Dict = Old -> 0 <= Index ->
    Index + Z.of_nat Loop = Z.of_nat (length Old) ->
    ResizeInvariant Old Index NewCapacity New ->
    exists Result,
      CkpDictResize_loop Loop Dict Index New NewCapacity = Some Result
      /\ ResizeInvariant Old (Z.of_nat (length Old)) NewCapacity Result.
Proof.
  intros HCap HDistinct HFits Loop.
  induction Loop as [|Loop IH]; intros Dict Index New HOld HIndex HEnd HInv.
  - exists New. split; [done|]. by replace (Z.of_nat (length Old)) with Index by lia.
  - destruct (ReadEntry_in_range Old Index) as [OldEntry HR]; [lia|].
    destruct (ResizeInvariant_step _ _ _ _ _ HCap HDistinct HFits HR HInv)
      as (New' & HStep & HInv').
    destruct (IH Dict (Index + 1) New') as (Result & HLoop & HResult);
      [done|lia|lia|done|].
    exists Result. split; [|done].
    simpl. rewrite HOld, HR. simpl. rewrite HStep. simpl. exact HLoop.
Qed.

(** The array CkpDictResize installs holds the Live entries of the old one,
    each once, when they fit. *)
Lemma Resize_same_entries Vm Dict NewCapacity Vm' Dict' :
  0 < NewCapacity < 2 ^ UINTN_BITS ->
  0 <= Capacity Dict ->
  Z.of_nat (length (Entries Dict)) = Capacity Dict ->
  DistinctKeys (Entries Dict) ->
  LiveCount (Entries Dict) <= NewCapacity ->
  CkpDictResize Vm Dict NewCapacity = Some (Vm', Dict') ->
  SameLiveEntries (Entries Dict) (Entries Dict')
  /\ DistinctKeys (Entries Dict')
  /\ LiveCount (Entries Dict') <= LiveCount (Entries Dict)
  /\ Z.of_nat (length (Entries Dict')) = Capacity Dict'.
Proof.
  intros HCap HC HLen HDistinct HFits HRes.
  destruct (Resize_inv _ _ _ _ _ HRes) as [->|(NewEntries & HLoop & ->)].
  { split_and!; [done|done|lia|done]. }
  destruct (Resize_loop_invariant (Entries Dict) NewCapacity HCap HDistinct
              HFits (Z.to_nat (Capacity Dict)) Dict 0
              (replicate (Z.to_nat NewCapacity) ZeroEntry))
    as (Result & HLoop' & HL & HD & HFrom & HPresent & HCount);
    [done|lia|lia|apply ResizeInvariant_start; lia|].
  rewrite HLoop in HLoop'. injection HLoop' as <-. simpl.
  split_and!; [|done| |done].
  - intros Entry. split.
    + intros [HLive [Index HR]].
      pose proof (ReadEntry_Some _ _ _ HR). by apply (HPresent Index).
    + intros HE. pose proof HE as [HLive _].
      destruct (HFrom _ HE) as (k & _ & HRk). split; [done|by exists k].
  - rewrite Nat2Z.id, firstn_all in HCount. done.
Qed.

End ResizeLookups.

(** ** Lookups across Set and Remove *)

Section CallLookups.
Context {Equality : ValueEquality}.

Lemma Get_no_holder Dict key :
  Searchable Dict -> NoHolder (Entries Dict) key ->
  CkpDictGet Dict key = Some CK_UNDEFINED_VALUE.
Proof.
  intros HS HNo.
  destruct (Get_cases_searchable Dict key HS)
    as [[_ HGet]|(Index & Entry & [HR HK] & _)]; [done|].
  by rewrite (HNo _ _ HR) in HK.
Qed.

(** A resize that has room for the Live entries keeps every lookup. *)
Lemma Resize_keeps_lookup Vm Dict NewCapacity Vm' Dict' key :
  EqualityLaws -> Searchable Dict ->
  ProbeClosed (Entries Dict) (Capacity Dict) -> DistinctKeys (Entries Dict) ->
  0 < NewCapacity < 2 ^ UINTN_BITS ->
  LiveCount (Entries Dict) <= NewCapacity ->
  CkpDictResize Vm Dict NewCapacity = Some (Vm', Dict') ->
  Searchable Dict'
  /\ DistinctKeys (Entries Dict')
  /\ CkpDictGet Dict' key = CkpDictGet Dict key.
Proof.
  intros HLaws HS HClosed HDistinct HN HFits HRes.
  pose proof HS as (HRange & HLen & HLive & HEmpty).
  destruct (Resize_same_entries _ _ _ _ _ HN (proj1 HRange) HLen HDistinct
              HFits HRes) as (HSame & HD' & HCount & HLen').
  destruct (Resize_shape _ _ _ _ _ HRes) as (_ & HCnt & HCap).
  assert (HS' : Searchable Dict').
  { destruct HCap as [->|HCap]; [done|].
    split_and!; lia. }
  split; [done|]. split; [done|].
  apply Get_same_entries; [done..| |done|done|done].
  by eapply Resize_ProbeClosed.
Qed.

(** The key a call removes or sets is not the key looked up. *)
Lemma other_key_holder key other Entry :
  EqualityLaws -> CkpAreValuesEqual key other = false ->
  HoldsKey key Entry = true -> HoldsKey other Entry = false.
Proof.
  intros HLaws HDiffer [HL HE]%andb_true_iff.
  unfold HoldsKey. rewrite HL. simpl.
  destruct (CkpAreValuesEqual (Key Entry) other) eqn:HO; [|done].
  apply (equal_sym HLaws) in HE.
  by rewrite (equal_trans HLaws _ _ _ HE HO) in HDiffer.
Qed.

Lemma AddEntry_NoTombstone Entries Capacity key value Entries' New :
  0 < Capacity < 2 ^ UINTN_BITS -> Z.of_nat (length Entries) = Capacity ->
  CK_IS_UNDEFINED key = false ->
  NoTombstone Entries ->
  CkpDictAddEntry Entries Capacity key value = Some (Entries', New) ->
  NoTombstone Entries'.
Proof.
  intros HC HL HK HNo HAdd.
  destruct (AddEntry_outcome Entries Capacity key value HC HL)
    as (Result & HAdd' & HOut).
  rewrite HAdd in HAdd'.
  destruct HOut as [j Old Hj HSk HR HFree|j Old Hj HSk HR HM|HSk];
    injection HAdd' as -> ->; [| |done].
  - intros Index Entry HRI.
    destruct (ReadEntry_insert_inv _ _ _ _ _
                (proj1 (ProbeIndex_range (HomeIndex key Capacity)
                         Capacity j ltac:(lia))) HRI)
      as [[_ ->]|[_ HOld]]; [|by eapply HNo].
    unfold IsTombstone. simpl. by rewrite HK.
  - intros Index Entry HRI.
    destruct (ReadEntry_insert_inv _ _ _ _ _
                (proj1 (ProbeIndex_range (HomeIndex key Capacity)
                         Capacity j ltac:(lia))) HRI)
      as [[_ ->]|[_ HOld]]; [|by eapply HNo].
    apply andb_true_iff in HM as [HLive _].
    unfold IsTombstone, IsLive in *. simpl.
    by destruct (CK_IS_UNDEFINED (Key Old)).
Qed.

(** A resize that gets its array leaves no Tombstone. *)
Lemma Resize_NoTombstone Vm Dict NewCapacity Vm' Dict' :
  0 < NewCapacity < 2 ^ UINTN_BITS ->
  CkpDictResize Vm Dict NewCapacity = Some (Vm', Dict') ->
  Dict' = Dict \/ NoTombstone (Entries Dict').
Proof.
  intros HN HRes.
  destruct (Resize_inv _ _ _ _ _ HRes) as [->|(NewEntries & HLoop & ->)];
    [by left|right]. simpl.
  apply (Resize_loop_keeps
           (fun Array => Z.of_nat (length Array) = NewCapacity
                         /\ NoTombstone Array)
           Dict NewCapacity) in HLoop.
  - by destruct HLoop.
  - intros Array Index OldEntry Array' New [HL HP] HR HLive HAdd. split.
    + by rewrite (AddEntry_length _ _ _ _ _ _ HN HL HAdd).
    + eapply AddEntry_NoTombstone; [done..| |done|done].
      unfold IsLive in HLive. by destruct (CK_IS_UNDEFINED (Key OldEntry)).
  - split; [rewrite length_replicate; lia|].
    intros Index Entry HR. apply ReadEntry_replicate in HR. by subst.
Qed.

Lemma Set_grown Vm Dict key value Vm' Dict' :
  EqualityLaws -> DictWf Dict ->
  ProbeClosed (Entries Dict) (Capacity Dict) -> DistinctKeys (Entries Dict) ->
  CkpDictSet Vm Dict key value = Some (Vm', Dict') ->
  exists Dict1 New,
    Searchable Dict1
    /\ ProbeClosed (Entries Dict1) (Capacity Dict1)
    /\ DistinctKeys (Entries Dict1)
    /\ (Dict1 = Dict \/ NoTombstone (Entries Dict1))
    /\ (forall other, CkpDictGet Dict1 other = CkpDictGet Dict other)
    /\ Count Dict1 = Count Dict
    /\ (NoAllocationFailure Vm ->
        NoAllocationFailure Vm' /\ LiveCount (Entries Dict1) < Capacity Dict1)
    /\ 0 < Capacity Dict1
    /\ CkpDictAddEntry (Entries Dict1) (Capacity Dict1) key value
       = Some (Entries Dict', New)
    /\ Capacity Dict' = Capacity Dict1
    /\ Count Dict' = (if New then UINTN_cast (Count Dict1 + 1)
                      else Count Dict1).
Proof.
  intros HLaws HWf HClosed HDistinct HSet.
  destruct (Set_inv _ _ _ _ _ _ HSet)
    as (Dict1 & New & HGrow & HAdd & HCap & HCount).
  exists Dict1, New.
  pose proof (DictWf_Searchable _ HWf) as HS.
  pose proof (LiveCount_range (Entries Dict)) as HLR.
  assert (H1 : Searchable Dict1
               /\ ProbeClosed (Entries Dict1) (Capacity Dict1)
               /\ DistinctKeys (Entries Dict1)
               /\ (Dict1 = Dict \/ NoTombstone (Entries Dict1))
               /\ (forall other,
                     CkpDictGet Dict1 other = CkpDictGet Dict other)
               /\ Count Dict1 = Count Dict
               /\ (NoAllocationFailure Vm ->
                   NoAllocationFailure Vm'
                   /\ LiveCount (Entries Dict1) < Capacity Dict1)).
  { destruct HGrow as [(-> & -> & HStay)|(NewCapacity & HEq & HNew & _ & HRes)].
    { split_and!; [done|done|done|by left|done|done|].
      intros HNoFail. split; [done|].
      destruct HWf as [_ [HC0 HC1] [HN0 HN1] HLive _].
      rewrite !UINTN_cast_small in HStay by (unfold_constants; lia).
      assert (Capacity Dict * DICT_LOAD_FACTOR / 1024 <= Capacity Dict)
        by (apply Z.div_le_upper_bound; unfold_constants; lia).
      lia. }
    assert (HN : 0 < NewCapacity < 2 ^ UINTN_BITS)
      by (unfold_constants; lia).
    assert (HGrown : Capacity Dict < NewCapacity).
    { destruct HWf as [_ [HC0 HC1] _ _ _].
      rewrite UINTN_cast_small in HEq; unfold_constants; lia. }
    assert (HFits : LiveCount (Entries Dict) <= NewCapacity).
    { destruct HS as (_ & HLen & _). lia. }
    destruct (Resize_keeps_lookup _ _ _ _ _ CK_NULL_VALUE HLaws HS HClosed
                HDistinct HN HFits HRes) as (HS1 & HD1 & _).
    split_and!; [done| |done| | | |].
    - by eapply Resize_ProbeClosed.
    - destruct (Resize_NoTombstone _ _ _ _ _ HN HRes); [by left|by right].
    - intros other.
      by destruct (Resize_keeps_lookup _ _ _ _ _ other HLaws HS HClosed
                     HDistinct HN HFits HRes) as (_ & _ & ?).
    - by destruct (Resize_shape _ _ _ _ _ HRes) as (_ & ? & _).
    - intros HNoFail.
      destruct HS as (HRange & HLen & _).
      destruct (Resize_defined Vm Dict NewCapacity HN)
        as (Vm2 & Dict2 & HRes2 & _ & _ & HKeep & _ & HDone); [lia|lia|].
      rewrite HRes in HRes2. injection HRes2 as <- <-.
      split; [by apply HKeep|].
      destruct (HDone HNoFail) as (-> & _ & HLess). lia. }
  destruct H1 as (HS1 & HC1 & HD1 & HT1 & HG1 & HCnt1 & HFree).
  split_and!; [done..| |done|done|done].
  destruct (Z.eq_dec (Capacity Dict1) 0) as [H0|H0].
  { unfold CkpDictAddEntry in HAdd. by rewrite H0 in HAdd. }
  destruct HS1 as (? & _). lia.
Qed.

(** CkpDictSet of one key keeps the lookup of every other key. *)
Lemma Set_keeps_lookup Vm Dict key value Vm' Dict' other :
  EqualityLaws -> DictWf Dict ->
  ProbeClosed (Entries Dict) (Capacity Dict) -> DistinctKeys (Entries Dict) ->
  CK_IS_UNDEFINED key = false ->
  CkpAreValuesEqual key other = false ->
  CkpDictSet Vm Dict key value = Some (Vm', Dict') ->
  CkpDictGet Dict' other = CkpDictGet Dict other.
Proof.
  intros HLaws HWf HClosed HDistinct HK HDiffer HSet.
  destruct (Set_grown _ _ _ _ _ _ HLaws HWf HClosed HDistinct HSet)
    as (Dict1 & New & HS1 & HC1 & HD1 & _ & HG1 & HCnt1 & _ & HPos & HAdd
        & HCap & HCount).
  rewrite <- HG1.
  pose proof HS1 as (HRange & HLen & HLive & _).
  destruct (AddEntry_outcome (Entries Dict1) (Capacity Dict1) key value)
    as (Result & HAdd' & HOut); [lia|done|].
  rewrite HAdd in HAdd'. injection HAdd' as <-.
  destruct (AddEntryOutcome_effect _ _ _ _ _ HOut) as [_ HEffect].
  simpl in HEffect.
  destruct HWf as [_ _ [HC0 HC1'] _ _].
  rewrite <- (AddEntry_keeps_lookup Dict1 key value other (Entries Dict') New
                (Count Dict') HLaws HS1 HC1 HK HDiffer HAdd).
  - destruct Dict'. simpl in *. by subst.
  - rewrite HCount. destruct New; [|lia].
    rewrite UINTN_cast_small; lia.
Qed.

Lemma Resize_NoHolder Vm Dict NewCapacity Vm' Dict' key :
  0 < NewCapacity < 2 ^ UINTN_BITS ->
  NoHolder (Entries Dict) key ->
  CkpDictResize Vm Dict NewCapacity = Some (Vm', Dict') ->
  NoHolder (Entries Dict') key.
Proof.
  intros HN HNo HRes.
  destruct (Resize_inv _ _ _ _ _ HRes) as [->|(NewEntries & HLoop & ->)];
    [done|]. simpl.
  apply (Resize_loop_keeps
           (fun Array => Z.of_nat (length Array) = NewCapacity
                         /\ NoHolder Array key)
           Dict NewCapacity) in HLoop.
  - by destruct HLoop.
  - intros Array Index OldEntry Array' New [HL HP] HR HLive HAdd. split.
    { by rewrite (AddEntry_length _ _ _ _ _ _ HN HL HAdd). }
    destruct (AddEntry_outcome Array NewCapacity (Key OldEntry)
                (Value OldEntry) HN HL) as (Result & HAdd' & HOut).
    rewrite HAdd in HAdd'.
    destruct HOut as [j Old Hj HSk HRj HFree|j Old Hj HSk HRj HM|HSk];
      injection HAdd' as -> ->; [| |done].
    + intros At Entry HAt.
      destruct (ReadEntry_insert_inv _ _ _ _ _
                  (proj1 (ProbeIndex_range
                            (HomeIndex (Key OldEntry) NewCapacity)
                            NewCapacity j ltac:(lia))) HAt)
        as [[_ ->]|[_ HOld]]; [|by eapply HP].
      rewrite entry_eta. by eapply HNo.
    + intros At Entry HAt.
      destruct (ReadEntry_insert_inv _ _ _ _ _
                  (proj1 (ProbeIndex_range
                            (HomeIndex (Key OldEntry) NewCapacity)
                            NewCapacity j ltac:(lia))) HAt)
        as [[_ ->]|[_ HOld]]; [|by eapply HP].
      exact (HP _ _ HRj).
  - split; [rewrite length_replicate; lia|].
    intros Index Entry HR. apply ReadEntry_replicate in HR. by subst.
Qed.

Lemma DistinctKeys_tombstone Entries Index :
  0 <= Index -> DistinctKeys Entries ->
  DistinctKeys (<[Z.to_nat Index := DeletedEntry]> Entries).
Proof.
  intros HI HD Left Right LeftEntry RightEntry HL HR HLL HLR HEq.
  destruct (ReadEntry_insert_inv _ _ _ _ _ HI HL) as [[_ ->]|[_ HL']];
    [done|].
  destruct (ReadEntry_insert_inv _ _ _ _ _ HI HR) as [[_ ->]|[_ HR']];
    [done|].
  by eapply HD.
Qed.

(** What CkpDictRemove does to a dictionary that holds the key: the slot
    found becomes a Tombstone, and the array may then be resized. *)
Lemma Remove_found Vm Dict key Vm' Dict' value :
  DictWf Dict ->
  CkpDictRemove Vm Dict key = Some (Vm', Dict', value) ->
  CkpDictFindEntry Dict key = Some NULL /\ Dict' = Dict
  \/ exists Index Found Marked,
       Holder (Entries Dict) key Index Found
       /\ value = Value Found
       /\ Count Dict <> 0
       /\ Marked = {| Count := Count Dict - 1; Capacity := Capacity Dict;
                      Entries := <[Z.to_nat Index := DeletedEntry]>
                                   (Entries Dict) |}
       /\ DictWf Marked
       /\ (Dict' = Marked
           \/ exists Vm1 Vm2,
                DICT_MIN_CAPACITY < Capacity Dict
                /\ CkpDictResize Vm1 Marked
                     (Z.max (Capacity Dict / DICT_GROW_FACTOR)
                        DICT_MIN_CAPACITY)
                   = Some (Vm2, Dict')).
Proof.
  intros HWf HRem.
  destruct (Remove_inv _ _ _ _ _ _ HRem)
    as [[HNull ->]|(Index & Found & HF & HR & -> & HCases)]; [by left|].
  right. exists Index, Found. eexists. 
  destruct (Get_cases Dict key HWf)
    as [[HNull _]|(Index' & Entry & [HR' HK] & HF' & _)]; [congruence|].
  rewrite HF in HF'. injection HF' as <-.
  rewrite HR in HR'. injection HR' as <-.
  pose proof HK as [HLive _]%andb_true_iff.
  destruct (Searchable_live _ _ _ (DictWf_Searchable _ HWf) HR HLive)
    as [HCount _].
  assert (HCast : UINTN_cast (Count Dict - 1) = Count Dict - 1).
  { destruct HWf as [_ _ [HC0 HC1] _ _]. apply UINTN_cast_small. lia. }
  rewrite HCast in HCases.
  split_and!; [by split|done|done|done| |done].
  by eapply Tombstone_DictWf.
Qed.

(** After CkpDictRemove the key is not found, if it was stored once. *)
Lemma Remove_then_Get_absent Vm Dict key Vm' Dict' value :
  EqualityLaws -> DictWf Dict -> DistinctKeys (Entries Dict) ->
  CkpDictRemove Vm Dict key = Some (Vm', Dict', value) ->
  CkpDictGet Dict' key = Some CK_UNDEFINED_VALUE.
Proof.
  intros HLaws HWf HDistinct HRem.
  pose proof (Remove_preserves_DictWf _ _ _ _ _ _ HWf HRem) as HWf'.
  destruct (Remove_found _ _ _ _ _ _ HWf HRem)
    as [[HNull ->]|(Index & Found & Marked & [HR HK] & _ & HCount & HM & HWfM
                    & HCases)];
    [by apply Get_not_found|].
  pose proof (ReadEntry_Some _ _ _ HR) as HI.
  pose proof HK as [HLive HE]%andb_true_iff.
  assert (HNo : NoHolder (Entries Marked) key).
  { subst Marked. simpl. intros At Entry HAt.
    destruct (ReadEntry_insert_inv _ _ _ _ _ (proj1 HI) HAt)
      as [[_ ->]|[HNe HOld]]; [done|].
    destruct (HoldsKey key Entry) eqn:HK'; [exfalso|done].
    pose proof HK' as [HLive' HE']%andb_true_iff.
    apply HNe. apply (HDistinct _ _ _ _ HOld HR HLive' HLive).
    apply (equal_trans HLaws _ key); [done|]. by apply (equal_sym HLaws). }
  apply Get_no_holder; [by apply DictWf_Searchable|].
  destruct HCases as [->|(Vm1 & Vm2 & HBig & HRes)]; [done|].
  eapply Resize_NoHolder; [|exact HNo|exact HRes].
  destruct HWf as [_ [HC0 HC1] _ _ _]. unfold_constants.
  assert (Capacity Dict / 2 <= Capacity Dict)
    by (apply Z.div_le_upper_bound; lia). lia.
Qed.

(** CkpDictRemove of one key keeps the lookup of every other key, as long
    as the entries left fit the array a shrink installs. *)
Lemma Remove_keeps_lookup Vm Dict key Vm' Dict' value other :
  EqualityLaws -> DictWf Dict ->
  ProbeClosed (Entries Dict) (Capacity Dict) -> DistinctKeys (Entries Dict) ->
  CkpAreValuesEqual key other = false ->
  Count Dict - 1 <= Z.max (Capacity Dict / DICT_GROW_FACTOR) DICT_MIN_CAPACITY ->
  CkpDictRemove Vm Dict key = Some (Vm', Dict', value) ->
  CkpDictGet Dict' other = CkpDictGet Dict other.
Proof.
  intros HLaws HWf HClosed HDistinct HDiffer HFits HRem.
  destruct (Remove_found _ _ _ _ _ _ HWf HRem)
    as [[HNull ->]|(Index & Found & Marked & [HR HK] & _ & HCount & HM & HWfM
                    & HCases)]; [done|].
  pose proof (ReadEntry_Some _ _ _ HR) as HI.
  pose proof HK as [HLive HE]%andb_true_iff.
  assert (HMarked : CkpDictGet Marked other = CkpDictGet Dict other).
  { subst Marked. apply (Tombstone_keeps_lookup Dict other Index Found);
      [done..|]. by eapply other_key_holder. }
  destruct HCases as [->|(Vm1 & Vm2 & HBig & HRes)]; [done|].
  rewrite <- HMarked.
  assert (HCap : Capacity Marked = Capacity Dict) by (by subst Marked).
  assert (HEnt : Entries Marked
                 = <[Z.to_nat Index := DeletedEntry]> (Entries Dict))
    by (by subst Marked).
  assert (HCnt : Count Marked = Count Dict - 1) by (by subst Marked).
  assert (HPC : ProbeClosed (Entries Marked) (Capacity Marked)).
  { rewrite HEnt, HCap. apply ProbeClosed_tombstone; [|lia|done].
    unfold_constants. lia. }
  assert (HDM : DistinctKeys (Entries Marked)).
  { rewrite HEnt. apply DistinctKeys_tombstone; [lia|done]. }
  assert (HN : 0 < Z.max (Capacity Dict / DICT_GROW_FACTOR) DICT_MIN_CAPACITY
               < 2 ^ UINTN_BITS).
  { destruct HWf as [_ [HC0 HC1] _ _ _]. unfold_constants.
    assert (Capacity Dict / 2 <= Capacity Dict)
      by (apply Z.div_le_upper_bound; lia). lia. }
  assert (HF : LiveCount (Entries Marked)
               <= Z.max (Capacity Dict / DICT_GROW_FACTOR) DICT_MIN_CAPACITY).
  { destruct HWfM as [_ _ _ HLiveM _]. lia. }
  by destruct (Resize_keeps_lookup _ _ _ _ _ other HLaws
                 (DictWf_Searchable _ HWfM) HPC HDM HN HF HRes)
    as (_ & _ & ?).
Qed.

End CallLookups.

(** ** Dictionaries built by sets alone *)

Section SetRuns.
Context {Equality : ValueEquality}.

Lemma Get_holder Dict key Index Entry :
  EqualityLaws -> Searchable Dict ->
  ProbeClosed (Entries Dict) (Capacity Dict) -> DistinctKeys (Entries Dict) ->
  Holder (Entries Dict) key Index Entry ->
  CkpDictGet Dict key = Some (Value Entry).
Proof.
  intros HLaws HS HC HD HH. eapply Get_found; [|exact (proj1 HH)].
  by eapply Find_holder.
Qed.

(** Without Tombstones, the insertion loop stops at a free slot only when
    the key is nowhere in the array. *)
Lemma AddedNew_NoHolder Entries Capacity key (j : nat) Free :
  EqualityLaws -> 0 < Capacity ->
  ProbeClosed Entries Capacity -> NoTombstone Entries ->
  Z.of_nat j < Capacity ->
  SkipsUntil (HoldsOtherKey key) Entries (HomeIndex key Capacity) Capacity j ->
  ReadEntry Entries (ProbeIndex (HomeIndex key Capacity) Capacity j)
  = Some Free ->
  IsLive Free = false ->
  NoHolder Entries key.
Proof.
  intros HLaws HC HClosed HNoTomb Hj HSk HR HFree Index Entry HRI.
  destruct (HoldsKey key Entry) eqn:HK; [exfalso|done].
  pose proof HK as [HLive HE]%andb_true_iff.
  destruct (Reaches_same_hash _ _ _ key _ (equal_hash HLaws _ _ HE)
              (HClosed _ _ HRI HLive)) as (j' & Hj' & HP' & HSk').
  destruct (lt_eq_lt_dec j' j) as [[Hlt | ->] | Hgt].
  - destruct (HSk j' Hlt) as (Entry' & HR' & HSkip).
    rewrite HP', HRI in HR'. injection HR' as <-.
    unfold HoldsOtherKey in HSkip. by rewrite HLive, HE in HSkip.
  - rewrite HP', HRI in HR. injection HR as <-. by rewrite HLive in HFree.
  - destruct (HSk' j Hgt) as (Entry' & HR' & HFull).
    rewrite HR in HR'. injection HR' as <-.
    pose proof (HNoTomb _ _ HR) as HT.
    unfold IsTombstone, IsEmpty, IsLive in *.
    by destruct (CK_IS_UNDEFINED (Key Free)),
         (CK_IS_UNDEFINED (Value Free)).
Qed.

Lemma AddEntry_DistinctKeys Entries Capacity key value Entries' New :
  EqualityLaws ->
  0 < Capacity < 2 ^ UINTN_BITS -> Z.of_nat (length Entries) = Capacity ->
  ProbeClosed Entries Capacity -> NoTombstone Entries ->
  DistinctKeys Entries ->
  CkpDictAddEntry Entries Capacity key value = Some (Entries', New) ->
  DistinctKeys Entries'.
Proof.
  intros HLaws HC HL HClosed HNoTomb HD HAdd.
  destruct (AddEntry_outcome Entries Capacity key value HC HL)
    as (Result & HAdd' & HOut).
  rewrite HAdd in HAdd'.
  destruct HOut as [j Free Hj HSk HR HFree|j Old Hj HSk HR HM|HSk];
    injection HAdd' as -> ->; [| |done].
  - assert (HPos : 0 < Capacity) by lia.
    pose proof (AddedNew_NoHolder _ _ _ _ _ HLaws HPos HClosed HNoTomb
                  Hj HSk HR HFree) as HNo.
    pose proof (ProbeIndex_range (HomeIndex key Capacity) Capacity j
                  (proj1 HC)) as HP.
    intros Left Right LeftEntry RightEntry HRL HRR HLL HLR HEq.
    destruct (ReadEntry_insert_inv _ _ _ _ _ (proj1 HP) HRL)
      as [[-> ->]|[HnL HL']];
    destruct (ReadEntry_insert_inv _ _ _ _ _ (proj1 HP) HRR)
      as [[-> ->]|[HnR HR']]; [done| | |by eapply HD].
    + exfalso. simpl in HEq. apply (equal_sym HLaws) in HEq.
      pose proof (HNo _ _ HR') as HK. unfold HoldsKey in HK.
      by rewrite HLR, HEq in HK.
    + exfalso. simpl in HEq.
      pose proof (HNo _ _ HL') as HK. unfold HoldsKey in HK.
      by rewrite HLL, HEq in HK.
  - pose proof (ProbeIndex_range (HomeIndex key Capacity) Capacity j
                  ltac:(lia)) as HP.
    pose proof HM as [HLive _]%andb_true_iff.
    intros Left Right LeftEntry RightEntry HRL HRR HLL HLR HEq.
    destruct (ReadEntry_insert_inv _ _ _ _ _ (proj1 HP) HRL)
      as [[-> ->]|[HnL HL']];
    destruct (ReadEntry_insert_inv _ _ _ _ _ (proj1 HP) HRR)
      as [[-> ->]|[HnR HR']]; [done| | |by eapply HD].
    + simpl in HEq. by apply (HD _ _ _ _ HR HR' HLive HLR).
    + simpl in HEq. by apply (HD _ _ _ _ HL' HR HLL HLive).
Qed.

(** One CkpDictSet whose allocation does not fail, on a dictionary without
    Tombstones and without a key stored twice: the dictionary stays so, and
    it maps the keys equal to [key] to [value] and every other key to what
    it mapped it to before. *)
Lemma Set_step Vm Dict key value Vm' Dict' :
  EqualityLaws -> DictWf Dict -> NoAllocationFailure Vm ->
  ProbeClosed (Entries Dict) (Capacity Dict) ->
  NoTombstone (Entries Dict) -> DistinctKeys (Entries Dict) ->
  CK_IS_UNDEFINED key = false ->
  CkpDictSet Vm Dict key value = Some (Vm', Dict') ->
  NoAllocationFailure Vm'
  /\ ProbeClosed (Entries Dict') (Capacity Dict')
  /\ NoTombstone (Entries Dict')
  /\ DistinctKeys (Entries Dict')
  /\ forall query,
       CkpDictGet Dict' query
       = if CkpAreValuesEqual key query then Some value
         else CkpDictGet Dict query.
Proof.
  intros HLaws HWf HNoFail HClosed HNoTomb HDistinct HK HSet.
  destruct (Set_grown _ _ _ _ _ _ HLaws HWf HClosed HDistinct HSet)
    as (Dict1 & New & HS1 & HC1 & HD1 & HT1 & HG1 & HCnt1 & HFree & HPos
        & HAdd & HCap & HCount).
  destruct (HFree HNoFail) as [HNoFail' HRoom].
  assert (HNT1 : NoTombstone (Entries Dict1)) by (by destruct HT1 as [->|]).
  pose proof HS1 as (HRange & HLen & HLive & _).
  assert (HR1 : 0 < Capacity Dict1 < 2 ^ UINTN_BITS) by lia.
  assert (HC' : ProbeClosed (Entries Dict') (Capacity Dict')).
  { rewrite HCap. by eapply AddEntry_ProbeClosed. }
  assert (HT' : NoTombstone (Entries Dict'))
    by (by eapply AddEntry_NoTombstone).
  assert (HD' : DistinctKeys (Entries Dict'))
    by (by eapply AddEntry_DistinctKeys).
  split_and!; [done..|].
  intros query.
  destruct (CkpAreValuesEqual key query) eqn:HEq;
    [|by eapply Set_keeps_lookup].
  destruct (AddEntry_outcome (Entries Dict1) (Capacity Dict1) key value
              HR1 HLen) as (Result & HAdd' & HOut).
  rewrite HAdd in HAdd'. injection HAdd' as <-.
  destruct (AddEntryOutcome_effect _ _ _ _ _ HOut) as [HLen' HEffect].
  simpl in HLen', HEffect.
  assert (HS' : Searchable Dict').
  { destruct HWf as [_ _ [HN0 HN1] _ _].
    split_and!; [lia|lia|lia| |lia].
    rewrite HCount. destruct New; [|lia].
    rewrite UINTN_cast_small; lia. }
  pose proof (ProbeIndex_range (HomeIndex key (Capacity Dict1))
                (Capacity Dict1)) as HP.
  inversion HOut as [j Free Hj HSk HR HFr HRes|j Old Hj HSk HR HM HRes|HSk HRes].
  - change (Some value)
      with (Some (Value {| Key := key; Value := value |})).
    eapply (Get_holder Dict' query); [done..|]. split.
    + rewrite <- HRes. simpl. by eapply ReadEntry_insert_eq.
    + unfold HoldsKey, IsLive. simpl. by rewrite HK, HEq.
  - change (Some value)
      with (Some (Value {| Key := Key Old; Value := value |})).
    pose proof HM as [HLO HEO]%andb_true_iff.
    eapply (Get_holder Dict' query); [done..|]. split.
    + rewrite <- HRes. simpl. by eapply ReadEntry_insert_eq.
    + unfold HoldsKey. unfold IsLive in *. simpl. rewrite HLO. simpl.
      by apply (equal_trans HLaws _ key).
  - exfalso. by eapply (not_TableFull (Entries Dict1) (Capacity Dict1) key).
Qed.

End SetRuns.

(** ** Runs of sets *)

Lemma IdenticalValues_EqualityLaws : EqualityLaws (H := IdenticalValues).
Proof.
  split; unfold CkpAreValuesEqual, IdenticalValues.
  - intros a b Hab. apply bool_decide_eq_true in Hab.
    by apply bool_decide_eq_true.
  - intros a b c Hab Hbc. apply bool_decide_eq_true in Hab, Hbc.
    apply bool_decide_eq_true. congruence.
  - intros a b Hab. apply bool_decide_eq_true in Hab. by subst.
Qed.

Lemma NewDict_ProbeClosed : ProbeClosed (Entries NewDict) (Capacity NewDict).
Proof. intros Index Entry HR. by destruct Index. Qed.

Lemma NewDict_NoTombstone : NoTombstone (Entries NewDict).
Proof. intros Index Entry HR. by destruct Index. Qed.

Lemma NewDict_DistinctKeys `{ValueEquality} : DistinctKeys (Entries NewDict).
Proof. intros Left Right LeftEntry RightEntry HR. by destruct Left. Qed.

Section SetEachRuns.
Context {Equality : ValueEquality}.

Lemma Get_defined Dict key :
  DictWf Dict -> exists value, CkpDictGet Dict key = Some value.
Proof.
  intros HWf.
  destruct (Get_cases Dict key HWf) as [[_ HGet]|(? & ? & _ & _ & HGet)];
    by eexists.
Qed.

Lemma SetEach_run Pairs : forall Steps State,
  EqualityLaws -> 0 <= Steps ->
  (Steps + Z.of_nat (length Pairs)) * 4096 < 2 ^ UINTN_BITS ->
  RunInvariant Steps State ->
  NoAllocationFailure (fst State) ->
  ProbeClosed (Entries (snd State)) (Capacity (snd State)) ->
  NoTombstone (Entries (snd State)) ->
  DistinctKeys (Entries (snd State)) ->
  Forall (fun Pair => CK_IS_UNDEFINED (fst Pair) = false) Pairs ->
  exists State',
    Calls State (SetEach Pairs) = Some State'
    /\ NoAllocationFailure (fst State')
    /\ DictWf (snd State')
    /\ ProbeClosed (Entries (snd State')) (Capacity (snd State'))
    /\ NoTombstone (Entries (snd State'))
    /\ DistinctKeys (Entries (snd State'))
    /\ forall key Current,
         CkpDictGet (snd State) key = Some Current ->
         CkpDictGet (snd State') key = Some (LastValue Pairs key Current).
Proof.
  induction Pairs as [|[stored value] Pairs IH];
    intros Steps State HLaws HSteps HBound HRun HNoFail HClosed HNoTomb
      HDistinct HKeys.
  - exists State. destruct HRun as (HWf & _). by split_and!.
  - apply Forall_cons in HKeys as [HK HKeys]. simpl in HK.
    simpl length in HBound.
    pose proof HRun as (HWf & _).
    destruct (Set_defined (fst State) (snd State) stored value HWf HNoFail)
      as ([Vm1 Dict1] & HSet).
    assert (HCall : Call State (CallSet stored value) = Some (Vm1, Dict1))
      by done.
    destruct (Call_RunInvariant Steps State _ _ HSteps ltac:(lia) HRun HCall)
      as [HRun1 _].
    destruct (Set_step _ _ _ _ _ _ HLaws HWf HNoFail HClosed HNoTomb HDistinct
                HK HSet) as (HNoFail1 & HClosed1 & HNoTomb1 & HDistinct1 & HGet1).
    destruct (IH (Steps + 1) (Vm1, Dict1) HLaws ltac:(lia) ltac:(lia) HRun1
                HNoFail1 HClosed1 HNoTomb1 HDistinct1 HKeys)
      as (State' & HCalls & HNF' & HWf' & HC' & HT' & HD' & HGet').
    exists State'. split_and!; [|done..|].
    + unfold SetEach. cbn [map Calls fst snd]. rewrite HCall. exact HCalls.
    + intros key Current HGet. simpl. apply HGet'. simpl.
      rewrite HGet1. by destruct (CkpAreValuesEqual stored key).
Qed.

End SetEachRuns.

(** ** Sets that cannot grow the table *)

Section FailedGrowth.
Context {Equality : ValueEquality}.

(** CkpDictSet is defined as soon as the dictionary has an array, or gets
    one. *)
Lemma Set_defined_with_array Vm Dict key value :
  DictWf Dict -> (Capacity Dict = 0 -> NoAllocationFailure Vm) ->
  exists Vm' Dict', CkpDictSet Vm Dict key value = Some (Vm', Dict').
Proof.
  intros HWf HArray.
  destruct (Z.eq_dec (Capacity Dict) 0) as [H0|H0].
  { destruct (Set_defined Vm Dict key value HWf (HArray H0))
      as ([Vm' Dict'] & HSet). by exists Vm', Dict'. }
  pose proof HWf as [HLen [HC0 HC1] _ _ _].
  assert (HAdd : forall Dict1,
            0 < Capacity Dict1 < 2 ^ UINTN_BITS ->
            Z.of_nat (length (Entries Dict1)) = Capacity Dict1 ->
            exists Result,
              CkpDictAddEntry (Entries Dict1) (Capacity Dict1) key value
              = Some Result).
  { intros Dict1 HC HL.
    destruct (AddEntry_outcome _ _ key value HC HL) as (Result & HAdd & _).
    by exists Result. }
  unfold CkpDictSet.
  destruct (_ <? UINTN_cast (Count Dict + 1)).
  - set (NewCapacity := if _ <? _ then _ else _) in *.
    assert (HN : 0 < NewCapacity < 2 ^ UINTN_BITS).
    { subst NewCapacity.
      pose proof (UINTN_cast_range (Capacity Dict * DICT_GROW_FACTOR)).
      unfold_constants.
      destruct (Z.ltb_spec (UINTN_cast (Capacity Dict * 2)) 16); lia. }
    destruct (Resize_defined Vm Dict NewCapacity HN)
      as (Vm1 & Dict1 & HRes & _ & _ & _ & HCases & _); [lia|lia|].
    rewrite HRes.
    destruct (HAdd Dict1) as ([Array New] & ->).
    + destruct HCases as [->|(-> & _)]; unfold_constants; lia.
    + destruct HCases as [->|(HCap1 & HL & _)]; lia.
    + by eexists _, _.
  - destruct (HAdd Dict) as ([Array New] & ->);
      [unfold_constants; lia|lia|]. by eexists _, _.
Qed.

(** Without an array, and with no memory for one, CkpDictSet takes the
    hash modulo a Capacity of 0. *)
Lemma Set_no_array Vm Dict key value Rest :
  Capacity Dict = 0 -> Allocations Vm = false :: Rest ->
  CkpDictSet Vm Dict key value = None.
Proof.
  intros H0 HA. unfold CkpDictSet.
  destruct (_ <? UINTN_cast (Count Dict + 1)).
  - unfold CkpDictResize, CkAllocate.
    rewrite CK_ASSERT_Allocations, HA. simpl.
    unfold CkpDictAddEntry. by rewrite H0.
  - unfold CkpDictAddEntry. by rewrite H0.
Qed.

(** The dictionary CkpDictSet inserts into when the allocation of a
    larger array fails is the one it was given. *)
Lemma Set_failed_growth Vm Dict key value Rest :
  Allocations Vm = false :: Rest ->
  exists Vm',
    CkpDictSet Vm Dict key value
    = match CkpDictAddEntry (Entries Dict) (Capacity Dict) key value with
      | None => None
      | Some (NewEntries, New) =>
          Some (Vm', {| Count := if New then UINTN_cast (Count Dict + 1)
                                 else Count Dict;
                        Capacity := Capacity Dict;
                        Entries := NewEntries |})
      end
    /\ Roots Vm' = Roots Vm.
Proof.
  intros HA. unfold CkpDictSet.
  destruct (_ <? UINTN_cast (Count Dict + 1)).
  - unfold CkpDictResize, CkAllocate.
    rewrite CK_ASSERT_Allocations, HA. simpl.
    eexists. split; [done|].
    unfold CK_ASSERT. by destruct (_ <? _).
  - by exists Vm.
Qed.

(** A full table of other keys takes no further key. *)
Lemma AddEntry_full Entries Capacity key value :
  0 < Capacity < 2 ^ UINTN_BITS -> Z.of_nat (length Entries) = Capacity ->
  (forall Index Entry,
     ReadEntry Entries Index = Some Entry -> HoldsOtherKey key Entry = true) ->
  CkpDictAddEntry Entries Capacity key value = Some (Entries, false).
Proof.
  intros HC HL HFull.
  destruct (AddEntry_outcome Entries Capacity key value HC HL)
    as (Result & HAdd & HOut).
  rewrite HAdd.
  destruct HOut as [j Free Hj HSk HR HFree|j Old Hj HSk HR HM|HSk]; [| |done].
  - pose proof (HFull _ _ HR) as [HLive _]%andb_true_iff. congruence.
  - pose proof (HFull _ _ HR) as [_ HO]%andb_true_iff.
    apply andb_true_iff in HM as [_ HM]. by rewrite HM in HO.
Qed.

(** With a Tombstone on the probe path before the slot that holds the key,
    CkpDictAddEntry claims the Tombstone and leaves the other slot as it
    is. *)
Lemma AddEntry_before_holder Entries Capacity key value (j later : nat)
    Free Old :
  0 < Capacity < 2 ^ UINTN_BITS -> Z.of_nat (length Entries) = Capacity ->
  (j < later)%nat -> Z.of_nat later < Capacity ->
  SkipsUntil (HoldsOtherKey key) Entries (HomeIndex key Capacity) Capacity j ->
  ReadEntry Entries (ProbeIndex (HomeIndex key Capacity) Capacity j)
  = Some Free ->
  IsLive Free = false ->
  ReadEntry Entries (ProbeIndex (HomeIndex key Capacity) Capacity later)
  = Some Old ->
  exists Entries',
    CkpDictAddEntry Entries Capacity key value = Some (Entries', true)
    /\ ReadEntry Entries' (ProbeIndex (HomeIndex key Capacity) Capacity j)
       = Some {| Key := key; Value := value |}
    /\ ReadEntry Entries' (ProbeIndex (HomeIndex key Capacity) Capacity later)
       = Some Old
    /\ ProbeIndex (HomeIndex key Capacity) Capacity j
       <> ProbeIndex (HomeIndex key Capacity) Capacity later.
Proof.
  intros HC HL Hlt Hlater HSk HR HFree HROld.
  assert (Hj : Z.of_nat j < Capacity) by lia.
  assert (HNe : ProbeIndex (HomeIndex key Capacity) Capacity j
                <> ProbeIndex (HomeIndex key Capacity) Capacity later).
  { intros HEq. apply ProbeIndex_inj in HEq; lia. }
  pose proof (ProbeIndex_range (HomeIndex key Capacity) Capacity j
                (proj1 HC)) as HPj.
  pose proof (ProbeIndex_range (HomeIndex key Capacity) Capacity later
                (proj1 HC)) as HPl.
  eexists. split_and!; [|by eapply ReadEntry_insert_eq| |done].
  - rewrite (AddEntry_at _ _ _ _ j) by done. by eapply AddEntry_loop_free.
  - rewrite ReadEntry_insert_ne; [done|lia|lia|done].
Qed.

End FailedGrowth.

(** ** The dictionaries of the examples *)

Lemma Collided_built :
  Calls (Equality := IdenticalValues) (FreshVm, NewDict)
    (SetEach [(CkValueInteger 5, CkValueInteger 5);
              (CkValueInteger 21, CkValueInteger 21)])
  = Some (FreshVm, Collided).
Proof. vm_compute. reflexivity. Qed.

Lemma Collided_invariants :
  DictWf Collided
  /\ ProbeClosed (Entries Collided) (Capacity Collided)
  /\ NoTombstone (Entries Collided)
  /\ DistinctKeys (H := IdenticalValues) (Entries Collided).
Proof.
  destruct (SetEach_run (Equality := IdenticalValues)
              [(CkValueInteger 5, CkValueInteger 5);
               (CkValueInteger 21, CkValueInteger 21)] 0 (FreshVm, NewDict)
              IdenticalValues_EqualityLaws)
    as (State' & HCalls & _ & HWf & HPC & HNT & HDK & _).
  - lia.
  - vm_compute. reflexivity.
  - apply NewDict_RunInvariant.
  - constructor.
  - apply NewDict_ProbeClosed.
  - apply NewDict_NoTombstone.
  - apply NewDict_DistinctKeys.
  - by repeat constructor.
  - rewrite Collided_built in HCalls. injection HCalls as <-. done.
Qed.

Lemma BehindTombstone_run :
  Calls (Equality := IdenticalValues) (FreshVm, NewDict)
    [CallSet (CkValueInteger 5) (CkValueInteger 5);
     CallSet (CkValueInteger 21) (CkValueInteger 21);
     CallRemove (CkValueInteger 5)]
  = Some (FreshVm, BehindTombstone).
Proof. vm_compute. reflexivity. Qed.

Lemma FullTable_DictWf : DictWf FullTable.
Proof. constructor; (vm_compute; done). Qed.

Lemma Grown_built :
  Calls (Equality := IdenticalValues) (FreshVm, NewDict)
    (SetEach (map (fun key => (key, key)) (IntegerKeys 13)))
  = Some (FreshVm, Grown).
Proof. vm_compute. reflexivity. Qed.

Lemma Grown_invariants :
  DictWf Grown
  /\ ProbeClosed (Entries Grown) (Capacity Grown)
  /\ NoTombstone (Entries Grown)
  /\ DistinctKeys (H := IdenticalValues) (Entries Grown).
Proof.
  destruct (SetEach_run (Equality := IdenticalValues)
              (map (fun key => (key, key)) (IntegerKeys 13)) 0
              (FreshVm, NewDict) IdenticalValues_EqualityLaws)
    as (State' & HCalls & _ & HWf & HPC & HNT & HDK & _).
  - lia.
  - vm_compute. reflexivity.
  - apply NewDict_RunInvariant.
  - constructor.
  - apply NewDict_ProbeClosed.
  - apply NewDict_NoTombstone.
  - apply NewDict_DistinctKeys.
  - by repeat constructor.
  - rewrite Grown_built in HCalls. injection HCalls as <-. done.
Qed.

(** ** Further properties of the dictionary *)

Section Further.
Context {Equality : ValueEquality}.

(** X1: in a well-formed dictionary with closed probe paths that stores no
    key twice, a key held by a Live slot is found at that slot and
    CkpDictGet returns the value of the slot; a key that no Live slot holds
    is not found, and CkpDictGet returns CK_UNDEFINED_VALUE. *)
Theorem Get_characterised Dict key :
  EqualityLaws -> DictWf Dict ->
  ProbeClosed (Entries Dict) (Capacity Dict) -> DistinctKeys (Entries Dict) ->
  (forall Index Entry,
     Holder (Entries Dict) key Index Entry ->
     CkpDictFindEntry Dict key = Some (EntryAt Index)
     /\ CkpDictGet Dict key = Some (Value Entry))
  /\ (NoHolder (Entries Dict) key ->
      CkpDictFindEntry Dict key = Some NULL
      /\ CkpDictGet Dict key = Some CK_UNDEFINED_VALUE).
Proof.
  intros HLaws HWf HClosed HDistinct.
  pose proof (DictWf_Searchable _ HWf) as HS. split.
  - intros Index Entry HH. split; [by eapply Find_holder|by eapply Get_holder].
  - intros HNo.
    destruct (Get_cases Dict key HWf)
      as [[HNull HGet]|(Index & Entry & [HR HK] & _)]; [done|].
    by rewrite (HNo _ _ HR) in HK.
Qed.

(** X2: when the assertion of CkpDictResize holds (NewCapacity > Count), the
    call returns without a failed assertion, leaves Count alone, and every
    CkpDictGet returns afterwards what it returned before, whether the new
    array could be allocated or not. *)
Theorem Resize_preserves_lookups Vm Dict NewCapacity :
  EqualityLaws -> DictWf Dict ->
  ProbeClosed (Entries Dict) (Capacity Dict) -> DistinctKeys (Entries Dict) ->
  Count Dict < NewCapacity < 2 ^ UINTN_BITS ->
  exists Vm' Dict',
    CkpDictResize Vm Dict NewCapacity = Some (Vm', Dict')
    /\ FailedAssertions Vm' = FailedAssertions Vm
    /\ Count Dict' = Count Dict
    /\ forall key, CkpDictGet Dict' key = CkpDictGet Dict key.
Proof.
  intros HLaws HWf HClosed HDistinct HNew.
  pose proof (DictWf_Searchable _ HWf) as HS.
  pose proof HWf as [_ [HC0 _] [HN0 _] HLive _].
  pose proof HS as (_ & HLen & _).
  assert (HN : 0 < NewCapacity < 2 ^ UINTN_BITS) by lia.
  destruct (Resize_defined Vm Dict NewCapacity HN HC0 HLen)
    as (Vm' & Dict' & HRes & HCount & _).
  exists Vm', Dict'. split_and!; [done| |done|].
  - rewrite (Resize_FailedAssertions _ _ _ _ _ HRes).
    by destruct (Z.ltb_spec (Count Dict) NewCapacity); [|lia].
  - intros key.
    by destruct (Resize_keeps_lookup _ _ _ _ _ key HLaws HS HClosed HDistinct
                   HN ltac:(lia) HRes) as (_ & _ & ?).
Qed.

(** X3: CkpDictSet of a key leaves the result of CkpDictGet for every key
    that is not equal to it as it was, whether the table grows or not and
    whether the allocation fails or not (as long as there is an array to
    insert into). *)
Theorem Set_keeps_other_keys Vm Dict key value :
  EqualityLaws -> DictWf Dict ->
  ProbeClosed (Entries Dict) (Capacity Dict) -> DistinctKeys (Entries Dict) ->
  CK_IS_UNDEFINED key = false ->
  (Capacity Dict = 0 -> NoAllocationFailure Vm) ->
  exists Vm' Dict',
    CkpDictSet Vm Dict key value = Some (Vm', Dict')
    /\ forall other,
         CkpAreValuesEqual key other = false ->
         CkpDictGet Dict' other = CkpDictGet Dict other.
Proof.
  intros HLaws HWf HClosed HDistinct HK HArray.
  destruct (Set_defined_with_array Vm Dict key value HWf HArray)
    as (Vm' & Dict' & HSet).
  exists Vm', Dict'. split; [done|]. intros other HDiffer.
  by eapply Set_keeps_lookup.
Qed.

(** X4: in a well-formed dictionary that stores no key twice, CkpDictRemove
    returns, and CkpDictGet of the removed key then returns
    CK_UNDEFINED_VALUE, whatever the shrink path did. *)
Theorem Remove_then_Get Vm Dict key :
  EqualityLaws -> DictWf Dict -> DistinctKeys (Entries Dict) ->
  exists Vm' Dict' value,
    CkpDictRemove Vm Dict key = Some (Vm', Dict', value)
    /\ CkpDictGet Dict' key = Some CK_UNDEFINED_VALUE.
Proof.
  intros HLaws HWf HDistinct.
  destruct (Remove_defined Vm Dict key HWf) as ([[Vm' Dict'] value] & HRem).
  exists Vm', Dict', value. split; [done|].
  by eapply Remove_then_Get_absent.
Qed.

(** X5: CkpDictRemove of a key leaves the result of CkpDictGet for every key
    that is not equal to it as it was, provided the entries that stay fit
    the array that the shrink path may install. *)
Theorem Remove_keeps_other_keys Vm Dict key :
  EqualityLaws -> DictWf Dict ->
  ProbeClosed (Entries Dict) (Capacity Dict) -> DistinctKeys (Entries Dict) ->
  Count Dict - 1 <= Z.max (Capacity Dict / DICT_GROW_FACTOR) DICT_MIN_CAPACITY ->
  exists Vm' Dict' value,
    CkpDictRemove Vm Dict key = Some (Vm', Dict', value)
    /\ forall other,
         CkpAreValuesEqual key other = false ->
         CkpDictGet Dict' other = CkpDictGet Dict other.
Proof.
  intros HLaws HWf HClosed HDistinct HFits.
  destruct (Remove_defined Vm Dict key HWf) as ([[Vm' Dict'] value] & HRem).
  exists Vm', Dict', value. split; [done|]. intros other HDiffer.
  by eapply Remove_keeps_lookup.
Qed.

(** X6: a dictionary built from CkpDictCreate's by sets alone, with no
    allocation failure, maps every key to the value of the last set whose
    key is equal to it, and to CK_UNDEFINED_VALUE if there is none. *)
Theorem SetEach_lookup Vm Pairs :
  EqualityLaws -> NoAllocationFailure Vm ->
  Forall (fun Pair => CK_IS_UNDEFINED (fst Pair) = false) Pairs ->
  Z.of_nat (length Pairs) * 4096 < 2 ^ UINTN_BITS ->
  exists Vm' Dict',
    Calls (Vm, NewDict) (SetEach Pairs) = Some (Vm', Dict')
    /\ forall key,
         CkpDictGet Dict' key
         = Some (LastValue Pairs key CK_UNDEFINED_VALUE).
Proof.
  intros HLaws HNoFail HKeys HBound.
  destruct (SetEach_run Pairs 0 (Vm, NewDict) HLaws)
    as ([Vm' Dict'] & HCalls & _ & _ & _ & _ & _ & HGet);
    [lia|lia|apply NewDict_RunInvariant|done|apply NewDict_ProbeClosed
    |apply NewDict_NoTombstone|apply NewDict_DistinctKeys|done|].
  exists Vm', Dict'. split; [done|]. intros key. by apply HGet.
Qed.

(** X7: a dictionary built from CkpDictCreate's by sets alone, with no
    allocation failure, has no Tombstone and stores no key twice. *)
Theorem SetEach_stores_each_key_once Vm Pairs :
  EqualityLaws -> NoAllocationFailure Vm ->
  Forall (fun Pair => CK_IS_UNDEFINED (fst Pair) = false) Pairs ->
  Z.of_nat (length Pairs) * 4096 < 2 ^ UINTN_BITS ->
  exists Vm' Dict',
    Calls (Vm, NewDict) (SetEach Pairs) = Some (Vm', Dict')
    /\ NoTombstone (Entries Dict')
    /\ DistinctKeys (Entries Dict').
Proof.
  intros HLaws HNoFail HKeys HBound.
  destruct (SetEach_run Pairs 0 (Vm, NewDict) HLaws)
    as ([Vm' Dict'] & HCalls & _ & _ & _ & HNT & HDK & _);
    [lia|lia|apply NewDict_RunInvariant|done|apply NewDict_ProbeClosed
    |apply NewDict_NoTombstone|apply NewDict_DistinctKeys|done|].
  by exists Vm', Dict'.
Qed.

(** X8: CkpDictSet of a key that a Live slot holds behind a slot whose Key
    is UNDEFINED (a Tombstone on the probe path of the key), in a table that
    need not grow, writes a second copy of the key into the first slot,
    leaves the old copy where it is, and counts the key once more. *)
Theorem Set_duplicates_behind_tombstone Vm Dict key value (j later : nat)
    Free Old :
  DictWf Dict ->
  Count Dict + 1 <= Capacity Dict * DICT_LOAD_FACTOR / 1024 ->
  CK_IS_UNDEFINED key = false ->
  (j < later)%nat -> Z.of_nat later < Capacity Dict ->
  SkipsUntil (HoldsOtherKey key) (Entries Dict)
    (HomeIndex key (Capacity Dict)) (Capacity Dict) j ->
  ReadEntry (Entries Dict)
    (ProbeIndex (HomeIndex key (Capacity Dict)) (Capacity Dict) j)
  = Some Free ->
  IsLive Free = false ->
  ReadEntry (Entries Dict)
    (ProbeIndex (HomeIndex key (Capacity Dict)) (Capacity Dict) later)
  = Some Old ->
  HoldsKey key Old = true ->
  exists Dict',
    CkpDictSet Vm Dict key value = Some (Vm, Dict')
    /\ Count Dict' = Count Dict + 1
    /\ Capacity Dict' = Capacity Dict
    /\ ReadEntry (Entries Dict')
         (ProbeIndex (HomeIndex key (Capacity Dict)) (Capacity Dict) j)
       = Some {| Key := key; Value := value |}
    /\ ReadEntry (Entries Dict')
         (ProbeIndex (HomeIndex key (Capacity Dict)) (Capacity Dict) later)
       = Some Old
    /\ ~ DistinctKeys (Entries Dict').
Proof.
  intros HWf HStay HK Hlt Hlater HSk HR HFree HROld HHolds.
  pose proof HWf as [HLen [HC0 HC1] [HN0 HN1] _ _].
  assert (HC : 0 < Capacity Dict < 2 ^ UINTN_BITS)
    by (unfold_constants; lia).
  destruct (AddEntry_before_holder (Entries Dict) (Capacity Dict) key value
              j later Free Old HC ltac:(lia) Hlt Hlater HSk HR HFree HROld)
    as (Entries' & HAdd & HNew & HOld & HNe).
  exists {| Count := Count Dict + 1; Capacity := Capacity Dict;
            Entries := Entries' |}.
  split_and!; [|done..|].
  - unfold CkpDictSet.
    rewrite !UINTN_cast_small by (unfold_constants; lia).
    destruct (Z.ltb_spec (Capacity Dict * DICT_LOAD_FACTOR / 1024)
                (Count Dict + 1)) as [|_]; [lia|].
    rewrite HAdd. cbv iota beta.
    by rewrite UINTN_cast_small by (unfold_constants; lia).
  - intros HDistinct. apply HNe. symmetry.
    pose proof HHolds as [HLive HE]%andb_true_iff.
    apply (HDistinct _ _ _ _ HOld HNew HLive); [|done].
    unfold IsLive. simpl. by rewrite HK.
Qed.

(** X9: when the allocation of the array fails, CkpDictSet is undefined (it
    takes the hash of the key modulo a Capacity of 0) exactly when the
    dictionary has no array yet; with an array it returns. *)
Theorem Set_undefined_without_array Vm Dict key value Rest :
  DictWf Dict -> Allocations Vm = false :: Rest ->
  CkpDictSet Vm Dict key value = None <-> Capacity Dict = 0.
Proof.
  intros HWf HA. split.
  - intros HNone.
    destruct (Z.eq_dec (Capacity Dict) 0) as [H0|H0]; [done|].
    destruct (Set_defined_with_array Vm Dict key value HWf)
      as (Vm' & Dict' & HSet); [done|congruence].
  - intros H0. by eapply Set_no_array.
Qed.

(** X10: when the table is full of other keys and the larger array cannot
    be allocated, CkpDictSet returns with the dictionary as it was: the key
    is not stored (CkpDictGet does not find it) and Count is not
    incremented. *)
Theorem Set_dropped_when_full Vm Dict key value Rest :
  DictWf Dict -> 0 < Capacity Dict ->
  Allocations Vm = false :: Rest ->
  Forall (fun Entry => HoldsOtherKey key Entry = true) (Entries Dict) ->
  exists Vm',
    CkpDictSet Vm Dict key value = Some (Vm', Dict)
    /\ CkpDictGet Dict key = Some CK_UNDEFINED_VALUE.
Proof.
  intros HWf HPos HA HFull.
  pose proof HWf as [HLen [HC0 HC1] _ _ _].
  assert (HAll : forall Index Entry,
            ReadEntry (Entries Dict) Index = Some Entry ->
            HoldsOtherKey key Entry = true).
  { intros Index Entry HR.
    exact (Forall_lookup_1 _ _ _ _ HFull (ReadEntry_lookup _ _ _ HR)). }
  destruct (Set_failed_growth Vm Dict key value Rest HA) as (Vm' & HSet & _).
  exists Vm'. split.
  - rewrite HSet, (AddEntry_full _ _ key value); [by destruct Dict| |lia|done].
    unfold_constants. lia.
  - apply Get_no_holder; [by apply DictWf_Searchable|].
    intros Index Entry HR.
    pose proof (HAll _ _ HR) as [HLive HO]%andb_true_iff.
    unfold HoldsKey. rewrite HLive. simpl.
    by destruct (CkpAreValuesEqual (Key Entry) key).
Qed.

(** X11: in every dictionary that a sequence of sets and removals builds
    from CkpDictCreate's, with or without allocation failures and failed
    assertions, each Live slot is reached by the probe for its key before
    any Empty slot. *)
Theorem Calls_ProbeClosed Vm Operations Vm' Dict' :
  Forall DefinedKey Operations ->
  Z.of_nat (length Operations) * 4096 < 2 ^ UINTN_BITS ->
  Calls (Vm, NewDict) Operations = Some (Vm', Dict') ->
  ProbeClosed (Entries Dict') (Capacity Dict').
Proof.
  intros HKeys HBound HCalls.
  by apply (Calls_ProbeClosed_step Operations 0 (Vm, NewDict) (Vm', Dict'));
    [lia|lia|apply NewDict_RunInvariant|done|apply NewDict_ProbeClosed|].
Qed.

(** X12: a sequence of sets and removals leaves the stack of GC roots as it
    was: CkpDictRemove pops the value it pushed on every path, and nothing
    else touches the stack. *)
Theorem Calls_Roots_unchanged State Operations State' :
  Calls State Operations = Some State' ->
  Roots (fst State') = Roots (fst State).
Proof. apply Calls_Roots. Qed.

(** X13: the Capacity of every dictionary that a sequence of sets and
    removals builds from CkpDictCreate's is 0 or 16 doubled some number of
    times. *)
Theorem Capacity_is_16_doubled Vm Operations Vm' Dict' :
  Z.of_nat (length Operations) * 4096 < 2 ^ UINTN_BITS ->
  Calls (Vm, NewDict) Operations = Some (Vm', Dict') ->
  CapacityShape (Capacity Dict').
Proof.
  intros HBound HCalls.
  by apply (Calls_CapacityShape Operations 0 (Vm, NewDict) (Vm', Dict'));
    [lia|lia|apply NewDict_RunInvariant|left|].
Qed.

(** X14: with no allocation failure, every sequence of sets and removals on
    CkpDictCreate's dictionary runs to its end: no call reads or writes
    outside the array or divides by zero; and CkpDictGet is then defined
    for every key. *)
Theorem Calls_defined Vm Operations key :
  NoAllocationFailure Vm ->
  Z.of_nat (length Operations) * 4096 < 2 ^ UINTN_BITS ->
  exists Vm' Dict' value,
    Calls (Vm, NewDict) Operations = Some (Vm', Dict')
    /\ NoAllocationFailure Vm'
    /\ CkpDictGet Dict' key = Some value.
Proof.
  intros HNoFail HBound.
  destruct (Calls_checked Operations 0 (Vm, NewDict))
    as ([Vm' Dict'] & HCalls & HNoFail' & _);
    [lia|lia|apply NewDict_RunInvariant|done|].
  destruct (Calls_RunInvariant Operations 0 (Vm, NewDict) (Vm', Dict'))
    as [(HWf & _) _]; [lia|lia|apply NewDict_RunInvariant|done|].
  destruct (Get_defined Dict' key HWf) as (value & HGet).
  by exists Vm', Dict', value.
Qed.

End Further.

(** ** The core module *)

Section CoreModule.
Context {Equality : ValueEquality} {Creation : ModuleCreation}.

(** X17: when the module is created and no allocation fails,
    CkpInitializeCore returns CkSuccess, the registry then maps
    CK_NULL_VALUE to the core module, and it maps every other key to what
    it mapped it to before. *)
Theorem InitializeCore_registers_module Vm Modules Vm1 CoreModule :
  EqualityLaws ->
  CkpAreValuesEqual CK_NULL_VALUE CK_NULL_VALUE = true ->
  CkpModuleCreate Vm = (Vm1, Some CoreModule) ->
  NoAllocationFailure Vm1 ->
  DictWf Modules ->
  ProbeClosed (Entries Modules) (Capacity Modules) ->
  NoTombstone (Entries Modules) -> DistinctKeys (Entries Modules) ->
  exists Vm' Modules',
    CkpInitializeCore Vm Modules = Some (Vm', Modules', CkSuccess)
    /\ CkpDictGet Modules' CK_NULL_VALUE = Some (CkValueObject CoreModule)
    /\ forall other,
         CkpAreValuesEqual CK_NULL_VALUE other = false ->
         CkpDictGet Modules' other = CkpDictGet Modules other.
Proof.
  intros HLaws HRefl HCreate HNoFail HWf HClosed HNoTomb HDistinct.
  destruct (Set_defined Vm1 Modules CK_NULL_VALUE (CkValueObject CoreModule)
              HWf HNoFail) as ([Vm' Modules'] & HSet).
  assert (HK : CK_IS_UNDEFINED CK_NULL_VALUE = false) by done.
  destruct (Set_step _ _ _ _ _ _ HLaws HWf HNoFail HClosed HNoTomb HDistinct
              HK HSet) as (_ & _ & _ & _ & HGet).
  exists Vm', Modules'. split_and!.
  - unfold CkpInitializeCore. by rewrite HCreate, HSet.
  - by rewrite HGet, HRefl.
  - intros other HDiffer. by rewrite HGet, HDiffer.
Qed.

(** X18: when the module is created but the registry has no array yet and
    the allocation of its first array fails, CkpInitializeCore is
    undefined: its CkpDictSet evaluates CkpHashValue(Key) % Capacity with a
    Capacity of 0, a division by zero, for which C defines no behaviour
    (the model has no result for the call; what a build then does is not
    stated). *)
Theorem InitializeCore_undefined_without_array Vm Modules Vm1 CoreModule
    Rest :
  CkpModuleCreate Vm = (Vm1, Some CoreModule) ->
  Capacity Modules = 0 ->
  Allocations Vm1 = false :: Rest ->
  CkpInitializeCore Vm Modules = None.
Proof.
  intros HCreate H0 HA. unfold CkpInitializeCore.
  by rewrite HCreate, (Set_no_array _ _ _ _ Rest H0 HA).
Qed.

End CoreModule.

(** ** The further properties at work *)

Lemma Get_characterised_witness :
  (EqualityLaws (H := IdenticalValues)
   /\ DictWf Collided
   /\ ProbeClosed (Entries Collided) (Capacity Collided)
   /\ DistinctKeys (H := IdenticalValues) (Entries Collided)
   /\ Holder (H := IdenticalValues) (Entries Collided) (CkValueInteger 21) 6
        {| Key := CkValueInteger 21; Value := CkValueInteger 21 |})
  /\ CkpDictFindEntry (Equality := IdenticalValues) Collided
       (CkValueInteger 21) = Some (EntryAt 6)
  /\ CkpDictGet (Equality := IdenticalValues) Collided (CkValueInteger 21)
     = Some (CkValueInteger 21).
Proof.
  pose proof Collided_invariants as (HWf & HPC & _ & HDK).
  assert (HH : Holder (H := IdenticalValues) (Entries Collided)
                 (CkValueInteger 21) 6
                 {| Key := CkValueInteger 21; Value := CkValueInteger 21 |})
    by (split; reflexivity).
  split; [split_and!; done || apply IdenticalValues_EqualityLaws|].
  exact (proj1 (Get_characterised (Equality := IdenticalValues) Collided
                  (CkValueInteger 21) IdenticalValues_EqualityLaws HWf HPC HDK)
           6 _ HH).
Defined.

Lemma Resize_preserves_lookups_witness :
  (EqualityLaws (H := IdenticalValues)
   /\ DictWf Collided
   /\ ProbeClosed (Entries Collided) (Capacity Collided)
   /\ DistinctKeys (H := IdenticalValues) (Entries Collided)
   /\ Count Collided < 32 < 2 ^ UINTN_BITS)
  /\ exists Vm' Dict',
       CkpDictResize (Equality := IdenticalValues) FreshVm Collided 32
       = Some (Vm', Dict')
       /\ FailedAssertions Vm' = FailedAssertions FreshVm
       /\ Count Dict' = Count Collided
       /\ forall key,
            CkpDictGet (Equality := IdenticalValues) Dict' key
            = CkpDictGet (Equality := IdenticalValues) Collided key.
Proof.
  pose proof Collided_invariants as (HWf & HPC & _ & HDK).
  assert (HN : Count Collided < 32 < 2 ^ UINTN_BITS) by (by vm_compute).
  split; [split_and!; done || apply IdenticalValues_EqualityLaws|].
  exact (Resize_preserves_lookups (Equality := IdenticalValues) FreshVm
           Collided 32 IdenticalValues_EqualityLaws HWf HPC HDK HN).
Defined.

Lemma Set_keeps_other_keys_witness :
  (EqualityLaws (H := IdenticalValues)
   /\ DictWf Collided
   /\ ProbeClosed (Entries Collided) (Capacity Collided)
   /\ DistinctKeys (H := IdenticalValues) (Entries Collided)
   /\ CK_IS_UNDEFINED (CkValueInteger 37) = false
   /\ Capacity Collided <> 0)
  /\ exists Vm' Dict',
       CkpDictSet (Equality := IdenticalValues) ExhaustedVm Collided
         (CkValueInteger 37) CkValueNull = Some (Vm', Dict')
       /\ forall other,
            CkpAreValuesEqual (ValueEquality := IdenticalValues)
              (CkValueInteger 37) other = false ->
            CkpDictGet (Equality := IdenticalValues) Dict' other
            = CkpDictGet (Equality := IdenticalValues) Collided other.
Proof.
  pose proof Collided_invariants as (HWf & HPC & _ & HDK).
  assert (HArray : Capacity Collided <> 0) by (by vm_compute).
  split; [split_and!; done || apply IdenticalValues_EqualityLaws|].
  exact (Set_keeps_other_keys (Equality := IdenticalValues) ExhaustedVm
           Collided (CkValueInteger 37) CkValueNull
           IdenticalValues_EqualityLaws HWf HPC HDK eq_refl
           (fun H0 => False_ind _ (HArray H0))).
Defined.

Lemma Remove_then_Get_witness :
  (EqualityLaws (H := IdenticalValues)
   /\ DictWf Collided
   /\ DistinctKeys (H := IdenticalValues) (Entries Collided))
  /\ exists Vm' Dict' value,
       CkpDictRemove (Equality := IdenticalValues) FreshVm Collided
         (CkValueInteger 5) = Some (Vm', Dict', value)
       /\ CkpDictGet (Equality := IdenticalValues) Dict' (CkValueInteger 5)
          = Some CK_UNDEFINED_VALUE.
Proof.
  pose proof Collided_invariants as (HWf & _ & _ & HDK).
  split; [split_and!; done || apply IdenticalValues_EqualityLaws|].
  exact (Remove_then_Get (Equality := IdenticalValues) FreshVm Collided
           (CkValueInteger 5) IdenticalValues_EqualityLaws HWf HDK).
Defined.

Lemma Remove_keeps_other_keys_witness :
  (EqualityLaws (H := IdenticalValues)
   /\ DictWf Grown
   /\ ProbeClosed (Entries Grown) (Capacity Grown)
   /\ DistinctKeys (H := IdenticalValues) (Entries Grown)
   /\ Count Grown - 1
      <= Z.max (Capacity Grown / DICT_GROW_FACTOR) DICT_MIN_CAPACITY)
  /\ exists Vm' Dict' value,
       CkpDictRemove (Equality := IdenticalValues) FreshVm Grown
         (CkValueInteger 0) = Some (Vm', Dict', value)
       /\ forall other,
            CkpAreValuesEqual (ValueEquality := IdenticalValues)
              (CkValueInteger 0) other = false ->
            CkpDictGet (Equality := IdenticalValues) Dict' other
            = CkpDictGet (Equality := IdenticalValues) Grown other.
Proof.
  pose proof Grown_invariants as (HWf & HPC & _ & HDK).
  assert (HFits : Count Grown - 1
                  <= Z.max (Capacity Grown / DICT_GROW_FACTOR)
                       DICT_MIN_CAPACITY) by (by vm_compute).
  split; [split_and!; done || apply IdenticalValues_EqualityLaws|].
  exact (Remove_keeps_other_keys (Equality := IdenticalValues) FreshVm
           Grown (CkValueInteger 0) IdenticalValues_EqualityLaws HWf HPC
           HDK HFits).
Defined.

Lemma SetEach_lookup_witness :
  (EqualityLaws (H := IdenticalValues)
   /\ NoAllocationFailure FreshVm
   /\ Forall (fun Pair => CK_IS_UNDEFINED (fst Pair) = false)
        [(CkValueInteger 5, CkValueInteger 1);
         (CkValueInteger 21, CkValueInteger 2);
         (CkValueInteger 5, CkValueInteger 3)]
   /\ 3 * 4096 < 2 ^ UINTN_BITS)
  /\ exists Vm' Dict',
       Calls (Equality := IdenticalValues) (FreshVm, NewDict)
         (SetEach [(CkValueInteger 5, CkValueInteger 1);
                   (CkValueInteger 21, CkValueInteger 2);
                   (CkValueInteger 5, CkValueInteger 3)])
       = Some (Vm', Dict')
       /\ forall key,
            CkpDictGet (Equality := IdenticalValues) Dict' key
            = Some (LastValue (H := IdenticalValues)
                      [(CkValueInteger 5, CkValueInteger 1);
                       (CkValueInteger 21, CkValueInteger 2);
                       (CkValueInteger 5, CkValueInteger 3)]
                      key CK_UNDEFINED_VALUE).
Proof.
  assert (HNoFail : NoAllocationFailure FreshVm) by constructor.
  assert (HKeys : Forall (fun Pair => CK_IS_UNDEFINED (fst Pair) = false)
                    [(CkValueInteger 5, CkValueInteger 1);
                     (CkValueInteger 21, CkValueInteger 2);
                     (CkValueInteger 5, CkValueInteger 3)])
    by (by repeat constructor).
  assert (HBound : 3 * 4096 < 2 ^ UINTN_BITS) by (by vm_compute).
  split; [split_and!; done || apply IdenticalValues_EqualityLaws|].
  exact (SetEach_lookup (Equality := IdenticalValues) FreshVm _
           IdenticalValues_EqualityLaws HNoFail HKeys HBound).
Defined.

Lemma SetEach_stores_each_key_once_witness :
  (EqualityLaws (H := IdenticalValues)
   /\ NoAllocationFailure FreshVm
   /\ Forall (fun Pair => CK_IS_UNDEFINED (fst Pair) = false)
        [(CkValueInteger 5, CkValueInteger 1);
         (CkValueInteger 21, CkValueInteger 2);
         (CkValueInteger 5, CkValueInteger 3)]
   /\ 3 * 4096 < 2 ^ UINTN_BITS)
  /\ exists Vm' Dict',
       Calls (Equality := IdenticalValues) (FreshVm, NewDict)
         (SetEach [(CkValueInteger 5, CkValueInteger 1);
                   (CkValueInteger 21, CkValueInteger 2);
                   (CkValueInteger 5, CkValueInteger 3)])
       = Some (Vm', Dict')
       /\ NoTombstone (Entries Dict')
       /\ DistinctKeys (H := IdenticalValues) (Entries Dict').
Proof.
  assert (HNoFail : NoAllocationFailure FreshVm) by constructor.
  assert (HKeys : Forall (fun Pair => CK_IS_UNDEFINED (fst Pair) = false)
                    [(CkValueInteger 5, CkValueInteger 1);
                     (CkValueInteger 21, CkValueInteger 2);
                     (CkValueInteger 5, CkValueInteger 3)])
    by (by repeat constructor).
  assert (HBound : 3 * 4096 < 2 ^ UINTN_BITS) by (by vm_compute).
  split; [split_and!; done || apply IdenticalValues_EqualityLaws|].
  exact (SetEach_stores_each_key_once (Equality := IdenticalValues) FreshVm _
           IdenticalValues_EqualityLaws HNoFail HKeys HBound).
Defined.

Lemma Set_duplicates_behind_tombstone_witness :
  (DictWf BehindTombstone
   /\ Count BehindTombstone + 1
      <= Capacity BehindTombstone * DICT_LOAD_FACTOR / 1024
   /\ ReadEntry (Entries BehindTombstone)
        (ProbeIndex (HomeIndex (CkValueInteger 21) 16) 16 0)
      = Some DeletedEntry
   /\ ReadEntry (Entries BehindTombstone)
        (ProbeIndex (HomeIndex (CkValueInteger 21) 16) 16 1)
      = Some {| Key := CkValueInteger 21; Value := CkValueInteger 21 |})
  /\ exists Dict',
       CkpDictSet (Equality := IdenticalValues) FreshVm BehindTombstone
         (CkValueInteger 21) CkValueNull = Some (FreshVm, Dict')
       /\ Count Dict' = 2
       /\ ReadEntry (Entries Dict') 5
          = Some {| Key := CkValueInteger 21; Value := CkValueNull |}
       /\ ReadEntry (Entries Dict') 6
          = Some {| Key := CkValueInteger 21; Value := CkValueInteger 21 |}
       /\ ~ DistinctKeys (H := IdenticalValues) (Entries Dict').
Proof.
  split; [split_and!; (exact BehindTombstone_DictWf || by vm_compute)|].
  destruct (Set_duplicates_behind_tombstone (Equality := IdenticalValues)
              FreshVm BehindTombstone (CkValueInteger 21) CkValueNull
              0 1 DeletedEntry
              {| Key := CkValueInteger 21; Value := CkValueInteger 21 |}
              BehindTombstone_DictWf)
    as (Dict' & HSet & HCount & _ & HNew & HOld & HTwice);
    [by vm_compute|reflexivity|lia|by vm_compute|intros i Hi; lia
    |reflexivity|reflexivity|reflexivity|reflexivity|].
  exists Dict'. split_and!; [exact HSet|exact HCount|exact HNew|exact HOld
                            |exact HTwice].
Defined.

Lemma Set_undefined_without_array_witness :
  (DictWf NewDict /\ Allocations ExhaustedVm = [false] /\ Capacity NewDict = 0)
  /\ CkpDictSet (Equality := IdenticalValues) ExhaustedVm NewDict
       (CkValueInteger 1) (CkValueInteger 2) = None.
Proof.
  split; [split_and!; [exact NewDict_DictWf|reflexivity|reflexivity]|].
  exact (proj2 (Set_undefined_without_array (Equality := IdenticalValues)
                  ExhaustedVm NewDict (CkValueInteger 1) (CkValueInteger 2) []
                  NewDict_DictWf eq_refl) eq_refl).
Defined.

Lemma Set_dropped_when_full_witness :
  (DictWf FullTable /\ 0 < Capacity FullTable
   /\ Allocations ExhaustedVm = [false]
   /\ Forall (fun Entry =>
                HoldsOtherKey (H := IdenticalValues) (CkValueInteger 16) Entry
                = true) (Entries FullTable))
  /\ exists Vm',
       CkpDictSet (Equality := IdenticalValues) ExhaustedVm FullTable
         (CkValueInteger 16) CkValueNull = Some (Vm', FullTable)
       /\ CkpDictGet (Equality := IdenticalValues) FullTable
            (CkValueInteger 16) = Some CK_UNDEFINED_VALUE.
Proof.
  assert (HFull : Forall (fun Entry =>
                            HoldsOtherKey (H := IdenticalValues)
                              (CkValueInteger 16) Entry = true)
                    (Entries FullTable)) by (by repeat constructor).
  assert (HPos : 0 < Capacity FullTable) by (by vm_compute).
  split; [split_and!; [exact FullTable_DictWf|done|reflexivity|done]|].
  exact (Set_dropped_when_full (Equality := IdenticalValues) ExhaustedVm
           FullTable (CkValueInteger 16) CkValueNull [] FullTable_DictWf HPos
           eq_refl HFull).
Defined.

Lemma Calls_ProbeClosed_witness :
  (Forall DefinedKey
     [CallSet (CkValueInteger 5) (CkValueInteger 5);
      CallSet (CkValueInteger 21) (CkValueInteger 21);
      CallRemove (CkValueInteger 5)]
   /\ 3 * 4096 < 2 ^ UINTN_BITS
   /\ Calls (Equality := IdenticalValues) (FreshVm, NewDict)
        [CallSet (CkValueInteger 5) (CkValueInteger 5);
         CallSet (CkValueInteger 21) (CkValueInteger 21);
         CallRemove (CkValueInteger 5)]
      = Some (FreshVm, BehindTombstone))
  /\ ProbeClosed (Entries BehindTombstone) (Capacity BehindTombstone).
Proof.
  assert (HKeys : Forall DefinedKey
                    [CallSet (CkValueInteger 5) (CkValueInteger 5);
                     CallSet (CkValueInteger 21) (CkValueInteger 21);
                     CallRemove (CkValueInteger 5)])
    by (by repeat constructor).
  assert (HBound : 3 * 4096 < 2 ^ UINTN_BITS) by (by vm_compute).
  split; [split_and!; [done|done|exact BehindTombstone_run]|].
  exact (Calls_ProbeClosed (Equality := IdenticalValues) FreshVm _ FreshVm
           BehindTombstone HKeys HBound BehindTombstone_run).
Defined.

Lemma Calls_Roots_unchanged_witness :
  exists State',
    Calls (Equality := IdenticalValues)
      ({| Allocations := []; Roots := [CkObjectOther 4096];
          FailedAssertions := 0 |}, NewDict)
      (SetEach (map (fun key => (key, CkValueObject (CkObjectOther 8192)))
                  (IntegerKeys 13))
       ++ [CallRemove (CkValueInteger 0)])
    = Some State'
    /\ Roots (fst State') = [CkObjectOther 4096].
Proof.
  destruct (Calls_checked (Equality := IdenticalValues)
              (SetEach (map (fun key =>
                               (key, CkValueObject (CkObjectOther 8192)))
                          (IntegerKeys 13))
               ++ [CallRemove (CkValueInteger 0)]) 0
              ({| Allocations := []; Roots := [CkObjectOther 4096];
                  FailedAssertions := 0 |}, NewDict))
    as (State' & HCalls & _);
    [lia|by vm_compute|apply NewDict_RunInvariant|constructor|].
  exists State'. split; [exact HCalls|].
  exact (Calls_Roots_unchanged (Equality := IdenticalValues) _ _ _ HCalls).
Defined.

Lemma Capacity_is_16_doubled_witness :
  (3 * 4096 < 2 ^ UINTN_BITS
   /\ Calls (Equality := IdenticalValues) (FreshVm, NewDict)
        [CallSet (CkValueInteger 5) (CkValueInteger 5);
         CallSet (CkValueInteger 21) (CkValueInteger 21);
         CallRemove (CkValueInteger 5)]
      = Some (FreshVm, BehindTombstone))
  /\ CapacityShape (Capacity BehindTombstone).
Proof.
  assert (HBound : 3 * 4096 < 2 ^ UINTN_BITS) by (by vm_compute).
  split; [split; [done|exact BehindTombstone_run]|].
  exact (Capacity_is_16_doubled (Equality := IdenticalValues) FreshVm
           [CallSet (CkValueInteger 5) (CkValueInteger 5);
            CallSet (CkValueInteger 21) (CkValueInteger 21);
            CallRemove (CkValueInteger 5)]
           FreshVm BehindTombstone HBound BehindTombstone_run).
Defined.

Lemma Calls_defined_witness :
  (NoAllocationFailure FreshVm /\ 48 * 4096 < 2 ^ UINTN_BITS)
  /\ exists Vm' Dict' value,
       Calls (Equality := IdenticalValues) (FreshVm, NewDict)
         (SetAll (IntegerKeys 24) ++ RemoveAll (IntegerKeys 24))
       = Some (Vm', Dict')
       /\ NoAllocationFailure Vm'
       /\ CkpDictGet (Equality := IdenticalValues) Dict' (CkValueInteger 7)
          = Some value.
Proof.
  assert (HNoFail : NoAllocationFailure FreshVm) by constructor.
  assert (HBound : 48 * 4096 < 2 ^ UINTN_BITS) by (by vm_compute).
  split; [by split|].
  exact (Calls_defined (Equality := IdenticalValues) FreshVm
           (SetAll (IntegerKeys 24) ++ RemoveAll (IntegerKeys 24))
           (CkValueInteger 7) HNoFail HBound).
Defined.

Lemma Calls_DictWf_witness :
  (3 * 4096 < 2 ^ UINTN_BITS
   /\ Calls (Equality := IdenticalValues) (FreshVm, NewDict)
        [CallSet (CkValueInteger 5) (CkValueInteger 5);
         CallSet (CkValueInteger 21) (CkValueInteger 21);
         CallRemove (CkValueInteger 5)]
      = Some (FreshVm, BehindTombstone))
  /\ DictWf BehindTombstone.
Proof.
  assert (HBound : 3 * 4096 < 2 ^ UINTN_BITS) by (by vm_compute).
  split; [split; [done|exact BehindTombstone_run]|].
  exact (Calls_DictWf (Equality := IdenticalValues) FreshVm
           [CallSet (CkValueInteger 5) (CkValueInteger 5);
            CallSet (CkValueInteger 21) (CkValueInteger 21);
            CallRemove (CkValueInteger 5)]
           FreshVm BehindTombstone HBound BehindTombstone_run).
Defined.

Lemma checked_Set_within_load_factor_witness :
  (NoAllocationFailure FreshVm /\ (12 + 1) * 4096 < 2 ^ UINTN_BITS)
  /\ exists Vm' Dict',
       Calls (Equality := IdenticalValues) (FreshVm, NewDict)
         (SetAll (IntegerKeys 12) ++ [CallSet (CkValueInteger 12) CkValueNull])
       = Some (Vm', Dict')
       /\ (FailedAssertions Vm' = FailedAssertions FreshVm ->
           Count Dict' <= Capacity Dict' * DICT_LOAD_FACTOR / 1024).
Proof.
  assert (HNoFail : NoAllocationFailure FreshVm) by constructor.
  assert (HBound : (12 + 1) * 4096 < 2 ^ UINTN_BITS) by (by vm_compute).
  split; [by split|].
  exact (checked_Set_within_load_factor (Equality := IdenticalValues) FreshVm
           (SetAll (IntegerKeys 12)) (CkValueInteger 12) CkValueNull HNoFail
           HBound).
Defined.

Lemma InitializeCore_registers_module_witness :
  (EqualityLaws (H := IdenticalValues)
   /\ CkpModuleCreate (ModuleCreation := OneAllocation) FreshVm
      = (FreshVm, Some (CkObjectOther 4096))
   /\ NoAllocationFailure FreshVm
   /\ DictWf NewDict)
  /\ exists Vm' Modules',
       CkpInitializeCore (H := IdenticalValues) (H0 := OneAllocation)
         FreshVm NewDict = Some (Vm', Modules', CkSuccess)
       /\ CkpDictGet (Equality := IdenticalValues) Modules' CK_NULL_VALUE
          = Some (CkValueObject (CkObjectOther 4096))
       /\ forall other,
            CkpAreValuesEqual (ValueEquality := IdenticalValues)
              CK_NULL_VALUE other = false ->
            CkpDictGet (Equality := IdenticalValues) Modules' other
            = CkpDictGet (Equality := IdenticalValues) NewDict other.
Proof.
  assert (HNoFail : NoAllocationFailure FreshVm) by constructor.
  split; [split_and!; [apply IdenticalValues_EqualityLaws|reflexivity|done
                      |exact NewDict_DictWf]|].
  exact (InitializeCore_registers_module (Equality := IdenticalValues)
           (Creation := OneAllocation) FreshVm NewDict FreshVm
           (CkObjectOther 4096) IdenticalValues_EqualityLaws eq_refl eq_refl
           HNoFail NewDict_DictWf NewDict_ProbeClosed NewDict_NoTombstone
           NewDict_DistinctKeys).
Defined.

Lemma InitializeCore_undefined_without_array_witness :
  (CkpModuleCreate (ModuleCreation := OneAllocation) NearlyExhaustedVm
   = (ExhaustedVm, Some (CkObjectOther 4096))
   /\ Capacity NewDict = 0
   /\ Allocations ExhaustedVm = [false])
  /\ CkpInitializeCore (H := IdenticalValues) (H0 := OneAllocation)
       NearlyExhaustedVm NewDict = None.
Proof.
  split; [split_and!; reflexivity|].
  exact (InitializeCore_undefined_without_array (Equality := IdenticalValues)
           (Creation := OneAllocation) NearlyExhaustedVm NewDict ExhaustedVm
           (CkObjectOther 4096) [] eq_refl eq_refl eq_refl).
Defined.

(** ** When the table is resized *)

Section ResizeRules.
Context {Equality : ValueEquality}.

(** X19: with no allocation failure, CkpDictSet returns, and the Capacity
    afterwards is max(2 * Capacity, 16) when Count + 1 exceeds
    Capacity * 768 / 1024 and the old Capacity otherwise; if Count is at
    most Capacity, the assertion of CkpDictResize does not fail. *)
Theorem Set_growth_rule Vm Dict key value :
  DictWf Dict -> NoAllocationFailure Vm ->
  exists Vm' Dict',
    CkpDictSet Vm Dict key value = Some (Vm', Dict')
    /\ Capacity Dict'
       = (if Capacity Dict * DICT_LOAD_FACTOR / 1024 <? Count Dict + 1
          then Z.max (Capacity Dict * DICT_GROW_FACTOR) DICT_MIN_CAPACITY
          else Capacity Dict)
    /\ (Count Dict <= Capacity Dict ->
        FailedAssertions Vm' = FailedAssertions Vm).
Proof.
  intros HWf HNoFail.
  destruct (Set_defined Vm Dict key value HWf HNoFail)
    as ([Vm' Dict'] & HSet).
  exists Vm', Dict'. split; [done|].
  pose proof HWf as [HLen [HC0 HC1] [HN0 HN1] _ _].
  destruct (Set_inv _ _ _ _ _ _ HSet)
    as (Dict1 & New & HGrow & _ & -> & _).
  destruct HGrow as [(-> & -> & HStay)|(NewCapacity & HEq & HNew & HCond & HRes)].
  - rewrite !UINTN_cast_small in HStay by (unfold_constants; lia).
    split; [|done].
    destruct (Z.ltb_spec (Capacity Dict * DICT_LOAD_FACTOR / 1024)
                (Count Dict + 1)); [lia|done].
  - rewrite !UINTN_cast_small in HCond by (unfold_constants; lia).
    rewrite UINTN_cast_small in HEq by (unfold_constants; lia).
    destruct (Resize_defined Vm Dict NewCapacity)
      as (Vm2 & Dict2 & HRes2 & _ & _ & _ & _ & HDone);
      [unfold_constants; lia|done|lia|].
    rewrite HRes in HRes2. injection HRes2 as <- <-.
    destruct (HDone HNoFail) as (-> & _). split.
    + destruct (Z.ltb_spec (Capacity Dict * DICT_LOAD_FACTOR / 1024)
                  (Count Dict + 1)); [done|lia].
    + intros HFits. rewrite (Resize_FailedAssertions _ _ _ _ _ HRes).
      destruct (Z.ltb_spec (Count Dict) NewCapacity); [done|].
      unfold_constants. lia.
Qed.

(** X20: with no allocation failure, CkpDictRemove of a key that is found
    takes one off Count, and halves the Capacity (down to 16 at least)
    exactly when Capacity is above 16 and the quotient
    Count / (Capacity / 3 * 768 / 1024), with the new Count, is not 0;
    the assertion of CkpDictResize fails in that call exactly when the new
    Count is not below the new Capacity. *)
Theorem Remove_shrink_rule Vm Dict key Index :
  DictWf Dict -> NoAllocationFailure Vm ->
  CkpDictFindEntry Dict key = Some (EntryAt Index) ->
  exists Vm' Dict' value,
    CkpDictRemove Vm Dict key = Some (Vm', Dict', value)
    /\ Count Dict' = Count Dict - 1
    /\ Capacity Dict'
       = (if (DICT_MIN_CAPACITY <? Capacity Dict)
             && negb ((Count Dict - 1)
                      / (Capacity Dict / DICT_SHRINK_FACTOR * DICT_LOAD_FACTOR
                         / 1024) =? 0)
          then Z.max (Capacity Dict / DICT_GROW_FACTOR) DICT_MIN_CAPACITY
          else Capacity Dict)
    /\ FailedAssertions Vm'
       = (if (DICT_MIN_CAPACITY <? Capacity Dict)
             && negb ((Count Dict - 1)
                      / (Capacity Dict / DICT_SHRINK_FACTOR * DICT_LOAD_FACTOR
                         / 1024) =? 0)
             && negb (Count Dict - 1
                      <? Z.max (Capacity Dict / DICT_GROW_FACTOR)
                           DICT_MIN_CAPACITY)
          then S (FailedAssertions Vm)
          else FailedAssertions Vm).
Proof.
  intros HWf HNoFail HF.
  pose proof HWf as [HLen [HC0 HC1] [HN0 HN1] HLive HEmpty].
  destruct (Get_cases Dict key HWf)
    as [[HNull _]|(Index' & Entry & [HR HK] & HF' & _)]; [congruence|].
  rewrite HF in HF'. injection HF' as <-.
  assert (HCount : Count Dict <> 0).
  { intros H0. unfold CkpDictFindEntry in HF. by rewrite H0 in HF. }
  unfold CkpDictRemove. rewrite HF. simpl. rewrite HR. simpl.
  rewrite (WriteEntry_Some _ _ Entry) by done. simpl.
  rewrite UINTN_cast_small by (unfold_constants; lia).
  set (Dict1 := {| Count := Count Dict - 1; Capacity := Capacity Dict;
                   Entries := <[Z.to_nat Index := DeletedEntry]> (Entries Dict) |}).
  rewrite (ShrinkCondition_defined Dict1) by done.
  change (Capacity Dict1) with (Capacity Dict).
  change (Count Dict1) with (Count Dict - 1).
  destruct (_ && _) eqn:HShrink; simpl andb; cbv iota.
  2:{ by eexists _, _, _. }
  pose proof HShrink as [HBig _]%andb_true_iff. apply Z.ltb_lt in HBig.
  rewrite ShrunkCapacity_max.
  change (Capacity Dict1) with (Capacity Dict).
  set (NewCapacity := Z.max (Capacity Dict / DICT_GROW_FACTOR)
                        DICT_MIN_CAPACITY).
  assert (HNew : 0 < NewCapacity < Capacity Dict).
  { subst NewCapacity. unfold_constants.
    assert (Capacity Dict / 2 < Capacity Dict)
      by (apply Z.div_lt_upper_bound; lia). lia. }
  destruct (Z.eqb_spec NewCapacity (Capacity Dict)) as [|_]; [lia|]. simpl negb.
  cbv iota.
  set (Vm1 := match Value Entry with
              | CkValueObject Object => CkpPushRoot Vm Object
              | _ => Vm
              end).
  assert (HVm1 : Allocations Vm1 = Allocations Vm
                 /\ FailedAssertions Vm1 = FailedAssertions Vm)
    by (subst Vm1; by destruct (Value Entry)).
  destruct HVm1 as [HA1 HFA1].
  destruct (Resize_defined Vm1 Dict1 NewCapacity)
    as (Vm2 & Dict2 & HRes & HCount2 & _ & _ & _ & HDone).
  { unfold_constants. lia. }
  { done. }
  { simpl. rewrite length_insert. lia. }
  rewrite HRes. eexists _, _, _. split; [done|].
  destruct HDone as (HCap2 & _).
  { unfold NoAllocationFailure. by rewrite HA1. }
  split_and!; [done|done|].
  transitivity (FailedAssertions Vm2); [by destruct (CK_IS_OBJECT _)|].
  rewrite (Resize_FailedAssertions _ _ _ _ _ HRes), HFA1.
  change (Count Dict1) with (Count Dict - 1).
  by destruct (Count Dict - 1 <? NewCapacity).
Qed.

(** X21: CkpDictCreate returns NULL exactly when its allocation fails; the
    dictionary it returns has no array, and yet lookups and removals are
    defined on it (they return before the hash is taken modulo the
    Capacity): CkpDictGet returns CK_UNDEFINED_VALUE and CkpDictRemove
    returns CK_NULL_VALUE and changes nothing. *)
Theorem Create_empty Vm :
  (snd (CkpDictCreate Vm) = None
   <-> exists Rest, Allocations Vm = false :: Rest)
  /\ forall Dict,
       snd (CkpDictCreate Vm) = Some Dict ->
       Capacity Dict = 0
       /\ forall Vm2 key,
            CkpDictGet Dict key = Some CK_UNDEFINED_VALUE
            /\ CkpDictRemove Vm2 Dict key = Some (Vm2, Dict, CK_NULL_VALUE).
Proof.
  unfold CkpDictCreate, CkAllocate. split.
  - destruct (Allocations Vm) as [|[|] Rest]; simpl.
    + split; [done|]. by intros [Rest' ?].
    + split; [done|]. by intros [Rest' ?].
    + split; [by exists Rest|done].
  - intros Dict HDict.
    assert (Dict = NewDict) as ->.
    { destruct (Allocations Vm) as [|[|] Rest]; simpl in HDict;
        by try injection HDict as <-. }
    split; [done|]. intros Vm2 key. split; [done|].
    by apply Remove_absent.
Qed.

End ResizeRules.

Lemma Set_growth_rule_witness :
  (DictWf FullTable /\ NoAllocationFailure FreshVm)
  /\ exists Vm' Dict',
       CkpDictSet (Equality := IdenticalValues) FreshVm FullTable
         (CkValueInteger 16) CkValueNull = Some (Vm', Dict')
       /\ Capacity Dict' = 32
       /\ (Count FullTable <= Capacity FullTable ->
           FailedAssertions Vm' = FailedAssertions FreshVm).
Proof.
  assert (HNoFail : NoAllocationFailure FreshVm) by constructor.
  split; [split; [exact FullTable_DictWf|done]|].
  exact (Set_growth_rule (Equality := IdenticalValues) FreshVm FullTable
           (CkValueInteger 16) CkValueNull FullTable_DictWf HNoFail).
Defined.

Lemma Remove_shrink_rule_witness :
  (DictWf Grown /\ NoAllocationFailure FreshVm
   /\ CkpDictFindEntry (Equality := IdenticalValues) Grown
        (CkValueInteger 0) = Some (EntryAt 0))
  /\ exists Vm' Dict' value,
       CkpDictRemove (Equality := IdenticalValues) FreshVm Grown
         (CkValueInteger 0) = Some (Vm', Dict', value)
       /\ Count Dict' = 12
       /\ Capacity Dict' = 16
       /\ FailedAssertions Vm' = 0%nat.
Proof.
  pose proof Grown_invariants as (HWf & _).
  assert (HNoFail : NoAllocationFailure FreshVm) by constructor.
  split; [split_and!; [done|done|reflexivity]|].
  exact (Remove_shrink_rule (Equality := IdenticalValues) FreshVm Grown
           (CkValueInteger 0) 0 HWf HNoFail eq_refl).
Defined.

Lemma Create_empty_witness :
  snd (CkpDictCreate FreshVm) = Some NewDict
  /\ Capacity NewDict = 0
  /\ forall Vm2 key,
       CkpDictGet (Equality := IdenticalValues) NewDict key
       = Some CK_UNDEFINED_VALUE
       /\ CkpDictRemove (Equality := IdenticalValues) Vm2 NewDict key
          = Some (Vm2, NewDict, CK_NULL_VALUE).
Proof.
  split; [reflexivity|].
  exact (proj2 (Create_empty (Equality := IdenticalValues) FreshVm) NewDict
           eq_refl).
Defined.
